(** * regex-test: the pattern explainer, the match engine and the CLI driver

    A shallow embedding of [src/index.ts].  JavaScript strings are modelled
    by [string] (a sequence of 8-bit code units); the host regular-expression
    engine, the file system and the process are explicit parameters. *)

From Stdlib Require Import String Ascii List Arith Lia Bool DecimalString.
Import ListNotations.
Open Scope string_scope.

Set Implicit Arguments.
Set Warnings "-register-all".

(* ================================================================= *)
(** ** JavaScript string primitives used by the program *)

Module JS.

(** [s.charAt(i)]: the one-character string at [i], empty out of range.
    The program writes [s[i]]; it only compares that value with non-empty
    literals or reads it in range, where both agree. *)
Definition charAt (s : string) (i : nat) : string := substring i 1 s.

(** [s.slice(a, b)] for [0 <= a]; the end is clamped to the length. *)
Definition slice (s : string) (a b : nat) : string := substring a (b - a) s.

(** [s.slice(a)]. *)
Definition sliceFrom (s : string) (a : nat) : string :=
  substring a (String.length s - a) s.

(** [s.indexOf(c, from)] for a one-character needle; [None] is [-1]. *)
Fixpoint indexOf (s : string) (c : ascii) (from : nat) : option nat :=
  match s with
  | EmptyString => None
  | String d s' =>
      match from with
      | 0 => if (d =? c)%char then Some 0 else option_map S (indexOf s' c 0)
      | S f => option_map S (indexOf s' c f)
      end
  end.

(** [s.includes(c)]. *)
Definition includes (s : string) (c : ascii) : bool :=
  match indexOf s c 0 with Some _ => true | None => false end.

(** [s.startsWith(c)]. *)
Definition startsWith (s : string) (c : ascii) : bool :=
  match s with
  | String d _ => (d =? c)%char
  | EmptyString => false
  end.

(** [s.split(c)]: the pieces between the occurrences of [c]. *)
Fixpoint split (c : ascii) (s : string) : list string :=
  match s with
  | EmptyString => [EmptyString]
  | String d s' =>
      if (d =? c)%char then EmptyString :: split c s'
      else match split c s' with
           | h :: t => String d h :: t
           | [] => [String d EmptyString]
           end
  end.

(** A string in boolean position: truthy unless empty. *)
Definition truthy (s : string) : bool :=
  match s with EmptyString => false | _ => true end.

(** An optional string interpolated in a template literal. *)
Definition tpl (o : option string) : string :=
  match o with Some s => s | None => "undefined" end.

(** [o === lit] for a possibly undefined string. *)
Definition strictEq (o : option string) (lit : string) : bool :=
  match o with Some s => (s =? lit) | None => false end.

End JS.

(** The double-quote character, as a string. *)
Definition dq : string := String (ascii_of_nat 34) EmptyString.
(** The backslash, as a string. *)
Definition bs : string := String (ascii_of_nat 92) EmptyString.

(* ================================================================= *)
(** ** Loops

    A [while] loop is a step function on the loop state that either
    continues with a new state or leaves with a result.  [iterate] runs it
    with a bound on the number of turns; [None] means the bound was hit. *)

Section Loop.
Variables St Res : Type.
Variable step : St -> St + Res.

Fixpoint iterate (fuel : nat) (s : St) : option Res :=
  match step s with
  | inr r => Some r
  | inl s' =>
      match fuel with
      | 0 => None
      | S f => iterate f s'
      end
  end.
End Loop.

(* ================================================================= *)
(** ** Regex explainer *)

Record ExplainPart := { token : string; meaning : string }.

Definition literal (ch : string) : ExplainPart :=
  {| token := ch; meaning := "Literal " ++ dq ++ ch ++ dq |}.

(** The [escapes] table of the backslash branch. *)
Definition escapes : list (string * string) :=
  [ ("d", "Any digit (0-9)");
    ("D", "Any non-digit");
    ("w", "Any word character (a-z, A-Z, 0-9, _)");
    ("W", "Any non-word character");
    ("s", "Any whitespace (space, tab, newline)");
    ("S", "Any non-whitespace");
    ("b", "Word boundary");
    ("B", "Non-word boundary");
    ("n", "Newline");
    ("t", "Tab");
    ("r", "Carriage return") ].

Fixpoint lookup (k : string) (tbl : list (string * string)) : option string :=
  match tbl with
  | [] => None
  | (k', v) :: rest => if k =? k' then Some v else lookup k rest
  end.

(** The branch for a backslash at [i]. *)
Definition explain_escape (pattern : string) (i : nat) : ExplainPart * nat :=
  let next := JS.charAt pattern (i + 1) in
  match lookup next escapes with
  | Some m => ({| token := bs ++ next; meaning := m |}, i + 2)
  | None =>
      ({| token := bs ++ next; meaning := "Literal " ++ dq ++ next ++ dq |},
       i + 2)
  end.

(** The branch for an opening bracket at [i]. *)
Definition explain_class (pattern : string) (i : nat) : ExplainPart * nat :=
  let e := match JS.indexOf pattern "]" i with
           | Some e => e
           | None => String.length pattern
           end in
  let charClass := JS.slice pattern i (e + 1) in
  let negated := JS.charAt pattern (i + 1) =? "^" in
  ({| token := charClass;
      meaning := if negated then "Any character NOT in " ++ charClass
                 else "Any character in " ++ charClass |},
   e + 1).

(** The branch for an opening parenthesis at [i]. *)
Definition explain_group (pattern : string) (i : nat) : ExplainPart * nat :=
  if JS.slice pattern i (i + 3) =? "(?:" then
    ({| token := "(?:"; meaning := "Non-capturing group start" |}, i + 3)
  else if JS.slice pattern i (i + 4) =? "(?<=" then
    ({| token := "(?<="; meaning := "Positive lookbehind start" |}, i + 4)
  else if JS.slice pattern i (i + 4) =? "(?<!" then
    ({| token := "(?<!"; meaning := "Negative lookbehind start" |}, i + 4)
  else if JS.slice pattern i (i + 3) =? "(?=" then
    ({| token := "(?="; meaning := "Positive lookahead start" |}, i + 3)
  else if JS.slice pattern i (i + 3) =? "(?!" then
    ({| token := "(?!"; meaning := "Negative lookahead start" |}, i + 3)
  else if (JS.charAt pattern (i + 1) =? "?")
          && (JS.charAt pattern (i + 2) =? "<") then
    match JS.indexOf pattern ">" (i + 3) with
    | Some nameEnd =>
        let name := JS.slice pattern (i + 3) nameEnd in
        ({| token := "(?<" ++ name ++ ">";
            meaning := "Named capture group " ++ dq ++ name ++ dq ++ " start" |},
         nameEnd + 1)
    | None =>
        ({| token := "("; meaning := "Capture group start" |}, i + 1)
    end
  else
    ({| token := "("; meaning := "Capture group start" |}, i + 1).

(** The meaning of a bounded repetition with interior [inner]. *)
Definition quant_meaning (inner : string) : string :=
  if JS.includes inner "," then
    let fields := JS.split "," inner in
    let min := nth_error fields 0 in
    let max := nth_error fields 1 in
    if JS.strictEq max EmptyString then
      JS.tpl min ++ " or more of the previous"
    else
      "Between " ++ JS.tpl min ++ " and " ++ JS.tpl max ++ " of the previous"
  else
    "Exactly " ++ inner ++ " of the previous".

(** The branch for an opening brace at [i]. *)
Definition explain_quant (pattern : string) (i : nat) : ExplainPart * nat :=
  match JS.indexOf pattern "}" i with
  | Some e =>
      let quant := JS.slice pattern i (e + 1) in
      let inner := JS.slice pattern (i + 1) e in
      ({| token := quant; meaning := quant_meaning inner |}, e + 1)
  | None => (literal (JS.charAt pattern i), i + 1)
  end.

(** One turn of the scan loop at position [i]: the part pushed and the
    new position. *)
Definition explain_body (pattern : string) (i : nat) : ExplainPart * nat :=
  let ch := JS.charAt pattern i in
  if ch =? "^" then
    ({| token := "^"; meaning := "Start of string/line" |}, i + 1)
  else if ch =? "$" then
    ({| token := "$"; meaning := "End of string/line" |}, i + 1)
  else if ch =? "." then
    ({| token := "."; meaning := "Any character (except newline)" |}, i + 1)
  else if ch =? "*" then
    ({| token := "*"; meaning := "Zero or more of the previous" |}, i + 1)
  else if ch =? "+" then
    ({| token := "+"; meaning := "One or more of the previous" |}, i + 1)
  else if ch =? "?" then
    ({| token := "?"; meaning := "Zero or one of the previous (optional)" |},
     i + 1)
  else if ch =? "|" then
    ({| token := "|"; meaning := "OR (alternative)" |}, i + 1)
  else if ch =? bs then explain_escape pattern i
  else if ch =? "[" then explain_class pattern i
  else if ch =? "(" then explain_group pattern i
  else if ch =? ")" then
    ({| token := ")"; meaning := "Group end" |}, i + 1)
  else if ch =? "{" then explain_quant pattern i
  else (literal ch, i + 1).

(** The loop state: the position [i] and the parts pushed so far. *)
Definition explain_step (pattern : string) (st : nat * list ExplainPart)
  : (nat * list ExplainPart) + list ExplainPart :=
  let (i, parts) := st in
  if (i <? String.length pattern)%nat then
    let (part, i') := explain_body pattern i in
    inl (i', (parts ++ [part])%list)
  else inr parts.

(** [explainRegex]: the scan from position 0 with no parts.  The bound on
    the number of turns is the length of the pattern. *)
Definition explainRegex (pattern : string) : option (list ExplainPart) :=
  iterate (explain_step pattern) (String.length pattern) (0, []).

Definition tokens (parts : list ExplainPart) : string :=
  fold_right (fun p acc => token p ++ acc) EmptyString parts.

(* ================================================================= *)
(** ** ANSI colors *)

Definition ESC : ascii := ascii_of_nat 27.

Module c.
Definition sgr (code : string) : string := String ESC ("[" ++ code ++ "m").
Definition reset := sgr "0".
Definition bold := sgr "1".
Definition dim := sgr "2".
Definition red := sgr "31".
Definition green := sgr "32".
Definition yellow := sgr "33".
Definition blue := sgr "34".
Definition magenta := sgr "35".
Definition cyan := sgr "36".
Definition white := sgr "37".
Definition bgRed := sgr "41".
Definition bgGreen := sgr "42".
Definition bgYellow := sgr "43".
Definition bgBlue := sgr "44".
Definition bgMagenta := sgr "45".
Definition bgCyan := sgr "46".
End c.

Definition MATCH_COLORS : list string :=
  [c.bgGreen; c.bgYellow; c.bgCyan; c.bgMagenta; c.bgBlue; c.bgRed].

(** [MATCH_COLORS[mi % MATCH_COLORS.length]]. *)
Definition match_color (mi : nat) : string :=
  nth (mi mod List.length MATCH_COLORS) MATCH_COLORS EmptyString.

(* ================================================================= *)
(** ** Argument parsing *)

Record Options := {
  help : bool;
  json : bool;
  pattern : string;
  strings : list string;
  flags : string;
  bulk : option string;
  explain : bool
}.

Definition default_options : Options :=
  {| help := false; json := false; pattern := EmptyString; strings := [];
     flags := "g"; bulk := None; explain := false |}.

Definition with_help (o : Options) : Options :=
  {| help := true; json := json o; pattern := pattern o;
     strings := strings o; flags := flags o; bulk := bulk o;
     explain := explain o |}.
Definition with_json (o : Options) : Options :=
  {| help := help o; json := true; pattern := pattern o;
     strings := strings o; flags := flags o; bulk := bulk o;
     explain := explain o |}.
Definition with_explain (o : Options) : Options :=
  {| help := help o; json := json o; pattern := pattern o;
     strings := strings o; flags := flags o; bulk := bulk o;
     explain := true |}.
Definition with_flags (v : string) (o : Options) : Options :=
  {| help := help o; json := json o; pattern := pattern o;
     strings := strings o; flags := v; bulk := bulk o;
     explain := explain o |}.
Definition with_bulk (v : string) (o : Options) : Options :=
  {| help := help o; json := json o; pattern := pattern o;
     strings := strings o; flags := flags o; bulk := Some v;
     explain := explain o |}.
Definition with_pattern (v : string) (o : Options) : Options :=
  {| help := help o; json := json o; pattern := v;
     strings := strings o; flags := flags o; bulk := bulk o;
     explain := explain o |}.
Definition push_string (v : string) (o : Options) : Options :=
  {| help := help o; json := json o; pattern := pattern o;
     strings := (strings o ++ [v])%list; flags := flags o; bulk := bulk o;
     explain := explain o |}.

(** [argv[k]].  Out of range the program only tests the value for
    truthiness, where [undefined] and the empty string agree. *)
Definition argAt (argv : list string) (k : nat) : string :=
  nth k argv EmptyString.

(** One turn of the argument loop, the trailing [i++] included. *)
Definition parse_body (argv : list string) (i : nat) (opts : Options)
  : nat * Options :=
  let a := argAt argv i in
  if (a =? "--help") || (a =? "-h") then (i + 1, with_help opts)
  else if a =? "--json" then (i + 1, with_json opts)
  else if a =? "--explain" then (i + 1, with_explain opts)
  else if (a =? "--flags") && JS.truthy (argAt argv (i + 1)) then
    (i + 1 + 1, with_flags (argAt argv (i + 1)) opts)
  else if (a =? "--bulk") && JS.truthy (argAt argv (i + 1)) then
    (i + 1 + 1, with_bulk (argAt argv (i + 1)) opts)
  else if negb (JS.truthy (pattern opts)) && negb (JS.startsWith a "-") then
    (i + 1, with_pattern a opts)
  else if JS.truthy (pattern opts) && negb (JS.startsWith a "-") then
    (i + 1, push_string a opts)
  else (i + 1, opts).

Definition parse_step (argv : list string) (st : nat * Options)
  : (nat * Options) + Options :=
  let (i, opts) := st in
  if (i <? List.length argv)%nat then inl (parse_body argv i opts)
  else inr opts.

(** [parseArgs]; the bound on the number of turns is the number of
    arguments. *)
Definition parseArgs (argv : list string) : option Options :=
  iterate (parse_step argv) (List.length argv) (0, default_options).

(* ================================================================= *)
(** ** Match processing *)

(** What [regex.exec] returns on success: element 0 of the array, its
    [index], the elements from 1 on (a capture that did not take part is
    [undefined]) and the [groups] object ([undefined] when the pattern
    names no group; a named group that did not take part is a key bound
    to [undefined]). *)
Record RawMatch := {
  raw_full : string;
  raw_index : nat;
  raw_captures : list (option string);
  raw_groups : option (list (string * option string))
}.

(** A compiled regular expression as the program uses it: [exec] reads
    [lastIndex] and the input, and returns its result and the [lastIndex]
    it leaves behind. *)
Definition RegExp : Type := nat -> string -> option RawMatch * nat.

(** [new RegExp(pattern, flags)]: the compiled expression, or the message
    of the error thrown. *)
Definition Engine : Type := string -> string -> RegExp + string.

Record MatchRecord := {
  full : string;
  index : nat;
  groups : list (option string);
  namedGroups : list (string * option string)
}.

Record MatchResult := {
  input : string;
  matches : list MatchRecord;
  highlighted : string
}.

(** The object pushed for a raw match. *)
Definition record_of (m : RawMatch) : MatchRecord :=
  {| full := raw_full m;
     index := raw_index m;
     groups := raw_captures m;
     namedGroups := match raw_groups m with Some g => g | None => [] end |}.

(** One turn of the global collection loop: the state is [lastIndex] and
    the matches pushed so far. *)
Definition collect_step (regex : RegExp) (inp : string)
  (st : nat * list MatchRecord)
  : (nat * list MatchRecord) + list MatchRecord :=
  let (lastIndex, ms) := st in
  match regex lastIndex inp with
  | (Some m, lastIndex') =>
      inl (if (String.length (raw_full m) =? 0)%nat then lastIndex' + 1
           else lastIndex',
           (ms ++ [record_of m])%list)
  | (None, _) => inr ms
  end.

(** The matches of one input: the loop when the flags include [g], one
    [exec] otherwise.  A fresh expression starts with [lastIndex] 0. *)
Definition collect (regex : RegExp) (fuel : nat) (flgs inp : string)
  : option (list MatchRecord) :=
  if JS.includes flgs "g" then iterate (collect_step regex inp) fuel (0, [])
  else match fst (regex 0 inp) with
       | Some m => Some [record_of m]
       | None => Some []
       end.

(** The highlight loop from match number [mi] on. *)
Fixpoint highlight_loop (inp : string) (ms : list MatchRecord)
  (mi lastEnd : nat) (acc : string) : string :=
  match ms with
  | [] => acc ++ JS.sliceFrom inp lastEnd
  | m :: rest =>
      let color := match_color mi in
      let acc1 := acc ++ JS.slice inp lastEnd (index m) in
      let acc2 := acc1 ++ (color ++ c.bold ++ full m ++ c.reset) in
      highlight_loop inp rest (mi + 1) (index m + String.length (full m)) acc2
  end.

Definition build_highlighted (inp : string) (ms : list MatchRecord) : string :=
  if (0 <? List.length ms)%nat then highlight_loop inp ms 0 0 EmptyString
  else inp.

(* ================================================================= *)
(** ** The process: console output and [process.exit]

    A computation of the program runs on the trace of lines written so
    far.  It ends with a value, or with the exit code given to
    [process.exit]; [None] means a loop hit its bound on turns. *)

Inductive event :=
| Out (line : string)
| Err (line : string).

Inductive status (A : Type) :=
| Running (a : A)
| Exited (code : nat).
Arguments Exited {A} code.

Definition Proc (A : Type) : Type := list event -> option (status A * list event).

Definition ret {A} (a : A) : Proc A := fun t => Some (Running a, t).

Definition bind {A B} (m : Proc A) (k : A -> Proc B) : Proc B :=
  fun t =>
    match m t with
    | None => None
    | Some (Exited code, t') => Some (Exited code, t')
    | Some (Running a, t') => k a t'
    end.

Notation "x <- m ;; k" := (bind m (fun x => k))
  (at level 61, m at next level, right associativity).
Notation "m ;; k" := (bind m (fun _ => k))
  (at level 61, right associativity).

Definition console_log (line : string) : Proc unit :=
  fun t => Some (Running tt, (t ++ [Out line])%list).

Definition console_error (line : string) : Proc unit :=
  fun t => Some (Running tt, (t ++ [Err line])%list).

Definition process_exit {A} (code : nat) : Proc A :=
  fun t => Some (Exited code, t).

(** The result of a bounded loop inside the process. *)
Definition bounded {A} (o : option A) : Proc A :=
  fun t => match o with Some a => Some (Running a, t) | None => None end.

Fixpoint log_all (lines : list string) : Proc unit :=
  match lines with
  | [] => ret tt
  | l :: rest => console_log l ;; log_all rest
  end.

(** [for (const x of xs)] collecting one value per turn. *)
Fixpoint for_each {A B} (xs : list A) (body : A -> Proc B) : Proc (list B) :=
  match xs with
  | [] => ret []
  | x :: rest => b <- body x ;; bs <- for_each rest body ;; ret (b :: bs)
  end.

(** The exit code of a finished run: the one given to [process.exit], 0
    when [main] returns. *)
Definition exit_code {A} (r : option (status A * list event)) : option nat :=
  match r with
  | None => None
  | Some (Exited code, _) => Some code
  | Some (Running _, _) => Some 0
  end.

Definition trace_of {A} (r : option (status A * list event)) : list event :=
  match r with
  | None => []
  | Some (_, t) => t
  end.

(* ================================================================= *)
(** ** testString *)

Definition testString (engine : Engine) (fuel : nat) (pat flgs inp : string)
  : Proc MatchResult :=
  match engine pat flgs with
  | inr msg =>
      console_error (c.red ++ "Invalid regex:" ++ c.reset ++ " " ++ msg) ;;
      process_exit 1
  | inl regex =>
      ms <- bounded (collect regex fuel flgs inp) ;;
      ret {| input := inp; matches := ms;
             highlighted := build_highlighted inp ms |}
  end.

(* ================================================================= *)
(** ** Rendering *)

Definition nl : string := String (ascii_of_nat 10) EmptyString.

(** A number interpolated in a template literal. *)
Definition dec (n : nat) : string := NilEmpty.string_of_uint (Nat.to_uint n).

(** The lines [renderResult] prints for the groups of one match. *)
Fixpoint capture_lines (gs : list (option string)) (g : nat) : list string :=
  match gs with
  | [] => []
  | v :: rest =>
      ("      " ++ c.dim ++ "$" ++ dec (g + 1) ++ ":" ++ c.reset ++ " "
       ++ c.yellow ++ match v with Some s => s | None => "(undefined)" end
       ++ c.reset)
      :: capture_lines rest (g + 1)
  end.

(** One line per key of [namedGroups]; the keys of the object are distinct,
    so [m.namedGroups[key]] is the value listed with the key. *)
Definition named_lines (ng : list (string * option string)) : list string :=
  map (fun kv =>
         "      " ++ c.dim ++ fst kv ++ ":" ++ c.reset ++ " "
         ++ c.green ++ JS.tpl (snd kv) ++ c.reset) ng.

Fixpoint match_lines (ms : list MatchRecord) (i : nat) : list string :=
  match ms with
  | [] => []
  | m :: rest =>
      let color := match_color i in
      let head :=
        nl ++ "  " ++ color ++ " Match " ++ dec (i + 1) ++ " " ++ c.reset
        ++ " " ++ dq ++ c.bold ++ full m ++ c.reset ++ dq ++ " at index "
        ++ dec (index m) in
      let captures :=
        if (0 <? List.length (groups m))%nat
        then ("    " ++ c.cyan ++ "Capture groups:" ++ c.reset)
             :: capture_lines (groups m) 0
        else [] in
      let named :=
        if (0 <? List.length (namedGroups m))%nat
        then ("    " ++ c.magenta ++ "Named groups:" ++ c.reset)
             :: named_lines (namedGroups m)
        else [] in
      head :: app captures (app named (match_lines rest (i + 1)))
  end.

Definition render_lines (result : MatchResult) : list string :=
  let matchCount := List.length (matches result) in
  let icon := if (0 <? matchCount)%nat then c.green ++ "✓" ++ c.reset
              else c.red ++ "✗" ++ c.reset in
  [ nl ++ "  " ++ icon ++ " " ++ c.bold ++ dec matchCount ++ c.reset
    ++ " match" ++ (if (matchCount =? 1)%nat then EmptyString else "es")
    ++ " found";
    "  " ++ c.dim ++ "Input:" ++ c.reset ++ "   " ++ input result;
    "  " ++ c.dim ++ "Result:" ++ c.reset ++ "  " ++ highlighted result ]
  ++ match_lines (matches result) 0.

Definition renderResult (result : MatchResult) : Proc unit :=
  log_all (render_lines result).

(** [s.padEnd(n)]. *)
Fixpoint spaces (n : nat) : string :=
  match n with 0 => EmptyString | S k => String " " (spaces k) end.
Definition padEnd (s : string) (n : nat) : string :=
  s ++ spaces (n - String.length s).

(** The lines of the breakdown printed in explain mode. *)
Definition explain_lines (pat : string) (parts : list ExplainPart)
  : list string :=
  [ nl ++ c.bold ++ c.cyan ++ "  Regex Breakdown" ++ c.reset;
    "  " ++ c.dim ++ "Pattern:" ++ c.reset ++ " " ++ c.yellow ++ "/"
    ++ pat ++ "/" ++ c.reset ++ nl ]
  ++ map (fun part =>
            "  " ++ c.bold ++ c.green ++ padEnd (token part) 15 ++ c.reset
            ++ " " ++ c.dim ++ meaning part ++ c.reset) parts
  ++ [EmptyString].

(* ================================================================= *)
(** ** JSON.stringify *)

Inductive jsval :=
| VUndefined
| VNumber (n : nat)
| VString (s : string)
| VArray (items : list jsval)
| VObject (props : list (string * jsval)).

Definition hex_digit (n : nat) : ascii :=
  nth n (list_ascii_of_string "0123456789abcdef") "0"%char.

(** The code unit [ch] inside a quoted JSON string. *)
Definition quote_char (ch : ascii) : string :=
  let n := nat_of_ascii ch in
  if (n =? 8)%nat then bs ++ "b"
  else if (n =? 9)%nat then bs ++ "t"
  else if (n =? 10)%nat then bs ++ "n"
  else if (n =? 12)%nat then bs ++ "f"
  else if (n =? 13)%nat then bs ++ "r"
  else if (n =? 34)%nat then bs ++ dq
  else if (n =? 92)%nat then bs ++ bs
  else if (n <? 32)%nat then
    bs ++ "u00" ++ String (hex_digit (n / 16))
                     (String (hex_digit (n mod 16)) EmptyString)
  else String ch EmptyString.

Fixpoint quote_body (s : string) : string :=
  match s with
  | EmptyString => EmptyString
  | String ch s' => quote_char ch ++ quote_body s'
  end.

Definition QuoteJSONString (s : string) : string := dq ++ quote_body s ++ dq.

Section Stringify.
Variable gap : string.

(** The text of an array or object from the texts of its members. *)
Definition wrap (opening closing indent : string) (partial : list string)
  : string :=
  match partial with
  | [] => opening ++ closing
  | _ =>
      if gap =? EmptyString then
        opening ++ String.concat "," partial ++ closing
      else
        opening ++ nl ++ indent ++ gap
        ++ String.concat ("," ++ nl ++ indent ++ gap) partial
        ++ nl ++ indent ++ closing
  end.

Definition colon : string :=
  if gap =? EmptyString then ":" else ": ".

(** [SerializeJSONProperty]: [None] is [undefined].  An undefined array
    element is written [null]; an undefined property is left out. *)
Fixpoint SerializeJSONProperty (indent : string) (v : jsval)
  : option string :=
  match v with
  | VUndefined => None
  | VNumber n => Some (dec n)
  | VString s => Some (QuoteJSONString s)
  | VArray items =>
      Some (wrap "[" "]" indent
              (map (fun x =>
                      match SerializeJSONProperty (indent ++ gap) x with
                      | Some s => s
                      | None => "null"
                      end) items))
  | VObject props =>
      Some (wrap "{" "}" indent
              ((fix members (l : list (string * jsval)) : list string :=
                  match l with
                  | [] => []
                  | (k, x) :: rest =>
                      match SerializeJSONProperty (indent ++ gap) x with
                      | Some s =>
                          (QuoteJSONString k ++ colon ++ s) :: members rest
                      | None => members rest
                      end
                  end) props))
  end.
End Stringify.

(** [JSON.stringify(v, null, space)] for a numeric [space]. *)
Definition JSON_stringify (v : jsval) (space : nat) : option string :=
  SerializeJSONProperty (spaces (Nat.min 10 space)) EmptyString v.

(** The objects built for the structured output. *)
Module JsonOut.
Record entry := {
  input : string;
  matchCount : nat;
  matches : list MatchRecord
}.
End JsonOut.

Definition jsonOut (allResults : list MatchResult) : list JsonOut.entry :=
  map (fun r => {| JsonOut.input := input r;
                   JsonOut.matchCount := List.length (matches r);
                   JsonOut.matches := matches r |}) allResults.

(** The program's objects as JavaScript values, properties in creation
    order. *)
Definition val_of_opt (o : option string) : jsval :=
  match o with Some s => VString s | None => VUndefined end.

Definition val_of_match (m : MatchRecord) : jsval :=
  VObject [ ("full", VString (full m));
            ("index", VNumber (index m));
            ("groups", VArray (map val_of_opt (groups m)));
            ("namedGroups",
             VObject (map (fun kv => (fst kv, val_of_opt (snd kv)))
                        (namedGroups m))) ].

Definition val_of_entry (e : JsonOut.entry) : jsval :=
  VObject [ ("input", VString (JsonOut.input e));
            ("matchCount", VNumber (JsonOut.matchCount e));
            ("matches", VArray (map val_of_match (JsonOut.matches e))) ].

Definition val_of_jsonOut (es : list JsonOut.entry) : jsval :=
  VArray (map val_of_entry es).

(** The text printed in structured mode. *)
Definition json_document (allResults : list MatchResult) : string :=
  JS.tpl (JSON_stringify (val_of_jsonOut (jsonOut allResults)) 2).

(* ================================================================= *)
(** ** Help text *)

Definition q (s : string) : string := dq ++ s ++ dq.

Definition HELP : string :=
  String.concat nl
    [ EmptyString;
      c.bold ++ c.cyan ++ "  regex-test" ++ c.reset
      ++ "  Test regex patterns from the terminal";
      EmptyString;
      c.bold ++ "USAGE" ++ c.reset;
      "  " ++ c.green ++ "npx @lxgicstudios/regex-test" ++ c.reset
      ++ " <pattern> <string> [string...] [options]";
      EmptyString;
      c.bold ++ "OPTIONS" ++ c.reset;
      "  " ++ c.yellow ++ "--help, -h" ++ c.reset
      ++ "       Show this help message";
      "  " ++ c.yellow ++ "--json" ++ c.reset
      ++ "           Output results as JSON";
      "  " ++ c.yellow ++ "--flags <f>" ++ c.reset
      ++ "      Regex flags (default: " ++ q "g" ++ "). e.g., " ++ q "gi"
      ++ ", " ++ q "gm";
      "  " ++ c.yellow ++ "--bulk <file>" ++ c.reset
      ++ "    Test pattern against each line in a file";
      "  " ++ c.yellow ++ "--explain" ++ c.reset
      ++ "        Break down the regex pattern in plain English";
      EmptyString;
      c.bold ++ "EXAMPLES" ++ c.reset;
      "  " ++ c.dim ++ "$ regex-test " ++ q (bs ++ "d+") ++ " "
      ++ q "abc123def456" ++ c.reset;
      "  " ++ c.dim ++ "$ regex-test "
      ++ q ("(" ++ bs ++ "w+)@(" ++ bs ++ "w+)") ++ " " ++ q "user@host"
      ++ " --flags gi" ++ c.reset;
      "  " ++ c.dim ++ "$ regex-test "
      ++ q ("(?<year>" ++ bs ++ "d{4})-(?<month>" ++ bs ++ "d{2})") ++ " "
      ++ q "2025-01-15" ++ c.reset;
      "  " ++ c.dim ++ "$ regex-test " ++ q "error|warn"
      ++ " --bulk /var/log/app.log --flags gi" ++ c.reset;
      "  " ++ c.dim ++ "$ regex-test "
      ++ q ("^" ++ bs ++ "d{3}-" ++ bs ++ "d{4}$") ++ " --explain" ++ c.reset;
      EmptyString ].

(* ================================================================= *)
(** ** main *)

(** [readFileSync(path, "utf-8")]: the content, or the message of the
    error thrown. *)
Definition FileSystem : Type := string -> string + string.

(** An optional string in boolean position. *)
Definition bulk_given (b : option string) : bool :=
  match b with Some f => JS.truthy f | None => false end.

(** The explain block of [main]. *)
Definition explain_mode (opts : Options) : Proc unit :=
  if explain opts then
    parts <- bounded (explainRegex (pattern opts)) ;;
    log_all (explain_lines (pattern opts) parts) ;;
    if (List.length (strings opts) =? 0)%nat && negb (bulk_given (bulk opts))
    then process_exit 0
    else ret tt
  else ret tt.

(** The bulk block of [main]: the strings to test. *)
Definition bulk_mode (fs : FileSystem) (opts : Options) : Proc (list string) :=
  match bulk opts with
  | Some file =>
      if JS.truthy file then
        match fs file with
        | inl content =>
            ret (filter JS.truthy (JS.split (ascii_of_nat 10) content))
        | inr msg =>
            console_error (c.red ++ "Error reading file:" ++ c.reset ++ " "
                           ++ msg) ;;
            process_exit 1
        end
      else ret (strings opts)
  | None => ret (strings opts)
  end.

Definition summary_line (allResults : list MatchResult) (n : nat) : string :=
  let matchedCount :=
    List.length
      (filter (fun r => (0 <? List.length (matches r))%nat) allResults) in
  nl ++ "  " ++ c.bold ++ "Summary:" ++ c.reset ++ " " ++ c.green
  ++ dec matchedCount ++ c.reset ++ "/" ++ dec n ++ " strings matched".

(** One turn of the loop of [main] over the strings to test. *)
Definition test_one (engine : Engine) (fuel : nat) (opts : Options)
  (str : string) : Proc MatchResult :=
  result <- testString engine fuel (pattern opts) (flags opts) str ;;
  (if json opts then ret tt else renderResult result) ;;
  ret result.

(** [main] from the banner on, with the strings to test. *)
Definition test_all (engine : Engine) (fuel : nat) (opts : Options)
  (strs : list string) : Proc unit :=
  console_log (nl ++ c.bold ++ c.cyan ++ "  regex-test" ++ c.reset) ;;
  console_log ("  " ++ c.dim ++ "Pattern:" ++ c.reset ++ " " ++ c.yellow
               ++ "/" ++ pattern opts ++ "/" ++ flags opts ++ c.reset) ;;
  allResults <- for_each strs (test_one engine fuel opts) ;;
  (if json opts then console_log (json_document allResults) else ret tt) ;;
  (if (1 <? List.length strs)%nat && negb (json opts)
   then console_log (summary_line allResults (List.length strs))
   else ret tt) ;;
  console_log EmptyString.

(** [main] after the arguments are parsed. *)
Definition run_options (engine : Engine) (fs : FileSystem) (fuel : nat)
  (opts : Options) : Proc unit :=
  if help opts then
    console_log HELP ;; process_exit 0
  else if negb (JS.truthy (pattern opts)) then
    console_error (c.red ++ "Error:" ++ c.reset
                   ++ " Please provide a regex pattern.") ;;
    console_error (c.dim ++ "Run with --help for usage info." ++ c.reset) ;;
    process_exit 1
  else
    explain_mode opts ;;
    strs <- bulk_mode fs opts ;;
    if (List.length strs =? 0)%nat then
      console_error (c.red ++ "Error:" ++ c.reset
                     ++ " Provide test strings as arguments or use --bulk <file>.") ;;
      process_exit 1
    else test_all engine fuel opts strs.

Definition main (engine : Engine) (fs : FileSystem) (fuel : nat)
  (argv : list string) : Proc unit :=
  opts <- bounded (parseArgs argv) ;;
  run_options engine fs fuel opts.

(* ================================================================= *)
(** ** Reference hosts and wordings used in the statements below *)

(** What ECMAScript guarantees of [exec] on a global expression without
    the [u] flag: a match starts at or after [lastIndex], is the text of
    the input at its [index], ends inside the input, and leaves
    [lastIndex] at its end; past the end of the input there is none. *)
Definition cursor_contract (regex : RegExp) (inp : string) : Prop :=
  (forall k m k',
      regex k inp = (Some m, k') ->
      k <= raw_index m
      /\ raw_full m
         = substring (raw_index m) (String.length (raw_full m)) inp
      /\ raw_index m + String.length (raw_full m) <= String.length inp
      /\ k' = raw_index m + String.length (raw_full m))
  /\ (forall k, String.length inp < k -> fst (regex k inp) = None).

(** The host on a one-character literal pattern such as [a], flags [g]. *)
Definition char_regex (ch : ascii) : RegExp :=
  fun lastIndex inp =>
    match JS.indexOf inp ch lastIndex with
    | Some k =>
        (Some {| raw_full := String ch EmptyString; raw_index := k;
                 raw_captures := []; raw_groups := None |},
         k + 1)
    | None => (None, 0)
    end.

(** The host on a pattern that matches only the empty string, such as
    [(?:)], flags [g]. *)
Definition empty_regex : RegExp :=
  fun lastIndex inp =>
    if (lastIndex <=? String.length inp)%nat then
      (Some {| raw_full := EmptyString; raw_index := lastIndex;
               raw_captures := []; raw_groups := None |},
       lastIndex)
    else (None, 0).

(** An input of two code units that are the two halves of one code point,
    such as U+1F600.  The 8-bit characters of [string] cannot spell it; the
    two characters below stand for the two units, and the host that follows
    is the one for this input. *)
Definition astral : string := "??".

(** The host on the same pattern with flags [gu] and the input [astral]:
    [exec] called with [lastIndex] 1, in the middle of the code point,
    starts at the code point that unit 1 belongs to, that is at 0
    (ECMAScript, RegExpBuiltinExec: the matcher starts at the character
    obtained from element [lastIndex]). *)
Definition empty_regex_u : RegExp :=
  fun lastIndex inp =>
    if (lastIndex <=? String.length inp)%nat then
      let start := if (lastIndex =? 1)%nat then 0 else lastIndex in
      (Some {| raw_full := EmptyString; raw_index := start;
               raw_captures := []; raw_groups := None |},
       start)
    else (None, 0).

(** The engine that compiles to it. *)
Definition unicode_engine : Engine := fun _ _ => inl empty_regex_u.

(** The host on [(?<a>x)|(?<b>y)], flags [g]: the first [x] or [y] from
    [lastIndex] on; the group of the other branch does not take part. *)
Fixpoint find_xy (s : string) (from pos : nat) : option (nat * bool) :=
  match s with
  | EmptyString => None
  | String d s' =>
      match from with
      | 0 =>
          if (d =? "x")%char then Some (pos, true)
          else if (d =? "y")%char then Some (pos, false)
          else find_xy s' 0 (pos + 1)
      | S f => find_xy s' f (pos + 1)
      end
  end.

Definition xy_regex : RegExp :=
  fun lastIndex inp =>
    match find_xy inp lastIndex 0 with
    | Some (k, true) =>
        (Some {| raw_full := "x"; raw_index := k;
                 raw_captures := [Some "x"; None];
                 raw_groups := Some [("a", Some "x"); ("b", None)] |},
         k + 1)
    | Some (k, false) =>
        (Some {| raw_full := "y"; raw_index := k;
                 raw_captures := [None; Some "y"];
                 raw_groups := Some [("a", None); ("b", Some "y")] |},
         k + 1)
    | None => (None, 0)
    end.

(** An engine that knows the patterns above, with the letters [a] and [n]
    for the literal, and rejects an unclosed parenthesis. *)
Definition sample_engine : Engine :=
  fun pat flgs =>
    if pat =? "(?<a>x)|(?<b>y)" then inl xy_regex
    else if pat =? "(?:)" then inl empty_regex
    else if pat =? "a" then inl (char_regex "a")
    else if pat =? "n" then inl (char_regex "n")
    else if pat =? "(" then
      inr "Invalid regular expression: /(/: Unterminated group"
    else inr "pattern outside the sample".

(** A file system with one file. *)
Definition sample_fs : FileSystem :=
  fun path =>
    if path =? "lines.txt" then inl ("axa" ++ nl ++ nl ++ "bbb" ++ nl)
    else inr ("ENOENT: no such file or directory, open '" ++ path ++ "'").

(** The highlighted text in pieces: text copied from the input, and the
    markers put around each match. *)
Inductive segment :=
| Text (s : string)
| Marker (s : string).

Fixpoint render_segments (segs : list segment) : string :=
  match segs with
  | [] => EmptyString
  | Text s :: rest => s ++ render_segments rest
  | Marker s :: rest => s ++ render_segments rest
  end.

Fixpoint erase_markers (segs : list segment) : string :=
  match segs with
  | [] => EmptyString
  | Text s :: rest => s ++ erase_markers rest
  | Marker _ :: rest => erase_markers rest
  end.

(** The wording of the highlight: the input up to each match, the match
    between the color of its ordinal and the reset, and the rest of the
    input. *)
Fixpoint highlight_segments (inp : string) (ms : list MatchRecord)
  (mi lastEnd : nat) : list segment :=
  match ms with
  | [] => [Text (JS.sliceFrom inp lastEnd)]
  | m :: rest =>
      Text (JS.slice inp lastEnd (index m))
      :: Marker (match_color mi ++ c.bold)
      :: Text (full m)
      :: Marker c.reset
      :: highlight_segments inp rest (mi + 1)
           (index m + String.length (full m))
  end.

(** The characters of a string all differ from [ESC]. *)
Fixpoint no_escape_char (s : string) : bool :=
  match s with
  | EmptyString => true
  | String ch s' => negb (ch =? ESC)%char && no_escape_char s'
  end.

(** [needle] occurs in [s]. *)
Fixpoint occurs (needle s : string) : bool :=
  prefix needle s
  || match s with
     | EmptyString => false
     | String _ s' => occurs needle s'
     end.

(** The state of the scan after [n] turns from [st]; it stays where the
    loop leaves. *)
Fixpoint run_turns (pat : string) (n : nat) (st : nat * list ExplainPart)
  : nat * list ExplainPart :=
  match n with
  | 0 => st
  | S k =>
      match explain_step pat st with
      | inl st' => run_turns pat k st'
      | inr _ => st
      end
  end.

(** The characters that open a branch of their own in the scan. *)
Definition metacharacters : list string :=
  ["^"; "$"; "."; "*"; "+"; "?"; "|"; bs; "["; "("; ")"; "{"].

Definition is_meta (ch : string) : bool :=
  existsb (String.eqb ch) metacharacters.

(** The part pushed for a backslash that ends the pattern. *)
Definition trailing_escape : ExplainPart :=
  {| token := bs; meaning := "Literal " ++ dq ++ dq |}.

(** The span property of one turn at [i]: the position moves forward and
    the token is the text of the pattern between the two positions. *)
Definition spans (pat : string) (i : nat) (r : ExplainPart * nat) : Prop :=
  i < snd r /\ token (fst r) = substring i (snd r - i) pat.

(** The options that [parseArgs] knows. *)
Definition known_options : list string :=
  ["--help"; "-h"; "--json"; "--explain"; "--flags"; "--bulk"].

Definition is_known_option (a : string) : bool :=
  existsb (String.eqb a) known_options.

(** No argument of [l] starts with a dash. *)
Definition no_dash (l : list string) : Prop :=
  Forall (fun s => JS.startsWith s "-" = false) l.

(** What the loop keeps true of the options: neither the pattern nor a
    test string starts with a dash; the flags and the bulk path are the
    defaults unless an option with a value set them. *)
Definition parse_invariant (argv : list string) (o : Options) : Prop :=
  JS.startsWith (pattern o) "-" = false
  /\ no_dash (strings o)
  /\ (flags o = "g"
      \/ exists j, j + 1 < List.length argv /\ argAt argv j = "--flags")
  /\ (bulk o = None
      \/ exists j, j + 1 < List.length argv /\ argAt argv j = "--bulk").

(** The matches [ms] are spans of the input in order: each starts at or
    after the end of the one before ([lastEnd] for the first), is the text
    of the input at its [index] and ends inside it; [finalEnd] is the end
    of the last one. *)
Fixpoint spans_from (inp : string) (lastEnd : nat) (ms : list MatchRecord)
  (finalEnd : nat) : Prop :=
  match ms with
  | [] => finalEnd = lastEnd
  | m :: rest =>
      lastEnd <= index m
      /\ full m = substring (index m) (String.length (full m)) inp
      /\ index m + String.length (full m) <= String.length inp
      /\ spans_from inp (index m + String.length (full m)) rest finalEnd
  end.

(** The record [rec] holds what the host returned in [m]. *)
Definition normalized (m : RawMatch) (rec : MatchRecord) : Prop :=
  full rec = raw_full m
  /\ index rec = raw_index m
  /\ groups rec = raw_captures m
  /\ namedGroups rec
     = match raw_groups m with Some g => g | None => [] end.

(** Explain mode with nothing to test. *)
Definition explain_only (o : Options) : bool :=
  explain o && (List.length (strings o) =? 0)%nat
  && negb (bulk_given (bulk o)).

(** The strings that [main] tests, or the message of a failed read. *)
Definition strings_to_test (fs : FileSystem) (o : Options)
  : list string + string :=
  match bulk o with
  | Some file =>
      if JS.truthy file then
        match fs file with
        | inl content =>
            inl (filter JS.truthy (JS.split (ascii_of_nat 10) content))
        | inr msg => inr msg
        end
      else inl (strings o)
  | None => inl (strings o)
  end.

(** The four ways a run without [--help] fails, in the order [main] meets
    them. *)
Inductive failure :=
| MissingPattern
| BulkReadFailure
| MissingStrings
| InvalidPattern.

Definition failure_of (engine : Engine) (fs : FileSystem) (o : Options)
  : option failure :=
  if negb (JS.truthy (pattern o)) then Some MissingPattern
  else if explain_only o then None
  else match strings_to_test fs o with
       | inr _ => Some BulkReadFailure
       | inl [] => Some MissingStrings
       | inl (_ :: _) =>
           match engine (pattern o) (flags o) with
           | inr _ => Some InvalidPattern
           | inl _ => None
           end
       end.

(** The length of the longest string of a list. *)
Definition max_length (l : list string) : nat :=
  fold_right (fun s n => Nat.max (String.length s) n) 0 l.

(** The two lines that [main] prints before it tests the strings. *)
Definition banner (opts : Options) : list event :=
  [ Out (nl ++ c.bold ++ c.cyan ++ "  regex-test" ++ c.reset);
    Out ("  " ++ c.dim ++ "Pattern:" ++ c.reset ++ " " ++ c.yellow
         ++ "/" ++ pattern opts ++ "/" ++ flags opts ++ c.reset) ].

(** The shape the structured output is said to have: an object per
    result with the keys [input], [matchCount] and [matches], and an object
    per match with the keys [full], [index], [groups] and [namedGroups]. *)
Definition match_shape (m : MatchRecord) : jsval :=
  VObject
    [ ("full", VString (full m));
      ("index", VNumber (index m));
      ("groups", VArray (map val_of_opt (groups m)));
      ("namedGroups",
       VObject (map (fun kv => (fst kv, val_of_opt (snd kv)))
                  (namedGroups m))) ].

Definition result_shape (r : MatchResult) : jsval :=
  VObject
    [ ("input", VString (input r));
      ("matchCount", VNumber (List.length (matches r)));
      ("matches", VArray (map match_shape (matches r))) ].

(** The text of one entry of the document, at a gap of two spaces. *)
Definition entry_text (r : MatchResult) (matches_text : string) : string :=
  "{" ++ nl ++ "    "
  ++ String.concat ("," ++ nl ++ "    ")
       [ q "input" ++ ": " ++ QuoteJSONString (input r);
         q "matchCount" ++ ": " ++ dec (List.length (matches r));
         q "matches" ++ ": " ++ matches_text ]
  ++ nl ++ "  " ++ "}".

(** ** Wordings used for the argument parser *)

(** What a positional argument [a] does to the options. *)
Definition positional (a : string) (o : Options) : Options :=
  if negb (JS.truthy (pattern o)) && negb (JS.startsWith a "-") then
    with_pattern a o
  else if JS.truthy (pattern o) && negb (JS.startsWith a "-") then
    push_string a o
  else o.

(** The argument loop as a scan of the list from the left: an option with
    a value takes the next argument with it. *)
Fixpoint parse_list (args : list string) (o : Options) : Options :=
  match args with
  | [] => o
  | a :: rest =>
      if (a =? "--help") || (a =? "-h") then parse_list rest (with_help o)
      else if a =? "--json" then parse_list rest (with_json o)
      else if a =? "--explain" then parse_list rest (with_explain o)
      else
        match rest with
        | v :: rest' =>
            if (a =? "--flags") && JS.truthy v then
              parse_list rest' (with_flags v o)
            else if (a =? "--bulk") && JS.truthy v then
              parse_list rest' (with_bulk v o)
            else parse_list rest (positional a o)
        | [] => parse_list rest (positional a o)
        end
  end.

(** The arguments that do not start with a dash. *)
Definition positionals (argv : list string) : list string :=
  filter (fun a => negb (JS.startsWith a "-")) argv.

(** A list of strings without its leading empty strings. *)
Fixpoint drop_empty (l : list string) : list string :=
  match l with
  | EmptyString :: rest => drop_empty rest
  | _ => l
  end.

Definition is_help_switch (a : string) : bool :=
  (a =? "--help") || (a =? "-h").

(** Where the fields of parsed options come from. *)
Definition parse_origin (argv : list string) (o : Options) : Prop :=
  (pattern o = EmptyString \/ In (pattern o) argv)
  /\ Forall (fun s => In s argv) (strings o)
  /\ (flags o = "g"
      \/ (flags o <> EmptyString
          /\ exists j, argAt argv j = "--flags"
                       /\ argAt argv (j + 1) = flags o))
  /\ (bulk o = None
      \/ exists v j, bulk o = Some v /\ v <> EmptyString
                     /\ argAt argv j = "--bulk" /\ argAt argv (j + 1) = v)
  /\ (help o = true -> In "--help" argv \/ In "-h" argv)
  /\ (json o = true -> In "--json" argv)
  /\ (explain o = true -> In "--explain" argv).

(** ** Wordings used for the explainer *)

(** One literal part per character. *)
Fixpoint literal_parts (s : string) : list ExplainPart :=
  match s with
  | EmptyString => []
  | String ch s' => literal (String ch EmptyString) :: literal_parts s'
  end.

(** No character of [s] opens a branch of its own. *)
Fixpoint no_meta (s : string) : bool :=
  match s with
  | EmptyString => true
  | String ch s' => negb (is_meta (String ch EmptyString)) && no_meta s'
  end.

(** The part for a character class with the text [cls]. *)
Definition class_part (negated : bool) (cls : string) : ExplainPart :=
  {| token := cls;
     meaning := if negated then "Any character NOT in " ++ cls
                else "Any character in " ++ cls |}.

(** The part for a named group. *)
Definition named_part (name : string) : ExplainPart :=
  {| token := "(?<" ++ name ++ ">";
     meaning := "Named capture group " ++ dq ++ name ++ dq ++ " start" |}.

(** The part for a backslash followed by [ch]. *)
Definition escape_part (ch : ascii) : ExplainPart :=
  {| token := bs ++ String ch EmptyString;
     meaning := match lookup (String ch EmptyString) escapes with
                | Some m => m
                | None => "Literal " ++ dq ++ String ch EmptyString ++ dq
                end |}.

(** The parts for an opening parenthesis, a question mark and a
    less-than sign read one by one. *)
Definition capture_start : ExplainPart :=
  {| token := "("; meaning := "Capture group start" |}.

Definition optional_part : ExplainPart :=
  {| token := "?"; meaning := "Zero or one of the previous (optional)" |}.

(** The matches [ms] come one after the other: each starts at or after
    [lo], and the next one after it starts past its start and at or after
    its end; [hi] bounds the last one in the same way. *)
Fixpoint ascending_from (lo : nat) (ms : list MatchRecord) (hi : nat) : Prop :=
  match ms with
  | [] => lo <= hi
  | m :: rest =>
      lo <= index m
      /\ ascending_from
           (Nat.max (S (index m)) (index m + String.length (full m))) rest hi
  end.

(** ** Wordings used for the output of a run *)

(** Nothing in [t] was written with [console.error]. *)
Definition quiet (t : list event) : bool :=
  forallb (fun e => match e with Out _ => true | Err _ => false end) t.

(** How a computation of the program reports: while it runs, and when it
    exits with 0, nothing was written with [console.error]; when it exits
    with another code, the code is 1 and the last lines written, at least
    one, are the only ones written with [console.error]. *)
Definition well_reported {A} (r : option (status A * list event)) : Prop :=
  match r with
  | None => True
  | Some (Running _, t) => quiet t = true
  | Some (Exited code, t) =>
      (code = 0 /\ quiet t = true)
      \/ (code = 1
          /\ exists t0 errs,
               t = (t0 ++ map Err errs)%list
               /\ quiet t0 = true /\ errs <> [])
  end.

(** [m] reports well from every trace without a [console.error] line. *)
Definition reports {A} (m : Proc A) : Prop :=
  forall t, quiet t = true -> well_reported (m t).

(** The options with other positional test strings, and without
    [--explain]. *)
Definition with_strings (l : list string) (o : Options) : Options :=
  {| help := help o; json := json o; pattern := pattern o;
     strings := l; flags := flags o; bulk := bulk o;
     explain := explain o |}.

Definition without_explain (o : Options) : Options :=
  {| help := help o; json := json o; pattern := pattern o;
     strings := strings o; flags := flags o; bulk := bulk o;
     explain := false |}.

(** [s] with every occurrence of [ch] taken out. *)
Fixpoint without (ch : ascii) (s : string) : string :=
  match s with
  | EmptyString => EmptyString
  | String d s' =>
      if (d =? ch)%char then without ch s' else String d (without ch s')
  end.

(** The result that [testString] builds for the input [str]. *)
Definition result_for (regex : RegExp) (fuel : nat) (flgs : string)
  (str : string) (r : MatchResult) : Prop :=
  exists ms,
    collect regex fuel flgs str = Some ms
    /\ r = {| input := str; matches := ms;
              highlighted := build_highlighted str ms |}.

(** The lines of [renderResult] for each result in turn. *)
Definition rendered (rs : list MatchResult) : list event :=
  flat_map (fun r => map Out (render_lines r)) rs.

(** The number of results with at least one match. *)
Definition matched_count (rs : list MatchResult) : nat :=
  List.length (filter (fun r => (0 <? List.length (matches r))%nat) rs).

(** The number of lines that [renderResult] prints for one match: its
    head line, and for its groups and for its named groups, when there are
    any, a title line and one line each. *)
Definition lines_of_match (m : MatchRecord) : nat :=
  1
  + (if (0 <? List.length (groups m))%nat
     then 1 + List.length (groups m) else 0)
  + (if (0 <? List.length (namedGroups m))%nat
     then 1 + List.length (namedGroups m) else 0).

(** The lines written with [console.error] for each way of failing; the
    message of the host is part of two of them. *)
Definition failure_lines (engine : Engine) (fs : FileSystem) (o : Options)
  (f : failure) : list string :=
  match f with
  | MissingPattern =>
      [ c.red ++ "Error:" ++ c.reset ++ " Please provide a regex pattern.";
        c.dim ++ "Run with --help for usage info." ++ c.reset ]
  | BulkReadFailure =>
      match strings_to_test fs o with
      | inr msg => [c.red ++ "Error reading file:" ++ c.reset ++ " " ++ msg]
      | inl _ => []
      end
  | MissingStrings =>
      [ c.red ++ "Error:" ++ c.reset
        ++ " Provide test strings as arguments or use --bulk <file>." ]
  | InvalidPattern =>
      match engine (pattern o) (flags o) with
      | inr msg => [c.red ++ "Invalid regex:" ++ c.reset ++ " " ++ msg]
      | inl _ => []
      end
  end.

(** What a failing run has printed before its error lines: nothing when
    the pattern is missing; otherwise the breakdown when [--explain] is
    given, and the banner when the host rejects the pattern. *)
Definition before_failure (o : Options) (parts : list ExplainPart)
  (f : failure) : list event :=
  let explained :=
    if explain o then map Out (explain_lines (pattern o) parts) else [] in
  match f with
  | MissingPattern => []
  | InvalidPattern => (explained ++ banner o)%list
  | _ => explained
  end.

(* ================================================================= *)
(** * Properties *)

(** ** Strings *)

Lemma substring_empty n m : substring n m EmptyString = EmptyString.
Proof. destruct n, m; reflexivity. Qed.

Lemma substring_zero n s : substring n 0 s = EmptyString.
Proof.
  revert n; induction s as [|ch s IH]; intros [|n]; simpl; auto.
Qed.

Lemma substring_join s : forall a n m,
  substring a n s ++ substring (a + n) m s = substring a (n + m) s.
Proof.
  induction s as [|ch s IH]; intros a n m.
  - now rewrite !substring_empty.
  - destruct a as [|a].
    + destruct n as [|n]; simpl.
      * reflexivity.
      * now rewrite <- (IH 0 n m).
    + simpl. apply IH.
Qed.

Lemma substring_all s : forall n,
  String.length s <= n -> substring 0 n s = s.
Proof.
  induction s as [|ch s IH]; intros n H.
  - apply substring_empty.
  - destruct n as [|n]; simpl in *; [lia|]. f_equal. apply IH. lia.
Qed.

Lemma substring_beyond s : forall a n,
  String.length s <= a -> substring a n s = EmptyString.
Proof.
  induction s as [|ch s IH]; intros a n H.
  - apply substring_empty.
  - destruct a as [|a]; simpl in *; [lia|]. apply IH. lia.
Qed.

Lemma append_assoc (s t u : string) : (s ++ t) ++ u = s ++ (t ++ u).
Proof. induction s as [|ch s IH]; simpl; congruence. Qed.

Lemma append_empty_r (s : string) : s ++ EmptyString = s.
Proof. induction s as [|ch s IH]; simpl; congruence. Qed.

Lemma charAt_beyond s i :
  String.length s <= i -> JS.charAt s i = EmptyString.
Proof. intros H. now apply substring_beyond. Qed.

(** ** [indexOf] *)

Lemma indexOf_found s c : forall from k,
  JS.indexOf s c from = Some k ->
  from <= k < String.length s /\ JS.charAt s k = String c EmptyString.
Proof.
  unfold JS.charAt.
  induction s as [|d s IH]; intros from k H; simpl in H; [discriminate|].
  destruct from as [|f].
  - destruct (Ascii.eqb_spec d c) as [->|Hne].
    + inversion H; subst. simpl. split; [lia|].
      now rewrite substring_zero.
    + destruct (JS.indexOf s c 0) as [j|] eqn:E; [|discriminate].
      inversion H; subst. destruct (IH 0 j E) as [Hj Hc].
      simpl. split; [lia | exact Hc].
  - destruct (JS.indexOf s c f) as [j|] eqn:E; [|discriminate].
    inversion H; subst. destruct (IH f j E) as [Hj Hc].
    simpl. split; [lia | exact Hc].
Qed.

Lemma indexOf_first s c : forall from k j,
  JS.indexOf s c from = Some k -> from <= j < k ->
  JS.charAt s j <> String c EmptyString.
Proof.
  unfold JS.charAt.
  induction s as [|d s IH]; intros from k j H Hj; simpl in H; [discriminate|].
  destruct from as [|f].
  - destruct (Ascii.eqb_spec d c) as [->|Hne].
    + inversion H; subst. lia.
    + destruct (JS.indexOf s c 0) as [k'|] eqn:E; [|discriminate].
      inversion H; subst. destruct j as [|j].
      * simpl. rewrite substring_zero. congruence.
      * simpl. apply (IH 0 k' j E). lia.
  - destruct (JS.indexOf s c f) as [k'|] eqn:E; [|discriminate].
    inversion H; subst. destruct j as [|j]; [lia|].
    simpl. apply (IH f k' j E). lia.
Qed.

Lemma indexOf_none s c : forall from j,
  JS.indexOf s c from = None -> from <= j ->
  JS.charAt s j <> String c EmptyString.
Proof.
  unfold JS.charAt.
  induction s as [|d s IH]; intros from j H Hj.
  - rewrite substring_empty. discriminate.
  - simpl in H. destruct from as [|f].
    + destruct (Ascii.eqb_spec d c) as [->|Hne]; [discriminate|].
      destruct (JS.indexOf s c 0) eqn:E; [discriminate|].
      destruct j as [|j]; simpl.
      * rewrite substring_zero. congruence.
      * apply (IH 0 j E). lia.
    + destruct (JS.indexOf s c f) eqn:E; [discriminate|].
      destruct j as [|j]; [lia|]. simpl. apply (IH f j E). lia.
Qed.

(** ** Loops *)

Section LoopFacts.
Variables St Res : Type.
Variable step : St -> St + Res.

(** A property kept by every turn holds when the loop leaves. *)
Lemma iterate_invariant (Inv : St -> Prop) (Post : Res -> Prop) :
  (forall s s', Inv s -> step s = inl s' -> Inv s') ->
  (forall s r, Inv s -> step s = inr r -> Post r) ->
  forall fuel s r, Inv s -> iterate step fuel s = Some r -> Post r.
Proof.
  intros Hkeep Hexit fuel.
  induction fuel as [|fuel IH]; intros s r HI H; simpl in H;
    destruct (step s) as [s'|r'] eqn:E.
  - discriminate.
  - inversion H; subst. eauto.
  - eauto.
  - inversion H; subst. eauto.
Qed.

(** A measure that every turn decreases, under an invariant, bounds the
    number of turns. *)
Lemma iterate_terminates (Inv : St -> Prop) (mu : St -> nat) :
  (forall s s', Inv s -> step s = inl s' -> Inv s' /\ mu s' < mu s) ->
  forall fuel s, Inv s -> mu s <= fuel ->
                 exists r, iterate step fuel s = Some r.
Proof.
  intros Hdec fuel.
  induction fuel as [|fuel IH]; intros s HI Hmu; simpl;
    destruct (step s) as [s'|r'] eqn:E; eauto.
  - destruct (Hdec s s' HI E). lia.
  - destruct (Hdec s s' HI E). apply IH; [assumption | lia].
Qed.

(** More turns allowed do not change a result. *)
Lemma iterate_more fuel : forall fuel' s r,
  iterate step fuel s = Some r -> fuel <= fuel' ->
  iterate step fuel' s = Some r.
Proof.
  induction fuel as [|fuel IH]; intros fuel' s r H Hle; simpl in H;
    destruct (step s) as [s'|r'] eqn:E; try discriminate.
  - destruct fuel'; simpl; now rewrite E.
  - destruct fuel' as [|fuel']; [lia|]. simpl. rewrite E.
    apply IH; [assumption | lia].
  - destruct fuel'; simpl; now rewrite E.
Qed.
End LoopFacts.

(** ** The explainer: every turn emits the text it steps over *)

Lemma spans_one pat i lit m :
  JS.charAt pat i = lit ->
  spans pat i ({| token := lit; meaning := m |}, i + 1).
Proof.
  intros H. split; simpl; [lia|].
  replace (i + 1 - i) with 1 by lia. now rewrite <- H.
Qed.

Lemma explain_escape_spans pat i :
  JS.charAt pat i = bs -> spans pat i (explain_escape pat i).
Proof.
  intros H. unfold explain_escape.
  assert (E : bs ++ JS.charAt pat (i + 1) = substring i (i + 2 - i) pat).
  { replace (i + 2 - i) with (1 + 1) by lia.
    rewrite <- substring_join. now rewrite <- H. }
  destruct (lookup _ escapes); split; simpl; try lia; exact E.
Qed.

Lemma explain_class_spans pat i :
  i < String.length pat -> spans pat i (explain_class pat i).
Proof.
  intros Hi. unfold explain_class, spans, JS.slice. simpl.
  destruct (JS.indexOf pat "]" i) as [e|] eqn:E.
  - apply indexOf_found in E. split; [lia | reflexivity].
  - split; [lia | reflexivity].
Qed.

Lemma slice_prefix pat i n lit :
  (JS.slice pat i (i + n) =? lit) = true -> lit = substring i n pat.
Proof.
  intros H. apply String.eqb_eq in H. unfold JS.slice in H.
  now replace (i + n - i) with n in H by lia.
Qed.

Lemma spans_prefix pat i n lit m :
  0 < n -> (JS.slice pat i (i + n) =? lit) = true ->
  spans pat i ({| token := lit; meaning := m |}, i + n).
Proof.
  intros Hn H. split; simpl; [lia|].
  replace (i + n - i) with n by lia. now apply slice_prefix with (n := n).
Qed.

Lemma explain_group_spans pat i :
  JS.charAt pat i = "(" -> spans pat i (explain_group pat i).
Proof.
  intros Hch. unfold explain_group.
  destruct (_ =? "(?:") eqn:E1; [apply spans_prefix; [lia | exact E1]|].
  destruct (_ =? "(?<=") eqn:E2; [apply spans_prefix; [lia | exact E2]|].
  destruct (_ =? "(?<!") eqn:E3; [apply spans_prefix; [lia | exact E3]|].
  destruct (_ =? "(?=") eqn:E4; [apply spans_prefix; [lia | exact E4]|].
  destruct (_ =? "(?!") eqn:E5; [apply spans_prefix; [lia | exact E5]|].
  destruct (_ && _) eqn:E6; [|now apply spans_one].
  apply andb_true_iff in E6. destruct E6 as [Hq Hlt].
  apply String.eqb_eq in Hq, Hlt.
  destruct (JS.indexOf pat ">" (i + 3)) as [nameEnd|] eqn:E;
    [|now apply spans_one].
  apply indexOf_found in E. destruct E as [Hrange Hgt].
  split; simpl; [lia|].
  unfold JS.slice, JS.charAt in *.
  replace (nameEnd + 1 - i) with (1 + (1 + (1 + ((nameEnd - (i + 3)) + 1))))
    by lia.
  rewrite <- !substring_join.
  replace (i + 1 + 1) with (i + 2) by lia.
  replace (i + 2 + 1) with (i + 3) by lia.
  replace (i + 3 + (nameEnd - (i + 3))) with nameEnd by lia.
  now rewrite Hch, Hq, Hlt, Hgt.
Qed.

Lemma explain_quant_spans pat i :
  i < String.length pat -> spans pat i (explain_quant pat i).
Proof.
  intros Hi. unfold explain_quant.
  destruct (JS.indexOf pat "}" i) as [e|] eqn:E.
  - apply indexOf_found in E. split; simpl; [lia | reflexivity].
  - now apply spans_one.
Qed.

Lemma explain_body_spans pat i :
  i < String.length pat -> spans pat i (explain_body pat i).
Proof.
  intros Hi. unfold explain_body.
  repeat match goal with
         | |- spans _ _ (if ?b then _ else _) =>
             let E := fresh "E" in
             destruct b eqn:E;
             [apply String.eqb_eq in E;
              first [ now apply spans_one
                    | now apply explain_escape_spans
                    | now apply explain_class_spans
                    | now apply explain_group_spans
                    | now apply explain_quant_spans ]|]
         end.
  now apply spans_one.
Qed.

Lemma tokens_app parts part :
  tokens (parts ++ [part]) = tokens parts ++ token part.
Proof.
  induction parts as [|p parts IH]; simpl.
  - now rewrite append_empty_r.
  - now rewrite IH, append_assoc.
Qed.

(** The scan of a pattern ends, within as many turns as it has
    characters. *)
Lemma explainRegex_total pat : exists parts, explainRegex pat = Some parts.
Proof.
  unfold explainRegex.
  apply iterate_terminates
    with (Inv := fun _ => True) (mu := fun st => String.length pat - fst st);
    [|exact I|simpl; lia].
  intros [i parts] s' _ H. unfold explain_step in H.
  destruct (Nat.ltb_spec i (String.length pat)) as [Hi|Hi]; [|discriminate].
  destruct (explain_body_spans pat Hi) as [Hlt _].
  destruct (explain_body pat i) as [part i']. inversion H; subst.
  simpl in *. split; [exact I | lia].
Qed.

(** The tokens pushed up to position [i] spell the pattern up to [i]. *)
Lemma explain_loop_tokens pat fuel st parts :
  tokens (snd st) = substring 0 (fst st) pat ->
  iterate (explain_step pat) fuel st = Some parts ->
  tokens parts = pat.
Proof.
  intros Hinv H.
  apply iterate_invariant
    with (Inv := fun st => tokens (snd st) = substring 0 (fst st) pat)
         (Post := fun parts => tokens parts = pat) in H; auto.
  - intros [i ps] s' HI Hs. unfold explain_step in Hs.
    destruct (Nat.ltb_spec i (String.length pat)) as [Hi|Hi]; [|discriminate].
    destruct (explain_body_spans pat Hi) as [Hlt Htok].
    destruct (explain_body pat i) as [part i']. inversion Hs; subst.
    simpl in *. rewrite tokens_app, HI, Htok.
    pose proof (substring_join pat 0 i (i' - i)) as J. simpl in J.
    rewrite J. f_equal. lia.
  - intros [i ps] r HI Hs. unfold explain_step in Hs.
    destruct (Nat.ltb_spec i (String.length pat)) as [Hi|Hi].
    + destruct (explain_body pat i); discriminate.
    + inversion Hs; subst. simpl in HI. rewrite HI.
      now apply substring_all.
Qed.

(** ** The explainer: claims *)

(** The tokens of what the scan returns spell the pattern. *)
Lemma explainRegex_tokens pat parts :
  explainRegex pat = Some parts -> tokens parts = pat.
Proof.
  unfold explainRegex. intros H.
  apply explain_loop_tokens with (fuel := String.length pat) (st := (0, []));
    [simpl; now rewrite substring_zero | exact H].
Qed.

(** C1. For every pattern the scan returns, and the [token] fields of the
    parts it returns, concatenated in order, are the pattern itself: the
    spans of the tokens cover it from left to right without gap or
    overlap. *)
Theorem explainRegex_tokens_reconstruct (pat : string) :
  exists parts, explainRegex pat = Some parts /\ tokens parts = pat.
Proof.
  destruct (explainRegex_total pat) as [parts H].
  exists parts. split; [exact H|]. now apply explainRegex_tokens.
Qed.

Lemma explain_body_literal pat i :
  is_meta (JS.charAt pat i) = false ->
  explain_body pat i = (literal (JS.charAt pat i), i + 1).
Proof.
  unfold is_meta, metacharacters, explain_body. simpl.
  intros H. repeat (apply orb_false_iff in H; destruct H as [?E H]).
  now rewrite E, E0, E1, E2, E3, E4, E5, E6, E7, E8, E9, E10.
Qed.

(** C3. The scan of any string ends with a list of parts: every turn taken
    inside the pattern moves the position forward by at least one, so the
    number of turns is at most the length of the pattern and allowing more
    turns changes nothing; a character that opens no branch of its own
    becomes a literal part of one character. *)
Theorem explainRegex_terminates (pat : string) :
  (exists parts, explainRegex pat = Some parts)
  /\ (forall i, i < String.length pat -> i < snd (explain_body pat i))
  /\ (forall fuel, String.length pat <= fuel ->
        iterate (explain_step pat) fuel (0, []) = explainRegex pat)
  /\ (forall i, i < String.length pat ->
        is_meta (JS.charAt pat i) = false ->
        explain_body pat i = (literal (JS.charAt pat i), i + 1)).
Proof.
  repeat split.
  - apply explainRegex_total.
  - intros i Hi. now destruct (explain_body_spans pat Hi).
  - intros fuel Hf. destruct (explainRegex_total pat) as [parts H].
    rewrite H. now apply iterate_more with (fuel := String.length pat).
  - intros i _ H. now apply explain_body_literal.
Qed.

Lemma explainRegex_terminates_witness :
  (exists parts, explainRegex "a]{" = Some parts)
  /\ 2 < snd (explain_body "a]{" 2)
  /\ iterate (explain_step "a]{") 7 (0, []) = explainRegex "a]{"
  /\ explain_body "a]{" 1 = (literal "]", 2).
Proof.
  destruct (explainRegex_terminates "a]{") as (H1 & H2 & H3 & H4).
  split; [exact H1|]. split; [apply H2; simpl; lia|].
  split; [apply H3; simpl; lia|].
  apply (H4 1); [simpl; lia | reflexivity].
Defined.

Lemma run_turns_iterate pat n : forall st fuel r,
  iterate (explain_step pat) fuel (run_turns pat n st) = Some r ->
  iterate (explain_step pat) (n + fuel) st = Some r.
Proof.
  induction n as [|n IH]; intros st fuel r H; simpl in *; [exact H|].
  destruct (explain_step pat st) as [st'|r'] eqn:E.
  - now apply IH.
  - destruct fuel; simpl in H; rewrite E in H; exact H.
Qed.

(** C10, as the code has it. When the scan arrives at a backslash that is
    the last character of the pattern (after some number of turns the
    position is the last index, so the backslash is neither escaped by a
    backslash before it nor swallowed by a character class left open), the
    turn pushes the one-character token of the backslash with the meaning
    that quotes the empty string, moves the position by two, and the scan
    returns with that part last; the tokens still spell the pattern. *)
Theorem trailing_backslash_part (pat : string) (n : nat)
  (parts : list ExplainPart) :
  run_turns pat n (0, []) = (String.length pat - 1, parts) ->
  JS.charAt pat (String.length pat - 1) = bs ->
  explain_body pat (String.length pat - 1)
  = (trailing_escape, String.length pat - 1 + 2)
  /\ explainRegex pat = Some (parts ++ [trailing_escape])%list
  /\ tokens (parts ++ [trailing_escape])%list = pat.
Proof.
  intros Hrun Hch.
  assert (Hlen : String.length pat - 1 < String.length pat).
  { destruct pat; simpl; [|lia].
    unfold JS.charAt in Hch. simpl in Hch. discriminate. }
  assert (Hbody : explain_body pat (String.length pat - 1)
                  = (trailing_escape, String.length pat - 1 + 2)).
  { unfold explain_body. rewrite Hch. simpl.
    unfold explain_escape.
    rewrite (@charAt_beyond pat (String.length pat - 1 + 1)) by lia.
    reflexivity. }
  assert (Hres : explainRegex pat = Some (parts ++ [trailing_escape])%list).
  { destruct (explainRegex_total pat) as [r Hr]. rewrite Hr. f_equal.
    assert (H1 : iterate (explain_step pat) (n + 1) (0, [])
                 = Some (parts ++ [trailing_escape])%list).
    { apply run_turns_iterate. rewrite Hrun. simpl.
      apply Nat.ltb_lt in Hlen. rewrite Hlen, Hbody.
      assert (Hge : (String.length pat - 1 + 2 <? String.length pat)%nat
                    = false) by (apply Nat.ltb_ge; lia).
      unfold explain_step. now rewrite Hge. }
    apply iterate_more with (fuel' := n + 1 + String.length pat) in H1;
      [|lia].
    unfold explainRegex in Hr.
    apply iterate_more with (fuel' := n + 1 + String.length pat) in Hr;
      [|lia].
    congruence. }
  repeat split; auto.
  now apply explainRegex_tokens.
Qed.

Lemma trailing_backslash_part_witness :
  explain_body ("a" ++ bs) 1 = (trailing_escape, 3)
  /\ explainRegex ("a" ++ bs) = Some [literal "a"; trailing_escape]
  /\ tokens [literal "a"; trailing_escape] = "a" ++ bs.
Proof.
  apply (@trailing_backslash_part ("a" ++ bs) 1 [literal "a"]);
    reflexivity.
Defined.

(** C10 as stated fails: a pattern may end in a single backslash and yet
    have no part for it, when a character class left open swallows it. *)
Lemma trailing_backslash_in_open_class :
  explainRegex ("[" ++ bs)
  = Some [ {| token := "[" ++ bs; meaning := "Any character in [" ++ bs |} ]
  /\ ~ (exists parts,
          explainRegex ("[" ++ bs) = Some (parts ++ [trailing_escape])%list).
Proof.
  split; [reflexivity|].
  intros [parts H]. vm_compute in H.
  destruct parts as [|p [|p' parts]]; simpl in H; inversion H.
Qed.

(** ** Bounded repetition *)

Lemma includes_cons d s c :
  JS.includes (String d s) c = ((d =? c)%char || JS.includes s c).
Proof.
  unfold JS.includes. simpl.
  destruct (d =? c)%char; [reflexivity|].
  now destruct (JS.indexOf s c 0).
Qed.

Lemma split_without c s : JS.includes s c = false -> JS.split c s = [s].
Proof.
  induction s as [|d s IH]; intros H; [reflexivity|].
  rewrite includes_cons in H. apply orb_false_iff in H. destruct H as [Hd Hs].
  simpl. rewrite Hd, (IH Hs). reflexivity.
Qed.

Lemma split_at_first c a b :
  JS.includes a c = false ->
  JS.split c (a ++ String c b) = a :: JS.split c b.
Proof.
  induction a as [|d a IH]; intros H; simpl.
  - now rewrite Ascii.eqb_refl.
  - rewrite includes_cons in H. apply orb_false_iff in H.
    destruct H as [Hd Ha]. rewrite Hd, (IH Ha). reflexivity.
Qed.

Lemma includes_at_first c a b : JS.includes (a ++ String c b) c = true.
Proof.
  induction a as [|d a IH]; simpl; rewrite includes_cons.
  - now rewrite Ascii.eqb_refl.
  - rewrite IH. apply orb_true_r.
Qed.

Lemma quant_meaning_fields min max rest :
  JS.includes min "," = false ->
  JS.includes max "," = false ->
  rest = EmptyString \/ JS.startsWith rest "," = true ->
  quant_meaning (min ++ "," ++ max ++ rest)
  = if max =? EmptyString then min ++ " or more of the previous"
    else "Between " ++ min ++ " and " ++ max ++ " of the previous".
Proof.
  intros Hmin Hmax Hrest. unfold quant_meaning.
  change (min ++ "," ++ max ++ rest) with (min ++ String "," (max ++ rest)).
  rewrite includes_at_first, split_at_first by assumption.
  assert (E : exists t, JS.split "," (max ++ rest) = max :: t).
  { destruct Hrest as [->|Hr].
    - rewrite append_empty_r, split_without by assumption. now exists [].
    - destruct rest as [|d rest]; [discriminate|]. simpl in Hr.
      apply Ascii.eqb_eq in Hr. subst d.
      rewrite split_at_first by assumption. eauto. }
  destruct E as [t ->]. simpl. reflexivity.
Qed.

(** C2, as the code has it. A brace read by the scan with a closing brace
    after it gives one token, the whole span up to the first closing
    brace. Its meaning is [Exactly <interior> of the previous] when the
    interior has no comma. Otherwise, with [min] the text before the first
    comma and [max] the text from there to the second comma or to the end
    of the interior: [<min> or more of the previous] when [max] is empty,
    [Between <min> and <max> of the previous] if not. Nothing is checked
    to be a number, and what follows a second comma is not in the
    meaning. *)
Theorem bounded_repetition_part (pat : string) (i e : nat) :
  JS.charAt pat i = "{" ->
  JS.indexOf pat "}" i = Some e ->
  let inner := JS.slice pat (i + 1) e in
  let part := fst (explain_body pat i) in
  snd (explain_body pat i) = e + 1
  /\ token part = "{" ++ inner ++ "}"
  /\ (JS.includes inner "," = false ->
      meaning part = "Exactly " ++ inner ++ " of the previous")
  /\ (forall min max rest,
        inner = min ++ "," ++ max ++ rest ->
        JS.includes min "," = false ->
        JS.includes max "," = false ->
        rest = EmptyString \/ JS.startsWith rest "," = true ->
        meaning part
        = if max =? EmptyString then min ++ " or more of the previous"
          else "Between " ++ min ++ " and " ++ max ++ " of the previous").
Proof.
  intros Hch He inner part.
  assert (Hbody : explain_body pat i
                  = ({| token := JS.slice pat i (e + 1);
                        meaning := quant_meaning inner |}, e + 1)).
  { unfold explain_body. rewrite Hch. simpl.
    unfold explain_quant. now rewrite He. }
  subst part. rewrite Hbody. simpl.
  destruct (indexOf_found _ _ _ He) as [Hrange Hclose].
  assert (Hlt : i < e).
  { destruct (Nat.eq_dec i e) as [->|]; [|lia].
    rewrite Hch in Hclose. discriminate. }
  repeat split.
  - unfold inner, JS.slice, JS.charAt in *.
    replace (e + 1 - i) with (1 + ((e - (i + 1)) + 1)) by lia.
    rewrite <- !substring_join.
    replace (i + 1 + (e - (i + 1))) with e by lia.
    now rewrite Hch, Hclose.
  - intros Hno. unfold quant_meaning. now rewrite Hno.
  - intros min max rest -> Hmin Hmax Hrest.
    now apply quant_meaning_fields.
Qed.

Lemma bounded_repetition_part_witness :
  snd (explain_body "a{2,5}" 1) = 6
  /\ token (fst (explain_body "a{2,5}" 1)) = "{2,5}"
  /\ meaning (fst (explain_body "a{2,5}" 1))
     = "Between 2 and 5 of the previous".
Proof.
  destruct (@bounded_repetition_part "a{2,5}" 1 5 eq_refl eq_refl)
    as (H1 & H2 & _ & H4).
  split; [exact H1|]. split; [exact H2|].
  apply (H4 "2" "5" EmptyString); [reflexivity | reflexivity | reflexivity|].
  left; reflexivity.
Defined.

(** C2 as stated fails: the interior [a,b,c] is not passed through; the
    meaning keeps the first two fields and drops the third. *)
Lemma bounded_repetition_drops_fields :
  explainRegex "{a,b,c}"
  = Some [ {| token := "{a,b,c}";
              meaning := "Between a and b of the previous" |} ]
  /\ occurs "a,b,c" "Between a and b of the previous" = false
  /\ explainRegex "{1,2,}"
     = Some [ {| token := "{1,2,}";
                 meaning := "Between 1 and 2 of the previous" |} ].
Proof. repeat split. Qed.

(** ** Argument parsing *)

Lemma argAt_truthy argv k :
  JS.truthy (argAt argv k) = true -> k < List.length argv.
Proof.
  intros H. destruct (Nat.lt_ge_cases k (List.length argv)) as [|Hge]; auto.
  unfold argAt in H. rewrite nth_overflow in H by exact Hge. discriminate.
Qed.

(** Every turn of the argument loop moves forward. *)
Lemma parse_body_forward argv i opts : i < fst (parse_body argv i opts).
Proof.
  unfold parse_body. cbv zeta.
  repeat (match goal with
          | |- context [if ?b then _ else _] => destruct b
          end; cbv iota).
  all: simpl; lia.
Qed.

Lemma parseArgs_total argv : exists opts, parseArgs argv = Some opts.
Proof.
  unfold parseArgs.
  apply iterate_terminates
    with (Inv := fun _ => True) (mu := fun st => List.length argv - fst st);
    [|exact I|simpl; lia].
  intros [i o] s' _ H. unfold parse_step in H.
  destruct (Nat.ltb_spec i (List.length argv)) as [Hi|Hi]; [|discriminate].
  inversion H; subst. pose proof (parse_body_forward argv i o).
  simpl. split; [exact I | lia].
Qed.

Lemma parse_body_invariant argv i o :
  parse_invariant argv o -> parse_invariant argv (snd (parse_body argv i o)).
Proof.
  intros (Hp & Hs & Hf & Hb). unfold parse_body. cbv zeta.
  destruct (_ || _); [repeat split; assumption|].
  destruct (_ =? "--json"); [repeat split; assumption|].
  destruct (_ =? "--explain"); [repeat split; assumption|].
  destruct ((_ =? "--flags") && _) eqn:E1.
  { apply andb_true_iff in E1. destruct E1 as [Ea Ev].
    apply String.eqb_eq in Ea. apply argAt_truthy in Ev.
    repeat split; try assumption. right. exists i. split; [lia | exact Ea]. }
  destruct ((_ =? "--bulk") && _) eqn:E2.
  { apply andb_true_iff in E2. destruct E2 as [Ea Ev].
    apply String.eqb_eq in Ea. apply argAt_truthy in Ev.
    repeat split; try assumption. right. exists i. split; [lia | exact Ea]. }
  destruct (negb (JS.truthy _) && _) eqn:E3.
  { apply andb_true_iff in E3. destruct E3 as [_ Ed].
    apply negb_true_iff in Ed. repeat split; assumption. }
  destruct (JS.truthy _ && _) eqn:E4.
  { apply andb_true_iff in E4. destruct E4 as [_ Ed].
    apply negb_true_iff in Ed. repeat split; try assumption.
    simpl. unfold no_dash. apply Forall_app. split; [exact Hs|].
    constructor; [exact Ed | constructor]. }
  repeat split; assumption.
Qed.

Lemma parseArgs_invariant argv opts :
  parseArgs argv = Some opts -> parse_invariant argv opts.
Proof.
  unfold parseArgs. intros H.
  apply iterate_invariant
    with (Inv := fun st => parse_invariant argv (snd st))
         (Post := parse_invariant argv) in H; auto.
  - intros [i o] s' HI Hs. unfold parse_step in Hs.
    destruct (i <? List.length argv)%nat; [|discriminate].
    inversion Hs; subst. now apply parse_body_invariant.
  - intros [i o] r HI Hs. unfold parse_step in Hs.
    destruct (i <? List.length argv)%nat; [discriminate|].
    now inversion Hs; subst.
  - simpl. repeat split; auto. constructor.
Qed.

(** A dash-prefixed argument that is no known option changes nothing. *)
Lemma parse_body_unknown argv i o :
  JS.startsWith (argAt argv i) "-" = true ->
  is_known_option (argAt argv i) = false ->
  parse_body argv i o = (i + 1, o).
Proof.
  unfold is_known_option, known_options, parse_body. simpl.
  intros Hd H. repeat (apply orb_false_iff in H; destruct H as [?E H]).
  rewrite E, E0, E1, E2, E3, E4, Hd. simpl.
  now rewrite !andb_false_r.
Qed.

(** [--flags] or [--bulk] in last place changes nothing. *)
Lemma parse_body_trailing argv i o :
  i + 1 = List.length argv ->
  argAt argv i = "--flags" \/ argAt argv i = "--bulk" ->
  parse_body argv i o = (i + 1, o).
Proof.
  intros Hi Ha. unfold parse_body.
  assert (Hv : JS.truthy (argAt argv (i + 1)) = false).
  { unfold argAt. now rewrite nth_overflow by lia. }
  rewrite Hv. destruct Ha as [-> | ->]; simpl; now rewrite !andb_false_r.
Qed.

(** A turn inside [pre] does not see an argument added after [pre], unless
    it is a [--flags] or [--bulk] in the last place of [pre]. *)
Lemma parse_body_prefix pre a i o :
  i < List.length pre ->
  i + 1 < List.length pre
  \/ (argAt pre i <> "--flags" /\ argAt pre i <> "--bulk") ->
  parse_body (pre ++ [a]) i o = parse_body pre i o.
Proof.
  intros Hi Hc. unfold parse_body.
  assert (Ha : argAt (pre ++ [a]) i = argAt pre i).
  { unfold argAt. now apply app_nth1. }
  rewrite Ha. destruct Hc as [Hlt | [Hf Hb]].
  - assert (Hn : argAt (pre ++ [a]) (i + 1) = argAt pre (i + 1)).
    { unfold argAt. now apply app_nth1. }
    now rewrite Hn.
  - apply String.eqb_neq in Hf, Hb. now rewrite Hf, Hb.
Qed.

(** The last turn on [pre] with one more argument, when that turn changes
    nothing. *)
Lemma parse_last_turn pre a fuel o :
  parse_body (pre ++ [a]) (List.length pre) o = (List.length pre + 1, o) ->
  iterate (parse_step (pre ++ [a])) (S fuel) (List.length pre, o) = Some o.
Proof.
  intros Hlast.
  assert (Hlen : List.length (pre ++ [a]) = List.length pre + 1).
  { rewrite length_app. reflexivity. }
  cbn [iterate]. unfold parse_step at 1. rewrite Hlen.
  destruct (Nat.ltb_spec (List.length pre) (List.length pre + 1)); [|lia].
  rewrite Hlast.
  assert (Hend : parse_step (pre ++ [a]) (List.length pre + 1, o) = inr o).
  { unfold parse_step. rewrite Hlen.
    destruct (Nat.ltb_spec (List.length pre + 1) (List.length pre + 1));
      [lia | reflexivity]. }
  destruct fuel; cbn [iterate]; now rewrite Hend.
Qed.

(** A turn inside [pre] ends inside [pre] or at its end. *)
Lemma parse_body_inside pre i o :
  i < List.length pre -> fst (parse_body pre i o) <= List.length pre.
Proof.
  intros Hi. unfold parse_body. cbv zeta.
  destruct (_ || _); [simpl; lia|].
  destruct (_ =? "--json"); [simpl; lia|].
  destruct (_ =? "--explain"); [simpl; lia|].
  destruct ((_ =? "--flags") && _) eqn:E1.
  { apply andb_true_iff in E1. destruct E1 as [_ Hv].
    apply argAt_truthy in Hv. simpl. lia. }
  destruct ((_ =? "--bulk") && _) eqn:E2.
  { apply andb_true_iff in E2. destruct E2 as [_ Hv].
    apply argAt_truthy in Hv. simpl. lia. }
  destruct (negb (JS.truthy _) && _); [simpl; lia|].
  destruct (JS.truthy _ && _); simpl; lia.
Qed.

(** The loop on [pre] with one more argument that a turn of its own
    ignores ends with the options of the loop on [pre]. *)
Lemma parse_loop_ignores pre a :
  argAt pre (List.length pre - 1) <> "--flags" ->
  argAt pre (List.length pre - 1) <> "--bulk" ->
  (forall o, parse_body (pre ++ [a]) (List.length pre) o
             = (List.length pre + 1, o)) ->
  forall fuel i o r,
    i <= List.length pre ->
    iterate (parse_step pre) fuel (i, o) = Some r ->
    iterate (parse_step (pre ++ [a])) (S fuel) (i, o) = Some r.
Proof.
  intros Hf Hb Hlast fuel.
  assert (Hlen : List.length (pre ++ [a]) = List.length pre + 1).
  { rewrite length_app. reflexivity. }
  induction fuel as [|fuel IH]; intros i o r Hi H;
    cbn [iterate] in H; unfold parse_step at 1 in H;
    destruct (Nat.ltb_spec i (List.length pre)) as [Hlt|Hge];
    try discriminate.
  - inversion H; subst. assert (i = List.length pre) by lia. subst i.
    now apply parse_last_turn.
  - assert (Hsame : parse_body (pre ++ [a]) i o = parse_body pre i o).
    { apply parse_body_prefix; [exact Hlt|].
      destruct (Nat.eq_dec (i + 1) (List.length pre)) as [E|E]; [|left; lia].
      right. replace i with (List.length pre - 1) by lia. now split. }
    cbn [iterate]. unfold parse_step at 1. rewrite Hlen.
    destruct (Nat.ltb_spec i (List.length pre + 1)); [|lia].
    rewrite Hsame. pose proof (parse_body_inside pre o Hlt) as Hin.
    destruct (parse_body pre i o) as [i' o']. now apply IH.
  - inversion H; subst. assert (i = List.length pre) by lia. subst i.
    now apply parse_last_turn.
Qed.

(** An argument in last place that a turn of its own ignores does not
    change what [parseArgs] returns. *)
Lemma parseArgs_ignores_last pre a :
  argAt pre (List.length pre - 1) <> "--flags" ->
  argAt pre (List.length pre - 1) <> "--bulk" ->
  a = "--flags" \/ a = "--bulk"
  \/ (JS.startsWith a "-" = true /\ is_known_option a = false) ->
  parseArgs (pre ++ [a]) = parseArgs pre.
Proof.
  intros Hf Hb Ha.
  assert (Hlen : List.length (pre ++ [a]) = S (List.length pre)).
  { rewrite length_app. simpl. lia. }
  assert (Hat : argAt (pre ++ [a]) (List.length pre) = a).
  { unfold argAt. rewrite app_nth2 by lia. now rewrite Nat.sub_diag. }
  destruct (parseArgs_total pre) as [r Hr]. rewrite Hr.
  unfold parseArgs in *. rewrite Hlen.
  apply parse_loop_ignores; auto; [|lia].
  intros o. destruct Ha as [-> | [-> | [Hd Hk]]].
  - apply parse_body_trailing; [lia | now left].
  - apply parse_body_trailing; [lia | now right].
  - apply parse_body_unknown; now rewrite Hat.
Qed.

(** ** The match engine *)

Lemma char_regex_contract ch inp : cursor_contract (char_regex ch) inp.
Proof.
  split.
  - intros k m k' H. unfold char_regex in H.
    destruct (JS.indexOf inp ch k) as [j|] eqn:E; [|discriminate].
    inversion H; subst; clear H. simpl.
    destruct (indexOf_found _ _ _ E) as [Hj Hc].
    repeat split; try lia. unfold JS.charAt in Hc. now rewrite Hc.
  - intros k Hk. unfold char_regex.
    destruct (JS.indexOf inp ch k) as [j|] eqn:E; [|reflexivity].
    apply indexOf_found in E. lia.
Qed.

Lemma empty_regex_contract inp : cursor_contract empty_regex inp.
Proof.
  split.
  - intros k m k' H. unfold empty_regex in H.
    destruct (Nat.leb_spec k (String.length inp)); [|discriminate].
    inversion H; subst; clear H. simpl.
    repeat split; try lia. now rewrite substring_zero.
  - intros k Hk. unfold empty_regex.
    destruct (Nat.leb_spec k (String.length inp)); [lia | reflexivity].
Qed.

(** What the global loop keeps true under the cursor contract: the
    matches pushed are spans in order that end at or before [lastIndex],
    there are at most [lastIndex] of them, and [lastIndex] is at most one
    past the end of the input. *)
Lemma collect_step_keeps regex inp :
  cursor_contract regex inp ->
  forall k ms st',
    (exists e, spans_from inp 0 ms e /\ e <= k)
    /\ List.length ms <= k <= String.length inp + 1 ->
    collect_step regex inp (k, ms) = inl st' ->
    ((exists e, spans_from inp 0 (snd st') e /\ e <= fst st')
     /\ List.length (snd st') <= fst st' <= String.length inp + 1)
    /\ k < fst st'.
Proof.
  intros [Hm Hend] k ms st' [[e [Hsp He]] Hlen] H.
  unfold collect_step in H.
  destruct (regex k inp) as [[m|] k'] eqn:E; [|discriminate].
  destruct (Hm _ _ _ E) as (H1 & H2 & H3 & H4).
  inversion H; subst st'; clear H. simpl.
  rewrite length_app. simpl.
  assert (Hsnoc : spans_from inp 0 (ms ++ [record_of m])
                    (raw_index m + String.length (raw_full m))).
  { clear Hlen. revert Hsp. generalize 0 as a. revert e He.
    induction ms as [|x ms IH]; intros e He a Hsp; simpl in *.
    - subst e. repeat split; try lia; auto.
    - destruct Hsp as (A & B & C & D). repeat split; auto.
      now apply IH with (e := e). }
  destruct (Nat.eqb_spec (String.length (raw_full m)) 0) as [Hz|Hz];
    (split; [split; [eexists; split; [exact Hsnoc | lia] | lia] | lia]).
Qed.

(** Under the cursor contract the global loop ends within one turn per
    position of the input, the end included. *)
Lemma collect_global_bounded regex inp :
  cursor_contract regex inp ->
  forall fuel, String.length inp + 1 <= fuel ->
  exists ms,
    iterate (collect_step regex inp) fuel (0, []) = Some ms
    /\ List.length ms <= String.length inp + 1
    /\ exists e, spans_from inp 0 ms e.
Proof.
  intros Hc fuel Hf.
  set (Inv := fun st : nat * list MatchRecord =>
                (exists e, spans_from inp 0 (snd st) e /\ e <= fst st)
                /\ List.length (snd st) <= fst st <= String.length inp + 1).
  assert (H0 : Inv (0, [])).
  { split; simpl; [exists 0; split; [reflexivity | lia] | lia]. }
  destruct (@iterate_terminates _ _ (collect_step regex inp) Inv
              (fun st => String.length inp + 1 - fst st)) with
    (fuel := fuel) (s := (0, @nil MatchRecord)) as [ms Hms]; auto.
  - intros [k ms] st' HI Hs.
    destruct (@collect_step_keeps _ _ Hc _ _ _ HI Hs) as [HI' Hlt].
    split; [exact HI'|]. destruct HI' as [_ Hb]. simpl in *. lia.
  - simpl. lia.
  - exists ms. split; [exact Hms|].
    apply iterate_invariant
      with (Inv := Inv)
           (Post := fun ms => List.length ms <= String.length inp + 1
                              /\ exists e, spans_from inp 0 ms e) in Hms;
      auto.
    + intros [k ms'] st' HI Hs.
      now destruct (@collect_step_keeps _ _ Hc _ _ _ HI Hs).
    + intros [k ms'] r [[e [Hsp He]] Hb] Hs. unfold collect_step in Hs.
      destruct (regex k inp) as [[m|] k']; [discriminate|].
      inversion Hs; subst. simpl in *. split; [lia | eauto].
Qed.

(** A host that answers an empty match at 0, leaving [lastIndex] at 0,
    both from 0 and from 1, keeps the loop between these two places. *)
Lemma collect_never_leaves regex inp m0 m1 :
  regex 0 inp = (Some m0, 0) -> raw_full m0 = EmptyString ->
  regex 1 inp = (Some m1, 0) -> raw_full m1 = EmptyString ->
  forall fuel k ms,
    k <= 1 -> iterate (collect_step regex inp) fuel (k, ms) = None.
Proof.
  intros H0 E0 H1 E1 fuel.
  induction fuel as [|fuel IH]; intros k ms Hk;
    (destruct k as [|[|k]]; [| |lia]); simpl.
  - now rewrite H0.
  - now rewrite H1.
  - rewrite H0, E0. simpl. apply IH. lia.
  - rewrite H1, E1. simpl. apply IH. lia.
Qed.

(** C4 on the code: the advance by one after an empty match does not make
    the loop end when the host goes back. With the flags [gu], on an input
    that starts with a code point of two code units, [exec] called with
    [lastIndex] 1 reports the empty match at 0 again and leaves
    [lastIndex] at 0; the loop then never leaves, whatever the number of
    turns allowed, and [testString] does not return. *)
Theorem collect_global_unicode_diverges (engine : Engine)
  (pat flgs inp : string) (regex : RegExp) (m0 m1 : RawMatch) :
  engine pat flgs = inl regex ->
  JS.includes flgs "g" = true ->
  regex 0 inp = (Some m0, 0) -> raw_full m0 = EmptyString ->
  regex 1 inp = (Some m1, 0) -> raw_full m1 = EmptyString ->
  forall fuel t,
    collect regex fuel flgs inp = None
    /\ testString engine fuel pat flgs inp t = None.
Proof.
  intros He Hg H0 E0 H1 E1 fuel t.
  assert (H : collect regex fuel flgs inp = None).
  { unfold collect. rewrite Hg.
    apply collect_never_leaves with (m0 := m0) (m1 := m1); auto. }
  split; [exact H|].
  unfold testString. rewrite He. unfold bind, bounded. now rewrite H.
Qed.

Lemma collect_global_unicode_diverges_witness :
  collect empty_regex_u 1000 "gu" astral = None
  /\ testString unicode_engine 1000 "(?:)" "gu" astral [] = None.
Proof.
  apply (@collect_global_unicode_diverges unicode_engine "(?:)" "gu" astral
           empty_regex_u
           {| raw_full := EmptyString; raw_index := 0;
              raw_captures := []; raw_groups := None |}
           {| raw_full := EmptyString; raw_index := 0;
              raw_captures := []; raw_groups := None |});
    reflexivity.
Defined.

(** What [testString] returns when the pattern compiles and the
    collection ends. *)
Lemma testString_inversion engine fuel pat flgs inp t r t' regex :
  engine pat flgs = inl regex ->
  testString engine fuel pat flgs inp t = Some (Running r, t') ->
  t' = t
  /\ collect regex fuel flgs inp = Some (matches r)
  /\ input r = inp
  /\ highlighted r = build_highlighted inp (matches r).
Proof.
  intros He H. unfold testString in H. rewrite He in H.
  unfold bind, bounded, ret in H.
  destruct (collect regex fuel flgs inp) as [ms|]; [|discriminate].
  inversion H; subst. simpl. auto.
Qed.

Lemma collect_normalized regex fuel flgs inp ms :
  collect regex fuel flgs inp = Some ms ->
  Forall (fun rec => exists k m,
              fst (regex k inp) = Some m /\ normalized m rec) ms.
Proof.
  unfold collect. destruct (JS.includes flgs "g").
  - intros H.
    apply iterate_invariant
      with (Inv := fun st =>
                     Forall (fun rec => exists k m,
                                 fst (regex k inp) = Some m
                                 /\ normalized m rec) (snd st))
           (Post := Forall (fun rec => exists k m,
                                fst (regex k inp) = Some m
                                /\ normalized m rec)) in H; auto.
    + intros [k ms'] s' HI Hs. unfold collect_step in Hs.
      destruct (regex k inp) as [[m|] k'] eqn:E; [|discriminate].
      inversion Hs; subst. simpl in *. apply Forall_app. split; [exact HI|].
      constructor; [|constructor]. exists k, m. rewrite E.
      split; [reflexivity|]. now repeat split.
    + intros [k ms'] r HI Hs. unfold collect_step in Hs.
      destruct (regex k inp) as [[m|] k']; [discriminate|].
      now inversion Hs; subst.
  - destruct (fst (regex 0 inp)) as [m|] eqn:E; intros H; inversion H; subst.
    + constructor; [|constructor]. exists 0, m. split; [exact E|].
      now repeat split.
    + constructor.
Qed.

(** C5, as the code has it. Each record of a result holds what one [exec]
    returned: [full] is element 0, [index] the start offset, [groups] the
    elements from 1 on with an absent capture kept absent, [namedGroups]
    the pairs of the host's [groups] object as they are (a named group that
    did not take part stays bound to an absent value) and no pair when the
    host gives no object. Without [g] in the flags there is one [exec],
    from [lastIndex] 0, and at most one record. Nothing is printed. *)
Theorem testString_records (engine : Engine) (fuel : nat)
  (pat flgs inp : string) (t t' : list event) (r : MatchResult)
  (regex : RegExp) :
  engine pat flgs = inl regex ->
  testString engine fuel pat flgs inp t = Some (Running r, t') ->
  input r = inp
  /\ t' = t
  /\ Forall (fun rec => exists k m,
                 fst (regex k inp) = Some m /\ normalized m rec) (matches r)
  /\ (forall m, groups (record_of m) = raw_captures m
                /\ (raw_groups m = None -> namedGroups (record_of m) = []))
  /\ (JS.includes flgs "g" = false ->
      matches r = match fst (regex 0 inp) with
                  | Some m => [record_of m]
                  | None => []
                  end
      /\ List.length (matches r) <= 1).
Proof.
  intros He H.
  destruct (testString_inversion _ _ _ _ _ _ He H) as (Ht & Hc & Hi & _).
  repeat split; auto.
  - now apply collect_normalized with (fuel := fuel) (flgs := flgs).
  - intros Hn. simpl. now rewrite Hn.
  - unfold collect in Hc. rewrite H0 in Hc.
    destruct (fst (regex 0 inp)); now inversion Hc.
  - unfold collect in Hc. rewrite H0 in Hc.
    destruct (fst (regex 0 inp)); inversion Hc; simpl; lia.
Qed.

Lemma testString_records_witness :
  exists r,
    testString sample_engine 0 "n" "i" "banana" [] = Some (Running r, [])
    /\ matches r = [ {| full := "n"; index := 2; groups := [];
                        namedGroups := [] |} ].
Proof.
  eexists. split; [reflexivity|].
  destruct (@testString_records sample_engine 0 "n" "i" "banana" [] [] _
              (char_regex "n") eq_refl eq_refl) as (_ & _ & _ & _ & H).
  destruct (H eq_refl) as [Hm _]. exact Hm.
Defined.

(** C5 as stated fails: a value of [namedGroups] need not be a string. For
    [(?<a>x)|(?<b>y)] on [y] the group [a] does not take part, and the
    record binds it to an absent value. *)
Lemma namedGroups_absent_value :
  exists r,
    testString sample_engine 5 "(?<a>x)|(?<b>y)" "g" "y" []
    = Some (Running r, [])
    /\ map namedGroups (matches r) = [[("a", None); ("b", Some "y")]]
    /\ ~ Forall (fun rec =>
                   Forall (fun kv => exists s : string, snd kv = Some s)
                     (namedGroups rec)) (matches r).
Proof.
  eexists. split; [reflexivity|]. split; [reflexivity|].
  simpl. intros H. inversion H as [|? ? Hrec _]; subst.
  inversion Hrec as [|? ? [s Hs] _]; subst. discriminate.
Qed.

(** ** The highlighted text *)

Lemma highlight_loop_segments inp ms : forall mi lastEnd acc,
  highlight_loop inp ms mi lastEnd acc
  = acc ++ render_segments (highlight_segments inp ms mi lastEnd).
Proof.
  induction ms as [|m ms IH]; intros mi lastEnd acc;
    cbn [highlight_loop highlight_segments render_segments].
  - now rewrite append_empty_r.
  - rewrite IH. now rewrite !append_assoc.
Qed.

Lemma build_highlighted_segments inp ms :
  build_highlighted inp ms
  = render_segments (highlight_segments inp ms 0 0).
Proof.
  unfold build_highlighted. destruct ms as [|m ms].
  - simpl. unfold JS.sliceFrom. rewrite append_empty_r, Nat.sub_0_r.
    symmetry. now apply substring_all.
  - change (0 <? List.length (m :: ms))%nat with true. cbv iota.
    now rewrite highlight_loop_segments.
Qed.

(** Without the markers, the pieces of spans in order are the input from
    the end of the last match before them. *)
Lemma erase_highlight_segments inp ms : forall mi lastEnd finalEnd,
  spans_from inp lastEnd ms finalEnd ->
  erase_markers (highlight_segments inp ms mi lastEnd)
  = JS.sliceFrom inp lastEnd.
Proof.
  unfold JS.sliceFrom, JS.slice.
  induction ms as [|m ms IH]; intros mi lastEnd finalEnd H; simpl in *.
  - now rewrite append_empty_r.
  - destruct H as (H1 & H2 & H3 & H4).
    rewrite (IH _ _ _ H4). unfold JS.slice.
    set (n := String.length (full m)) in *. rewrite H2.
    rewrite (substring_join inp (index m) n).
    pose proof (substring_join inp lastEnd (index m - lastEnd)
                  (n + (String.length inp - (index m + n)))) as J.
    replace (lastEnd + (index m - lastEnd)) with (index m) in J by lia.
    rewrite J. f_equal. lia.
Qed.

Lemma collect_spans regex fuel flgs inp ms :
  cursor_contract regex inp ->
  collect regex fuel flgs inp = Some ms ->
  exists e, spans_from inp 0 ms e.
Proof.
  intros Hc H. unfold collect in H. destruct (JS.includes flgs "g").
  - destruct (@collect_global_bounded _ _ Hc
                (fuel + String.length inp + 1)) as (ms' & H1 & _ & H2);
      [lia|].
    apply iterate_more with (fuel' := fuel + String.length inp + 1) in H;
      [|lia].
    assert (ms = ms') by congruence. subst ms'. exact H2.
  - destruct (regex 0 inp) as [[m|] k'] eqn:E; simpl in H;
      inversion H; subst; [|now exists 0].
    destruct Hc as [Hm _]. destruct (Hm _ _ _ E) as (H1 & H2 & H3 & _).
    exists (raw_index m + String.length (raw_full m)). simpl.
    repeat split; auto.
Qed.

Lemma match_color_cycles mi : match_color (mi + 6) = match_color mi.
Proof.
  unfold match_color. change (List.length MATCH_COLORS) with 6.
  replace (mi + 6) with (mi + 1 * 6) by lia.
  now rewrite Nat.Div0.mod_add.
Qed.

(** C6. For a result of [testString] on a host that keeps the cursor
    contract: with no match the highlighted text is the input; in every
    case it is the input cut at the matches, each match between the color
    of its ordinal (one of 6, cycling) followed by bold, and the reset,
    with the rest of the input at the end; taking the markers out gives
    the input back. *)
Theorem testString_highlighted (engine : Engine) (fuel : nat)
  (pat flgs inp : string) (t t' : list event) (r : MatchResult)
  (regex : RegExp) :
  engine pat flgs = inl regex ->
  cursor_contract regex inp ->
  testString engine fuel pat flgs inp t = Some (Running r, t') ->
  (matches r = [] -> highlighted r = input r)
  /\ highlighted r
     = render_segments (highlight_segments (input r) (matches r) 0 0)
  /\ erase_markers (highlight_segments (input r) (matches r) 0 0) = input r
  /\ List.length MATCH_COLORS = 6
  /\ (forall mi, match_color (mi + 6) = match_color mi).
Proof.
  intros He Hc H.
  destruct (testString_inversion _ _ _ _ _ _ He H) as (_ & Hcol & Hi & Hh).
  rewrite Hi, Hh. repeat split.
  - intros ->. reflexivity.
  - apply build_highlighted_segments.
  - destruct (@collect_spans _ _ _ _ _ Hc Hcol) as [e Hsp].
    rewrite (@erase_highlight_segments _ _ 0 _ _ Hsp).
    unfold JS.sliceFrom. rewrite Nat.sub_0_r. now apply substring_all.
  - apply match_color_cycles.
Qed.

Lemma testString_highlighted_witness :
  exists r,
    testString sample_engine 9 "a" "g" "banana" [] = Some (Running r, [])
    /\ highlighted r
       = "b" ++ c.bgGreen ++ c.bold ++ "a" ++ c.reset
         ++ "n" ++ c.bgYellow ++ c.bold ++ "a" ++ c.reset
         ++ "n" ++ c.bgCyan ++ c.bold ++ "a" ++ c.reset
    /\ erase_markers (highlight_segments (input r) (matches r) 0 0)
       = "banana".
Proof.
  eexists. split; [reflexivity|].
  destruct (@testString_highlighted sample_engine 9 "a" "g" "banana" [] [] _
              (char_regex "a") eq_refl (char_regex_contract "a" "banana")
              eq_refl) as (_ & H2 & H3 & _).
  split; [exact H2 | exact H3].
Defined.

(** ** Structured output *)

Lemma no_escape_append s t :
  no_escape_char (s ++ t) = no_escape_char s && no_escape_char t.
Proof.
  induction s as [|ch s IH]; simpl; [reflexivity|].
  now rewrite IH, andb_assoc.
Qed.

Lemma no_escape_concat sep l :
  no_escape_char sep = true ->
  Forall (fun s => no_escape_char s = true) l ->
  no_escape_char (String.concat sep l) = true.
Proof.
  intros Hsep H. induction H as [|s l Hs Hl IH]; [reflexivity|].
  simpl. destruct l as [|s' l]; [exact Hs|].
  now rewrite !no_escape_append, Hs, Hsep, IH.
Qed.

Lemma quote_char_no_escape ch : no_escape_char (quote_char ch) = true.
Proof.
  destruct ch as [[] [] [] [] [] [] [] []]; reflexivity.
Qed.

Lemma QuoteJSONString_no_escape s :
  no_escape_char (QuoteJSONString s) = true.
Proof.
  unfold QuoteJSONString. rewrite !no_escape_append. simpl.
  rewrite andb_true_r.
  induction s as [|ch s IH]; [reflexivity|].
  simpl. now rewrite no_escape_append, quote_char_no_escape, IH.
Qed.

Lemma dec_no_escape n : no_escape_char (dec n) = true.
Proof.
  unfold dec. generalize (Nat.to_uint n) as d.
  induction d; simpl; auto.
Qed.

Lemma wrap_no_escape gap opening closing indent partial :
  no_escape_char gap = true ->
  no_escape_char opening = true ->
  no_escape_char closing = true ->
  no_escape_char indent = true ->
  Forall (fun s => no_escape_char s = true) partial ->
  no_escape_char (wrap gap opening closing indent partial) = true.
Proof.
  intros Hg Ho Hc Hi Hp. unfold wrap.
  destruct partial as [|p partial].
  - now rewrite no_escape_append, Ho, Hc.
  - destruct (gap =? EmptyString).
    + rewrite !no_escape_append, Ho, Hc, no_escape_concat; auto.
    + rewrite !no_escape_append, Ho, Hc, Hi, Hg, no_escape_concat; auto.
      now rewrite !no_escape_append, Hi, Hg.
Qed.

(** Induction on JavaScript values, through arrays and objects. *)
Lemma jsval_nested_ind (P : jsval -> Prop) :
  P VUndefined ->
  (forall n, P (VNumber n)) ->
  (forall s, P (VString s)) ->
  (forall items, Forall P items -> P (VArray items)) ->
  (forall props, Forall (fun kv => P (snd kv)) props -> P (VObject props)) ->
  forall v, P v.
Proof.
  intros Hu Hn Hs Ha Ho.
  exact
    (fix go (v : jsval) : P v :=
       match v with
       | VUndefined => Hu
       | VNumber n => Hn n
       | VString s => Hs s
       | VArray items =>
           Ha items
             ((fix all (l : list jsval) : Forall P l :=
                 match l with
                 | [] => Forall_nil P
                 | x :: rest => Forall_cons x (go x) (all rest)
                 end) items)
       | VObject props =>
           Ho props
             ((fix all (l : list (string * jsval))
                 : Forall (fun kv => P (snd kv)) l :=
                 match l with
                 | [] => Forall_nil _
                 | kv :: rest =>
                     Forall_cons kv (go (snd kv)) (all rest)
                 end) props)
       end).
Qed.

(** No text written by [JSON.stringify] holds the escape character: a
    string is quoted with its control characters escaped. *)
Lemma serialize_no_escape gap v : forall indent s,
  no_escape_char gap = true ->
  no_escape_char indent = true ->
  SerializeJSONProperty gap indent v = Some s ->
  no_escape_char s = true.
Proof.
  induction v as [| n | str | items IH | props IH] using jsval_nested_ind;
    intros indent s Hg Hi H; simpl in H.
  - discriminate.
  - inversion H; subst. apply dec_no_escape.
  - inversion H; subst. apply QuoteJSONString_no_escape.
  - inversion H; subst; clear H. apply wrap_no_escape; auto.
    induction IH as [|x items Hx _ IHl]; simpl; constructor; auto.
    destruct (SerializeJSONProperty gap (indent ++ gap) x) as [sx|] eqn:E;
      [|reflexivity].
    apply (Hx (indent ++ gap) sx); auto.
    now rewrite no_escape_append, Hi, Hg.
  - inversion H; subst; clear H. apply wrap_no_escape; auto.
    induction IH as [|[k x] props Hx _ IHl]; simpl; [constructor|].
    destruct (SerializeJSONProperty gap (indent ++ gap) x) as [sx|] eqn:E;
      [|exact IHl].
    constructor; [|exact IHl].
    change (String (ascii_of_nat 34) ((quote_body k ++ dq) ++ colon gap ++ sx))
      with (QuoteJSONString k ++ colon gap ++ sx).
    rewrite !no_escape_append, QuoteJSONString_no_escape.
    simpl in Hx. rewrite (Hx (indent ++ gap) sx); auto.
    + unfold colon. now destruct (gap =? EmptyString).
    + now rewrite no_escape_append, Hi, Hg.
Qed.

(** ** The process *)

Lemma bind_running A B (m : Proc A) (k : A -> Proc B) t a t' :
  m t = Some (Running a, t') -> bind m k t = k a t'.
Proof. intros H. unfold bind. now rewrite H. Qed.

Lemma bind_exited A B (m : Proc A) (k : A -> Proc B) t code t' :
  m t = Some (Exited code, t') -> bind m k t = Some (Exited code, t').
Proof. intros H. unfold bind. now rewrite H. Qed.

Lemma log_all_run lines : forall t,
  log_all lines t = Some (Running tt, (t ++ map Out lines)%list).
Proof.
  induction lines as [|l lines IH]; intros t; simpl.
  - unfold ret. now rewrite app_nil_r.
  - unfold bind, console_log. rewrite IH. now rewrite <- app_assoc.
Qed.

Lemma explain_mode_run opts t :
  exists parts,
    explainRegex (pattern opts) = Some parts
    /\ explain_mode opts t
       = if explain opts then
           if explain_only opts
           then Some (Exited 0,
                  (t ++ map Out (explain_lines (pattern opts) parts))%list)
           else Some (Running tt,
                  (t ++ map Out (explain_lines (pattern opts) parts))%list)
         else Some (Running tt, t).
Proof.
  destruct (explainRegex_total (pattern opts)) as [parts Hp].
  exists parts. split; [exact Hp|].
  unfold explain_mode, explain_only.
  destruct (explain opts); [|reflexivity].
  unfold bind at 1. unfold bounded. rewrite Hp.
  unfold bind. rewrite log_all_run. simpl.
  now destruct ((_ =? 0)%nat && _).
Qed.

Lemma bulk_mode_run fs opts t :
  bulk_mode fs opts t
  = match strings_to_test fs opts with
    | inl strs => Some (Running strs, t)
    | inr msg =>
        Some (Exited 1,
              (t ++ [Err (c.red ++ "Error reading file:" ++ c.reset ++ " "
                          ++ msg)])%list)
    end.
Proof.
  unfold bulk_mode, strings_to_test.
  destruct (bulk opts) as [file|]; [|reflexivity].
  destruct (JS.truthy file); [|reflexivity].
  now destruct (fs file).
Qed.

Lemma test_one_reject engine fuel opts str t msg :
  engine (pattern opts) (flags opts) = inr msg ->
  exists t', test_one engine fuel opts str t = Some (Exited 1, t').
Proof.
  intros H. unfold test_one, testString. rewrite H.
  eexists. reflexivity.
Qed.

Lemma test_one_accept engine fuel opts str t regex :
  engine (pattern opts) (flags opts) = inl regex ->
  test_one engine fuel opts str t
  = match collect regex fuel (flags opts) str with
    | None => None
    | Some ms =>
        let r := {| input := str; matches := ms;
                    highlighted := build_highlighted str ms |} in
        Some (Running r,
              if json opts then t
              else (t ++ map Out (render_lines r))%list)
    end.
Proof.
  intros H. unfold test_one, testString. rewrite H.
  unfold bind, bounded.
  destruct (collect regex fuel (flags opts) str) as [ms|]; [|reflexivity].
  simpl. destruct (json opts); simpl; [reflexivity|].
  unfold renderResult. now rewrite log_all_run.
Qed.

Lemma for_each_never_exits A B (body : A -> Proc B) :
  (forall x t code t', body x t <> Some (Exited code, t')) ->
  forall xs t code t', for_each xs body t <> Some (Exited code, t').
Proof.
  intros Hb xs. induction xs as [|x xs IH]; intros t code t' H; simpl in H.
  - discriminate.
  - unfold bind at 1 in H.
    destruct (body x t) as [[[b|cb] tb]|] eqn:E; try discriminate.
    + unfold bind at 1 in H.
      destruct (for_each xs body tb) as [[[bs|cs] ts]|] eqn:E';
        try discriminate.
      now apply IH in E'.
    + now apply Hb in E.
Qed.

Lemma for_each_runs A B (body : A -> Proc B) xs :
  (forall x t, In x xs -> exists b t', body x t = Some (Running b, t')) ->
  forall t, exists bs t', for_each xs body t = Some (Running bs, t').
Proof.
  induction xs as [|x xs IH]; intros Hb t; simpl.
  - now exists [], t.
  - destruct (Hb x t (or_introl eq_refl)) as (b & tb & E).
    destruct (IH (fun y u Hy => Hb y u (or_intror Hy)) tb) as (bs & ts & E').
    exists (b :: bs), ts. unfold bind at 1. rewrite E.
    unfold bind at 1. now rewrite E'.
Qed.

Lemma test_all_tail opts (strs : list string)
  (allResults : list MatchResult) t :
  exists t',
    ((if json opts then console_log (json_document allResults) else ret tt) ;;
     (if (1 <? List.length strs)%nat && negb (json opts)
      then console_log (summary_line allResults (List.length strs))
      else ret tt) ;;
     console_log EmptyString) t = Some (Running tt, t').
Proof.
  unfold bind, console_log, ret.
  destruct (json opts); destruct ((1 <? List.length strs)%nat); simpl;
    eexists; reflexivity.
Qed.

(** [main] from the banner on, by the outcome of the loop over the
    strings. *)
Lemma test_all_cases engine fuel opts strs t :
  exists u,
    match for_each strs (test_one engine fuel opts) u with
    | Some (Running rs, tr) =>
        exists t', test_all engine fuel opts strs t = Some (Running tt, t')
    | Some (Exited code, tr) =>
        test_all engine fuel opts strs t = Some (Exited code, tr)
    | None => test_all engine fuel opts strs t = None
    end.
Proof.
  exists ((t ++ [Out (nl ++ c.bold ++ c.cyan ++ "  regex-test" ++ c.reset)])
            ++ [Out ("  " ++ c.dim ++ "Pattern:" ++ c.reset ++ " "
                     ++ c.yellow ++ "/" ++ pattern opts ++ "/"
                     ++ flags opts ++ c.reset)])%list.
  match goal with
  | |- context [for_each strs ?b ?u] =>
      destruct (for_each strs b u) as [[[rs|code] tr]|] eqn:E
  end.
  - destruct (test_all_tail opts strs rs tr) as [t' Ht]. exists t'.
    unfold test_all.
    unfold bind at 1. unfold console_log at 1.
    unfold bind at 1. unfold console_log at 1.
    unfold bind at 1. rewrite E. exact Ht.
  - unfold test_all.
    unfold bind at 1. unfold console_log at 1.
    unfold bind at 1. unfold console_log at 1.
    unfold bind at 1. now rewrite E.
  - unfold test_all.
    unfold bind at 1. unfold console_log at 1.
    unfold bind at 1. unfold console_log at 1.
    unfold bind at 1. now rewrite E.
Qed.

Lemma test_all_reject engine fuel opts str rest t msg :
  engine (pattern opts) (flags opts) = inr msg ->
  exit_code (test_all engine fuel opts (str :: rest) t) = Some 1.
Proof.
  intros H. destruct (test_all_cases engine fuel opts (str :: rest) t)
    as [u Hu].
  simpl for_each in Hu. unfold bind at 1 in Hu.
  destruct (@test_one_reject engine fuel opts str u msg H) as [t' E].
  rewrite E in Hu. now rewrite Hu.
Qed.

Lemma test_all_accept engine fuel opts strs t regex :
  engine (pattern opts) (flags opts) = inl regex ->
  exit_code (test_all engine fuel opts strs t) = Some 0
  \/ test_all engine fuel opts strs t = None.
Proof.
  intros H. destruct (test_all_cases engine fuel opts strs t) as [u Hu].
  destruct (for_each strs (test_one engine fuel opts) u)
    as [[[rs|code] tr]|] eqn:E.
  - destruct Hu as [t' Ht]. left. now rewrite Ht.
  - exfalso. revert E. apply for_each_never_exits.
    intros x v code' v'. rewrite (@test_one_accept _ fuel _ x v _ H).
    destruct (collect regex fuel (flags opts) x); discriminate.
  - now right.
Qed.

Lemma collect_finishes regex fuel flgs inp :
  cursor_contract regex inp ->
  String.length inp + 1 <= fuel ->
  exists ms, collect regex fuel flgs inp = Some ms.
Proof.
  intros Hc Hf. unfold collect. destruct (JS.includes flgs "g").
  - destruct (@collect_global_bounded _ _ Hc _ Hf) as (ms & H & _). eauto.
  - destruct (fst (regex 0 inp)); eauto.
Qed.

Lemma max_length_bound l s : In s l -> String.length s <= max_length l.
Proof.
  induction l as [|x l IH]; simpl; [tauto|].
  intros [->|H]; [lia|]. specialize (IH H). lia.
Qed.

Lemma test_all_finishes engine fuel opts strs t regex :
  engine (pattern opts) (flags opts) = inl regex ->
  (forall inp, cursor_contract regex inp) ->
  max_length strs + 1 <= fuel ->
  exit_code (test_all engine fuel opts strs t) = Some 0.
Proof.
  intros H Hc Hf.
  destruct (test_all_cases engine fuel opts strs t) as [u Hu].
  destruct (@for_each_runs _ _ (test_one engine fuel opts) strs)
    with (t := u) as (rs & tr & E).
  - intros x v Hx. rewrite (@test_one_accept _ fuel _ x v _ H).
    destruct (@collect_finishes regex fuel (flags opts) x (Hc x)) as [ms Hms].
    + pose proof (@max_length_bound _ _ Hx). lia.
    + rewrite Hms. eauto.
  - rewrite E in Hu. destruct Hu as [t' Ht]. now rewrite Ht.
Qed.

(** ** main *)

Lemma main_run_options engine fs fuel argv opts t :
  parseArgs argv = Some opts ->
  main engine fs fuel argv t = run_options engine fs fuel opts t.
Proof. intros H. unfold main, bind, bounded. now rewrite H. Qed.

Lemma run_options_help engine fs fuel opts t :
  help opts = true ->
  run_options engine fs fuel opts t = Some (Exited 0, (t ++ [Out HELP])%list).
Proof. intros H. unfold run_options. now rewrite H. Qed.

Lemma run_options_missing_pattern engine fs fuel opts t :
  help opts = false -> JS.truthy (pattern opts) = false ->
  exit_code (run_options engine fs fuel opts t) = Some 1.
Proof. intros H Hp. unfold run_options. now rewrite H, Hp. Qed.

Lemma run_options_explain_only engine fs fuel opts t :
  help opts = false -> JS.truthy (pattern opts) = true ->
  explain_only opts = true ->
  exists parts,
    explainRegex (pattern opts) = Some parts
    /\ run_options engine fs fuel opts t
       = Some (Exited 0,
               (t ++ map Out (explain_lines (pattern opts) parts))%list).
Proof.
  intros H Hp He. destruct (explain_mode_run opts t) as (parts & Hparts & Hm).
  exists parts. split; [exact Hparts|].
  unfold run_options. rewrite H, Hp. simpl.
  assert (Hx : explain opts = true).
  { unfold explain_only in He. now destruct (explain opts). }
  rewrite Hx, He in Hm. now apply bind_exited.
Qed.

(** Past the pattern check, when explain mode does not end the run. *)
Lemma run_options_cases engine fs fuel opts t :
  help opts = false -> JS.truthy (pattern opts) = true ->
  explain_only opts = false ->
  exists t1,
    match strings_to_test fs opts with
    | inr msg =>
        exit_code (run_options engine fs fuel opts t) = Some 1
    | inl [] =>
        exit_code (run_options engine fs fuel opts t) = Some 1
    | inl (s :: rest) =>
        run_options engine fs fuel opts t
        = test_all engine fuel opts (s :: rest) t1
    end.
Proof.
  intros H Hp He. destruct (explain_mode_run opts t) as (parts & _ & Hm).
  rewrite He in Hm.
  assert (Hrun : exists t1, explain_mode opts t = Some (Running tt, t1)).
  { destruct (explain opts); eauto. }
  clear Hm. destruct Hrun as [t1 Hm]. exists t1.
  unfold run_options. rewrite H, Hp. simpl.
  rewrite (@bind_running _ _ _ _ _ _ _ Hm).
  pose proof (bulk_mode_run fs opts t1) as Hb.
  destruct (strings_to_test fs opts) as [[|s rest]|msg].
  - now rewrite (@bind_running _ _ _ _ _ _ _ Hb).
  - now rewrite (@bind_running _ _ _ _ _ _ _ Hb).
  - now rewrite (@bind_exited _ _ _ _ _ _ _ Hb).
Qed.

Lemma run_options_failure engine fs fuel opts t f :
  help opts = false ->
  failure_of engine fs opts = Some f ->
  exit_code (run_options engine fs fuel opts t) = Some 1.
Proof.
  intros H Hf. unfold failure_of in Hf.
  destruct (JS.truthy (pattern opts)) eqn:Hp; simpl in Hf;
    [|now apply run_options_missing_pattern].
  destruct (explain_only opts) eqn:He; [discriminate|].
  destruct (@run_options_cases engine fs fuel opts t H Hp He) as [t1 Hc].
  destruct (strings_to_test fs opts) as [[|s rest]|msg]; auto.
  rewrite Hc.
  destruct (engine (pattern opts) (flags opts)) as [regex|msg] eqn:E;
    [discriminate|].
  now apply test_all_reject with (msg := msg).
Qed.

Lemma run_options_no_failure engine fs fuel opts t :
  help opts = false ->
  failure_of engine fs opts = None ->
  exit_code (run_options engine fs fuel opts t) = Some 0
  \/ run_options engine fs fuel opts t = None.
Proof.
  intros H Hf. unfold failure_of in Hf.
  destruct (JS.truthy (pattern opts)) eqn:Hp; simpl in Hf; [|discriminate].
  destruct (explain_only opts) eqn:He.
  - destruct (@run_options_explain_only engine fs fuel opts t H Hp He)
      as (parts & _ & Hr).
    left. now rewrite Hr.
  - destruct (@run_options_cases engine fs fuel opts t H Hp He) as [t1 Hc].
    destruct (strings_to_test fs opts) as [[|s rest]|msg]; try discriminate.
    rewrite Hc.
    destruct (engine (pattern opts) (flags opts)) as [regex|msg] eqn:E;
      [|discriminate].
    now apply test_all_accept with (regex := regex).
Qed.

Lemma run_options_finishes engine fs opts t regex :
  help opts = false ->
  failure_of engine fs opts = None ->
  engine (pattern opts) (flags opts) = inl regex ->
  (forall inp, cursor_contract regex inp) ->
  exists fuel0, forall fuel,
    fuel0 <= fuel ->
    exit_code (run_options engine fs fuel opts t) = Some 0.
Proof.
  intros H Hf E Hc. unfold failure_of in Hf.
  destruct (JS.truthy (pattern opts)) eqn:Hp; simpl in Hf; [|discriminate].
  destruct (explain_only opts) eqn:He.
  - exists 0. intros fuel _.
    destruct (@run_options_explain_only engine fs fuel opts t H Hp He)
      as (parts & _ & Hr).
    now rewrite Hr.
  - destruct (strings_to_test fs opts) as [[|s rest]|msg] eqn:Es;
      try discriminate.
    exists (max_length (s :: rest) + 1). intros fuel Hfuel.
    destruct (@run_options_cases engine fs fuel opts t H Hp He) as [t1 Hcase].
    rewrite Es in Hcase. rewrite Hcase.
    now apply test_all_finishes with (regex := regex).
Qed.

(** C8. The exit code of a run is 0 or 1. With [--help] it is 0, whatever
    else is given, and only the help text is printed. Without it, the code
    is 1 exactly when the pattern is missing, or (unless explain mode has
    nothing to test) the bulk file cannot be read, there is no string to
    test, or the host rejects the pattern and flags; in explain mode with
    no test string and no bulk file the run prints the breakdown alone and
    exits 0. A run that fails in none of these ways and ends exits 0, and
    it does end when the host keeps the cursor contract. *)
Theorem main_exit_codes (engine : Engine) (fs : FileSystem) (fuel : nat)
  (argv : list string) (opts : Options) :
  parseArgs argv = Some opts ->
  let run := main engine fs fuel argv [] in
  (help opts = true -> exit_code run = Some 0 /\ trace_of run = [Out HELP])
  /\ (help opts = false ->
      forall f, failure_of engine fs opts = Some f -> exit_code run = Some 1)
  /\ (help opts = false -> JS.truthy (pattern opts) = true ->
      explain_only opts = true ->
      exit_code run = Some 0
      /\ exists parts,
           explainRegex (pattern opts) = Some parts
           /\ trace_of run = map Out (explain_lines (pattern opts) parts))
  /\ (exit_code run = Some 1 <->
      help opts = false /\ failure_of engine fs opts <> None)
  /\ (forall code, exit_code run = Some code -> code = 0 \/ code = 1)
  /\ (help opts = false -> failure_of engine fs opts = None ->
      forall regex,
        engine (pattern opts) (flags opts) = inl regex ->
        (forall inp, cursor_contract regex inp) ->
        exists fuel0, forall fuel',
          fuel0 <= fuel' ->
          exit_code (main engine fs fuel' argv []) = Some 0).
Proof.
  intros Hparse run. subst run.
  rewrite (@main_run_options engine fs fuel argv opts [] Hparse).
  assert (Hhelp : help opts = true ->
                  run_options engine fs fuel opts []
                  = Some (Exited 0, [Out HELP])).
  { intros H. now rewrite run_options_help. }
  assert (Hcodes : forall code,
             exit_code (run_options engine fs fuel opts []) = Some code ->
             code = 0 \/ code = 1).
  { intros code Hcode. destruct (help opts) eqn:H.
    - rewrite (Hhelp eq_refl) in Hcode. inversion Hcode. now left.
    - destruct (failure_of engine fs opts) as [f|] eqn:Hf.
      + rewrite (@run_options_failure engine fs fuel opts [] f H Hf) in Hcode.
        inversion Hcode. now right.
      + destruct (@run_options_no_failure engine fs fuel opts [] H Hf)
          as [H0|H0]; rewrite H0 in Hcode; [|discriminate].
        inversion Hcode. now left. }
  split; [|split; [|split; [|split; [|split]]]].
  - intros H. now rewrite (Hhelp H).
  - intros H f Hf. now apply run_options_failure with (f := f).
  - intros H Hp He.
    destruct (@run_options_explain_only engine fs fuel opts [] H Hp He)
      as (parts & Hparts & Hr).
    rewrite Hr. split; [reflexivity|]. exists parts. now split.
  - split.
    + intros H1. destruct (help opts) eqn:H.
      * rewrite (Hhelp eq_refl) in H1. discriminate.
      * split; [reflexivity|]. intros Hf.
        destruct (@run_options_no_failure engine fs fuel opts [] H Hf)
          as [H0|H0]; rewrite H0 in H1; discriminate.
    + intros [H Hf].
      destruct (failure_of engine fs opts) as [f|] eqn:E; [|congruence].
      now apply run_options_failure with (f := f).
  - exact Hcodes.
  - intros H Hf regex E Hc.
    destruct (@run_options_finishes engine fs opts [] regex H Hf E Hc)
      as [fuel0 H0].
    exists fuel0. intros fuel' Hle.
    rewrite (@main_run_options engine fs fuel' argv opts [] Hparse). now apply H0.
Qed.

Lemma main_exit_codes_witness :
  exit_code (main sample_engine sample_fs 10 ["--help"; "--flags"] [])
  = Some 0
  /\ exit_code (main sample_engine sample_fs 10 ["--json"] []) = Some 1
  /\ exit_code (main sample_engine sample_fs 10 ["^a"; "--explain"] [])
     = Some 0
  /\ exit_code (main sample_engine sample_fs 10 ["("; "x"] []) = Some 1
  /\ exit_code (main sample_engine sample_fs 10 ["a"; "--bulk"; "none.txt"] [])
     = Some 1
  /\ exit_code (main sample_engine sample_fs 10 ["a"; "--json"] []) = Some 1
  /\ exists fuel0, forall fuel',
       fuel0 <= fuel' ->
       exit_code
         (main sample_engine sample_fs fuel' ["a"; "--bulk"; "lines.txt"] [])
       = Some 0.
Proof.
  split.
  { destruct (@main_exit_codes sample_engine sample_fs 10
                ["--help"; "--flags"] _ eq_refl) as (H & _).
    destruct (H eq_refl) as [H0 _]. exact H0. }
  split.
  { destruct (@main_exit_codes sample_engine sample_fs 10
                ["--json"] _ eq_refl) as (_ & H & _).
    exact (H eq_refl MissingPattern eq_refl). }
  split.
  { destruct (@main_exit_codes sample_engine sample_fs 10
                ["^a"; "--explain"] _ eq_refl) as (_ & _ & H & _).
    destruct (H eq_refl eq_refl eq_refl) as [H0 _]. exact H0. }
  split.
  { destruct (@main_exit_codes sample_engine sample_fs 10
                ["("; "x"] _ eq_refl) as (_ & H & _).
    exact (H eq_refl InvalidPattern eq_refl). }
  split.
  { destruct (@main_exit_codes sample_engine sample_fs 10
                ["a"; "--bulk"; "none.txt"] _ eq_refl) as (_ & H & _).
    exact (H eq_refl BulkReadFailure eq_refl). }
  split.
  { destruct (@main_exit_codes sample_engine sample_fs 10
                ["a"; "--json"] _ eq_refl) as (_ & _ & _ & H & _).
    apply H. split; [reflexivity | discriminate]. }
  destruct (@main_exit_codes sample_engine sample_fs 10
              ["a"; "--bulk"; "lines.txt"] _ eq_refl)
    as (_ & _ & _ & _ & _ & H).
  exact (H eq_refl eq_refl (char_regex "a") eq_refl
           (char_regex_contract "a")).
Defined.

(** ** Structured mode *)

(** In structured mode the loop over the strings prints nothing and
    returns one result per string, in order. *)
Lemma for_each_json engine fuel opts regex :
  json opts = true ->
  engine (pattern opts) (flags opts) = inl regex ->
  forall strs u rs tr,
    for_each strs (test_one engine fuel opts) u = Some (Running rs, tr) ->
    tr = u /\ map input rs = strs.
Proof.
  intros Hj He strs.
  induction strs as [|x strs IH]; intros u rs tr H; simpl in H.
  - inversion H; subst. now split.
  - unfold bind at 1 in H.
    rewrite (@test_one_accept engine fuel opts x u regex He) in H.
    rewrite Hj in H.
    destruct (collect regex fuel (flags opts) x) as [ms|]; [|discriminate].
    cbv zeta in H. unfold bind at 1 in H.
    destruct (for_each strs (test_one engine fuel opts) u)
      as [[[bs|code] tb]|] eqn:E; try discriminate.
    destruct (IH _ _ _ E) as [Ht Hm].
    inversion H; subst. simpl. split; [reflexivity|]. now f_equal.
Qed.

(** What a finished run prints in structured mode: the banner, the
    document on one [console.log], and the closing empty line. *)
Lemma json_mode_trace engine fuel opts strs t st t' regex :
  json opts = true ->
  engine (pattern opts) (flags opts) = inl regex ->
  test_all engine fuel opts strs t = Some (st, t') ->
  exists rs,
    map input rs = strs
    /\ t' = (t ++ banner opts
             ++ [Out (json_document rs); Out EmptyString])%list.
Proof.
  intros Hj He H. unfold test_all in H.
  unfold bind at 1 in H. unfold console_log at 1 in H.
  unfold bind at 1 in H. unfold console_log at 1 in H.
  unfold bind at 1 in H.
  match type of H with
  | context [for_each strs ?b ?u] =>
      destruct (for_each strs b u) as [[[rs|code] tr]|] eqn:E
  end.
  - destruct (@for_each_json engine fuel opts regex Hj He _ _ _ _ E)
      as [Htr Hin].
    exists rs. split; [exact Hin|].
    rewrite Hj in H. rewrite andb_false_r in H.
    unfold bind, console_log, ret in H. inversion H; subst.
    unfold banner. rewrite <- !app_assoc. reflexivity.
  - exfalso. revert E. apply for_each_never_exits.
    intros x v code' v'. rewrite (@test_one_accept _ fuel _ x v _ He).
    destruct (collect regex fuel (flags opts) x); discriminate.
  - discriminate.
Qed.

(** The document of any list of results: its entries, its value, its
    text. *)
Lemma json_document_shape (allResults : list MatchResult) :
  Forall2 (fun r e =>
             JsonOut.input e = input r
             /\ JsonOut.matchCount e = List.length (matches r)
             /\ JsonOut.matchCount e = List.length (JsonOut.matches e)
             /\ JsonOut.matches e = matches r)
    allResults (jsonOut allResults)
  /\ val_of_jsonOut (jsonOut allResults)
     = VArray (map result_shape allResults)
  /\ Some (json_document allResults)
     = SerializeJSONProperty "  " EmptyString
         (VArray (map result_shape allResults))
  /\ no_escape_char (json_document allResults) = true.
Proof.
  assert (Hv : val_of_jsonOut (jsonOut allResults)
               = VArray (map result_shape allResults)).
  { unfold val_of_jsonOut, jsonOut. rewrite map_map. reflexivity. }
  repeat split.
  - clear Hv. induction allResults as [|r rs IH]; simpl; constructor; auto.
  - exact Hv.
  - unfold json_document, JSON_stringify. now rewrite Hv.
  - unfold json_document, JSON_stringify.
    destruct (SerializeJSONProperty _ _ _) as [s|] eqn:E; [|discriminate].
    simpl. apply serialize_no_escape in E; auto.
Qed.

(** The lines of the document: entries at two spaces, their members at
    four. *)
Lemma json_document_lines :
  json_document [] = "[]"
  /\ forall r rest, exists others matches_text,
       json_document (r :: rest)
       = "[" ++ nl ++ "  "
         ++ String.concat ("," ++ nl ++ "  ")
              (entry_text r matches_text :: others)
         ++ nl ++ "]".
Proof.
  split; [reflexivity|]. intros r rest. do 2 eexists. reflexivity.
Qed.

(** C7 on the code. In structured mode a finished run prints the two
    banner lines, one document and the closing empty line. The document is
    as claimed: an array with one object per tested string, in order; each
    object has the keys [input], [matchCount] and [matches] and no other
    (no [highlighted]), [matchCount] being the number of matches, and each
    match the keys [full], [index], [groups] and [namedGroups]; its text is
    that of [JSON.stringify] at a gap of two spaces, and the escape
    character that starts every color marker does not occur in it. But the
    document is not all that the run writes with [console.log]: the two
    banner lines come before it in structured mode too, and each of them
    holds the escape character, so color markers are not left out of what
    a structured run prints. *)
Theorem structured_output (engine : Engine) (fuel : nat) (opts : Options)
  (strs : list string) (t t' : list event) (st : status unit)
  (regex : RegExp) :
  json opts = true ->
  engine (pattern opts) (flags opts) = inl regex ->
  test_all engine fuel opts strs t = Some (st, t') ->
  exists rs,
    map input rs = strs
    /\ t' = (t ++ banner opts
             ++ [Out (json_document rs); Out EmptyString])%list
    /\ Forall2 (fun r e =>
                  JsonOut.input e = input r
                  /\ JsonOut.matchCount e = List.length (matches r)
                  /\ JsonOut.matchCount e = List.length (JsonOut.matches e)
                  /\ JsonOut.matches e = matches r) rs (jsonOut rs)
    /\ val_of_jsonOut (jsonOut rs) = VArray (map result_shape rs)
    /\ Some (json_document rs)
       = SerializeJSONProperty "  " EmptyString
           (VArray (map result_shape rs))
    /\ (rs = [] -> json_document rs = "[]")
    /\ (forall r rest, rs = r :: rest ->
        exists others matches_text,
          json_document rs
          = "[" ++ nl ++ "  "
            ++ String.concat ("," ++ nl ++ "  ")
                 (entry_text r matches_text :: others)
            ++ nl ++ "]")
    /\ no_escape_char (json_document rs) = true
    /\ List.length (banner opts) = 2
    /\ Forall (fun e => exists line,
                  e = Out line /\ no_escape_char line = false)
         (banner opts).
Proof.
  intros Hj He H.
  destruct (@json_mode_trace engine fuel opts strs t st t' regex Hj He H)
    as (rs & Hin & Ht).
  exists rs. destruct (json_document_shape rs) as (H1 & H2 & H3 & H4).
  destruct json_document_lines as [L0 L1].
  repeat split; auto.
  - now intros ->.
  - intros r rest ->. apply L1.
  - unfold banner. repeat constructor; eexists; (split; [reflexivity|]);
      reflexivity.
Qed.

Lemma structured_output_witness :
  exists rs,
    map input rs = ["banana"; "xyz"]
    /\ trace_of
         (main sample_engine sample_fs 9 ["a"; "banana"; "xyz"; "--json"] [])
       = (banner {| help := false; json := true; pattern := "a";
                    strings := ["banana"; "xyz"]; flags := "g";
                    bulk := None; explain := false |}
          ++ [Out (json_document rs); Out EmptyString])%list
    /\ no_escape_char (json_document rs) = true
    /\ Forall (fun e => exists line,
                  e = Out line /\ no_escape_char line = false)
         (banner {| help := false; json := true; pattern := "a";
                    strings := ["banana"; "xyz"]; flags := "g";
                    bulk := None; explain := false |}).
Proof.
  destruct (@structured_output sample_engine 9
              {| help := false; json := true; pattern := "a";
                 strings := ["banana"; "xyz"]; flags := "g";
                 bulk := None; explain := false |}
              ["banana"; "xyz"] [] _ _ (char_regex "a")
              eq_refl eq_refl eq_refl)
    as (rs & H1 & H2 & _ & _ & _ & _ & _ & H8 & _ & H10).
  exists rs. split; [exact H1|]. split; [exact H2|].
  split; [exact H8 | exact H10].
Defined.

(** ** The scenarios of the specification *)

Example scenario_explain :
  option_map (map token)
    (explainRegex ("^" ++ bs ++ "d{3}-" ++ bs ++ "d{4}$"))
  = Some ["^"; bs ++ "d"; "{3}"; "-"; bs ++ "d"; "{4}"; "$"].
Proof. reflexivity. Qed.

Example scenario_no_strings :
  exit_code (main sample_engine sample_fs 9 ["a"] []) = Some 1.
Proof. reflexivity. Qed.

(** The bound of one match per position, the end included, is reached. *)
Example empty_matches_everywhere :
  option_map (List.length (A := MatchRecord))
    (collect empty_regex 4 "g" "abc") = Some 4.
Proof. reflexivity. Qed.

(* ================================================================= *)
(** * Further properties of the code *)

(** ** parseArgs as a scan of the list *)

Lemma parse_body_shift x argv i o :
  parse_body (x :: argv) (S i) o
  = (S (fst (parse_body argv i o)), snd (parse_body argv i o)).
Proof.
  unfold parse_body.
  change (argAt (x :: argv) (S i)) with (argAt argv i).
  change (argAt (x :: argv) (S i + 1)) with (argAt argv (i + 1)).
  cbv zeta.
  repeat (match goal with
          | |- context [if ?b then _ else _] => destruct b
          end; cbv iota).
  all: reflexivity.
Qed.

(** Two loops whose turns correspond give corresponding results within
    the same number of turns. *)
Lemma iterate_simulation (S1 S2 R1 R2 : Type)
  (step1 : S1 -> S1 + R1) (step2 : S2 -> S2 + R2)
  (rel : S1 -> S2 -> Prop) (f : R2 -> R1) :
  (forall s1 s2, rel s1 s2 ->
     match step1 s1, step2 s2 with
     | inl a, inl b => rel a b
     | inr r1, inr r2 => r1 = f r2
     | _, _ => False
     end) ->
  forall fuel s1 s2, rel s1 s2 ->
    iterate step1 fuel s1 = option_map f (iterate step2 fuel s2).
Proof.
  intros Hsim fuel.
  induction fuel as [|fuel IH]; intros s1 s2 Hrel; cbn [iterate];
    specialize (Hsim s1 s2 Hrel);
    destruct (step1 s1) as [a|r1], (step2 s2) as [b|r2];
    try contradiction; simpl; auto.
  - now subst.
  - now subst.
Qed.

Lemma parse_loop_shift x argv fuel i o :
  iterate (parse_step (x :: argv)) fuel (S i, o)
  = iterate (parse_step argv) fuel (i, o).
Proof.
  rewrite (@iterate_simulation _ _ _ _
             (parse_step (x :: argv)) (parse_step argv)
             (fun s1 s2 => s1 = (S (fst s2), snd s2)) (fun r => r)
           ) with (s2 := (i, o)).
  - now destruct (iterate (parse_step argv) fuel (i, o)).
  - intros s1 [j oj] ->. cbn [fst snd]. unfold parse_step.
    change (S j <? List.length (x :: argv))%nat
      with (j <? List.length argv)%nat.
    destruct (j <? List.length argv)%nat; [|reflexivity].
    rewrite parse_body_shift. reflexivity.
  - reflexivity.
Qed.

(** The loop ends from every position and with every options value. *)
Lemma parse_loop_total argv fuel : forall i o,
  List.length argv - i <= fuel ->
  exists r, iterate (parse_step argv) fuel (i, o) = Some r.
Proof.
  intros i o Hf.
  apply iterate_terminates
    with (Inv := fun _ => True) (mu := fun st => List.length argv - fst st);
    [|exact I|simpl; lia].
  intros [j oj] s' _ H. unfold parse_step in H.
  destruct (Nat.ltb_spec j (List.length argv)) as [Hj|Hj]; [|discriminate].
  inversion H; subst. pose proof (parse_body_forward argv j oj).
  simpl. split; [exact I | lia].
Qed.

Lemma parse_loop_list n : forall argv o,
  List.length argv <= n ->
  iterate (parse_step argv) (List.length argv) (0, o)
  = Some (parse_list argv o).
Proof.
  induction n as [|n IH]; intros argv o Hn.
  - destruct argv; [reflexivity | simpl in Hn; lia].
  - destruct argv as [|a rest]; [reflexivity|].
    simpl in Hn.
    assert (Hone : forall o',
               iterate (parse_step (a :: rest)) (List.length rest) (1, o')
               = Some (parse_list rest o')).
    { intros o'. rewrite parse_loop_shift. apply IH. lia. }
    assert (Htwo : forall v rest' o',
               rest = v :: rest' ->
               iterate (parse_step (a :: rest)) (List.length rest) (2, o')
               = Some (parse_list rest' o')).
    { intros v rest' o' ->. rewrite !parse_loop_shift.
      apply iterate_more with (fuel := List.length rest');
        [apply IH; simpl in Hn; lia | simpl; lia]. }
    cbn [iterate List.length]. unfold parse_step at 1.
    change (0 <? List.length (a :: rest))%nat with true. cbv iota.
    unfold parse_body. cbv zeta.
    change (argAt (a :: rest) 0) with a.
    cbn [parse_list].
    destruct ((a =? "--help") || (a =? "-h")); [apply Hone|].
    destruct (a =? "--json"); [apply Hone|].
    destruct (a =? "--explain"); [apply Hone|].
    destruct rest as [|v rest'].
    + change (argAt [a] (0 + 1)) with EmptyString. cbn [JS.truthy].
      rewrite !andb_false_r. fold (positional a o).
      unfold positional.
      destruct (negb _ && _); [apply Hone|].
      destruct (JS.truthy _ && _); apply Hone.
    + change (argAt (a :: v :: rest') (0 + 1)) with v.
      destruct ((a =? "--flags") && JS.truthy v);
        [now apply Htwo with (v := v)|].
      destruct ((a =? "--bulk") && JS.truthy v);
        [now apply Htwo with (v := v)|].
      unfold positional.
      destruct (negb _ && _); [apply Hone|].
      destruct (JS.truthy _ && _); apply Hone.
Qed.

(** X1. The index loop of [parseArgs], with its look at the next argument
    and its double step, is the scan of the argument list from the left:
    a switch or a positional argument is handled and the scan goes on
    with the rest; [--flags] and [--bulk] followed by a non-empty argument
    take it as their value and the scan goes on after it. *)
Theorem parseArgs_scan (argv : list string) :
  parseArgs argv = Some (parse_list argv default_options).
Proof. unfold parseArgs. now apply parse_loop_list with (n := List.length argv). Qed.

(** ** parseArgs on vectors without an option that takes a value *)

Lemma parse_list_no_value a rest o :
  a <> "--flags" -> a <> "--bulk" ->
  (a =? "--help") || (a =? "-h") = false ->
  (a =? "--json") = false -> (a =? "--explain") = false ->
  parse_list (a :: rest) o = parse_list rest (positional a o).
Proof.
  intros Hf Hb H1 H2 H3. cbn [parse_list]. rewrite H1, H2, H3.
  apply String.eqb_neq in Hf, Hb. rewrite Hf, Hb.
  now destruct rest.
Qed.

Lemma parse_list_plain args :
  ~ In "--flags" args -> ~ In "--bulk" args ->
  forall o,
    help (parse_list args o) = help o || existsb is_help_switch args
    /\ json (parse_list args o)
       = json o || existsb (fun a => a =? "--json") args
    /\ explain (parse_list args o)
       = explain o || existsb (fun a => a =? "--explain") args
    /\ flags (parse_list args o) = flags o
    /\ bulk (parse_list args o) = bulk o
    /\ pattern (parse_list args o)
       = (if JS.truthy (pattern o) then pattern o
          else hd EmptyString (drop_empty (positionals args)))
    /\ strings (parse_list args o)
       = (strings o
            ++ (if JS.truthy (pattern o) then positionals args
                else tl (drop_empty (positionals args))))%list.
Proof.
  induction args as [|a rest IH]; intros Hf Hb o.
  - simpl. rewrite !orb_false_r.
    destruct (JS.truthy (pattern o)) eqn:P; rewrite app_nil_r;
      repeat split; auto.
    destruct (pattern o); [reflexivity | discriminate].
  - assert (Hf' : ~ In "--flags" rest) by (intros H; apply Hf; now right).
    assert (Hb' : ~ In "--bulk" rest) by (intros H; apply Hb; now right).
    assert (Haf : a <> "--flags") by (intros ->; apply Hf; now left).
    assert (Hab : a <> "--bulk") by (intros ->; apply Hb; now left).
    specialize (IH Hf' Hb').
    unfold positionals in *. cbn [existsb filter]. unfold is_help_switch at 1.
    destruct ((a =? "--help") || (a =? "-h")) eqn:E1.
    { assert (Ha : a = "--help" \/ a = "-h").
      { apply orb_true_iff in E1.
        destruct E1 as [E|E]; apply String.eqb_eq in E; auto. }
      cbn [parse_list]. rewrite E1.
      destruct (IH (with_help o)) as (I1 & I2 & I3 & I4 & I5 & I6 & I7).
      rewrite I1, I2, I3, I4, I5, I6, I7.
      destruct Ha as [-> | ->]; simpl; rewrite !orb_true_r; repeat split. }
    destruct (a =? "--json") eqn:E2.
    { apply String.eqb_eq in E2. subst a. cbn [parse_list]. simpl.
      destruct (IH (with_json o)) as (I1 & I2 & I3 & I4 & I5 & I6 & I7).
      rewrite I1, I2, I3, I4, I5, I6, I7. simpl.
      rewrite !orb_true_r. repeat split. }
    destruct (a =? "--explain") eqn:E3.
    { apply String.eqb_eq in E3. subst a. cbn [parse_list]. simpl.
      destruct (IH (with_explain o)) as (I1 & I2 & I3 & I4 & I5 & I6 & I7).
      rewrite I1, I2, I3, I4, I5, I6, I7. simpl.
      rewrite !orb_true_r. repeat split. }
    rewrite (@parse_list_no_value a rest o Haf Hab E1 E2 E3).
    destruct (IH (positional a o)) as (I1 & I2 & I3 & I4 & I5 & I6 & I7).
    rewrite I1, I2, I3, I4, I5, I6, I7. clear IH I1 I2 I3 I4 I5 I6 I7.
    unfold positional. simpl.
    destruct (JS.truthy (pattern o)) eqn:P;
      destruct (JS.startsWith a "-") eqn:D; simpl; try rewrite P;
      try (repeat split; reflexivity).
    + rewrite <- app_assoc. repeat split.
    + destruct a as [|ch a']; simpl; repeat split.
Qed.

(** X2. On an argument vector without [--flags] and [--bulk], [parseArgs]
    returns: each switch on exactly when it occurs, the default flags and
    no bulk path; as pattern the first non-empty argument that does not
    start with a dash (an empty argument before it is dropped, so the
    empty pattern cannot be given), and as test strings all later
    arguments that do not start with a dash, in order, empty ones
    included. *)
Theorem parseArgs_plain (argv : list string) :
  ~ In "--flags" argv -> ~ In "--bulk" argv ->
  parseArgs argv
  = Some {| help := existsb is_help_switch argv;
            json := existsb (fun a => a =? "--json") argv;
            pattern := hd EmptyString (drop_empty (positionals argv));
            strings := tl (drop_empty (positionals argv));
            flags := "g";
            bulk := None;
            explain := existsb (fun a => a =? "--explain") argv |}.
Proof.
  intros Hf Hb. unfold parseArgs.
  rewrite parse_loop_list with (n := List.length argv) by lia. f_equal.
  destruct (@parse_list_plain argv Hf Hb default_options)
    as (I1 & I2 & I3 & I4 & I5 & I6 & I7).
  destruct (parse_list argv default_options); simpl in *. now subst.
Qed.

Lemma parseArgs_plain_witness :
  parseArgs [EmptyString; "-x"; "a+"; "--json"; EmptyString; "s"; "-h"]
  = Some {| help := true; json := true; pattern := "a+";
            strings := [EmptyString; "s"]; flags := "g"; bulk := None;
            explain := false |}.
Proof.
  apply (@parseArgs_plain
           [EmptyString; "-x"; "a+"; "--json"; EmptyString; "s"; "-h"]).
  - simpl. intros H. repeat (destruct H as [H|H]; [discriminate|]). exact H.
  - simpl. intros H. repeat (destruct H as [H|H]; [discriminate|]). exact H.
Defined.

(** ** Where the parsed options come from *)

Lemma argAt_In argv i : i < List.length argv -> In (argAt argv i) argv.
Proof. intros H. now apply nth_In. Qed.

Lemma parse_body_origin argv i o :
  i < List.length argv ->
  parse_origin argv o -> parse_origin argv (snd (parse_body argv i o)).
Proof.
  intros Hi (Hp & Hs & Hf & Hb & Hh & Hj & He).
  pose proof (@argAt_In argv i Hi) as Hin.
  unfold parse_body. cbv zeta.
  destruct (_ || _) eqn:E0.
  { repeat split; auto. intros _. apply orb_true_iff in E0.
    destruct E0 as [E|E]; apply String.eqb_eq in E; rewrite E in Hin; auto. }
  destruct (_ =? "--json") eqn:E1.
  { repeat split; auto. intros _. apply String.eqb_eq in E1.
    now rewrite E1 in Hin. }
  destruct (_ =? "--explain") eqn:E2.
  { repeat split; auto. intros _. apply String.eqb_eq in E2.
    now rewrite E2 in Hin. }
  destruct ((_ =? "--flags") && _) eqn:E3.
  { apply andb_true_iff in E3. destruct E3 as [Ea Ev].
    apply String.eqb_eq in Ea.
    repeat split; auto. right. simpl. split.
    - intros Hz. rewrite Hz in Ev. discriminate.
    - exists i. now split. }
  destruct ((_ =? "--bulk") && _) eqn:E4.
  { apply andb_true_iff in E4. destruct E4 as [Ea Ev].
    apply String.eqb_eq in Ea.
    repeat split; auto. right. simpl.
    exists (argAt argv (i + 1)), i. repeat split; auto.
    all: intros Hz; rewrite Hz in Ev; discriminate. }
  destruct (negb (JS.truthy _) && _).
  { repeat split; auto; try now right. }
  destruct (JS.truthy _ && _).
  { repeat split; auto.
    all: simpl; apply Forall_app; split; [exact Hs | now constructor]. }
  repeat split; auto.
Qed.

(** X3. Whatever [parseArgs] returns comes from the argument vector: the
    pattern is empty or one of the arguments, every test string is one of
    the arguments, a switch is on only if it occurs; the flags are the
    default [g] or the non-empty argument that follows a [--flags], and a
    bulk path is a non-empty argument that follows a [--bulk] (an empty
    value is never taken). *)
Theorem parseArgs_origin (argv : list string) (opts : Options) :
  parseArgs argv = Some opts -> parse_origin argv opts.
Proof.
  unfold parseArgs. intros H.
  apply iterate_invariant
    with (Inv := fun st => parse_origin argv (snd st))
         (Post := parse_origin argv) in H; auto.
  - intros [i o] s' HI Hs. unfold parse_step in Hs.
    destruct (Nat.ltb_spec i (List.length argv)) as [Hi|Hi]; [|discriminate].
    inversion Hs; subst. now apply parse_body_origin.
  - intros [i o] r HI Hs. unfold parse_step in Hs.
    destruct (i <? List.length argv)%nat; [discriminate|].
    now inversion Hs; subst.
  - simpl. repeat split; auto; try discriminate.
Qed.

Lemma parseArgs_origin_witness :
  parse_origin ["--flags"; EmptyString; "--bulk"; "f.txt"; "p"]
    {| help := false; json := false; pattern := "p"; strings := [];
       flags := "g"; bulk := Some "f.txt"; explain := false |}.
Proof.
  apply (@parseArgs_origin ["--flags"; EmptyString; "--bulk"; "f.txt"; "p"]).
  reflexivity.
Defined.

(** ** The explainer reads only what is left of the pattern *)

Lemma append_length s t :
  String.length (s ++ t) = String.length s + String.length t.
Proof. induction s as [|ch s IH]; simpl; congruence. Qed.

Lemma substring_suffix pre s a n :
  substring (String.length pre + a) n (pre ++ s) = substring a n s.
Proof. induction pre as [|ch pre IH]; simpl; auto. Qed.

Lemma substring_prefix a b : substring 0 (String.length a) (a ++ b) = a.
Proof.
  induction a as [|ch a IH]; simpl.
  - now rewrite substring_zero.
  - now rewrite IH.
Qed.

Lemma charAt_suffix pre s i :
  JS.charAt (pre ++ s) (String.length pre + i) = JS.charAt s i.
Proof. apply substring_suffix. Qed.

Lemma slice_suffix pre s a b :
  JS.slice (pre ++ s) (String.length pre + a) (String.length pre + b)
  = JS.slice s a b.
Proof.
  unfold JS.slice.
  replace (String.length pre + b - (String.length pre + a)) with (b - a)
    by lia.
  apply substring_suffix.
Qed.

Lemma indexOf_suffix pre s c i :
  JS.indexOf (pre ++ s) c (String.length pre + i)
  = option_map (Nat.add (String.length pre)) (JS.indexOf s c i).
Proof.
  induction pre as [|ch pre IH]; simpl.
  - now destruct (JS.indexOf s c i).
  - rewrite IH. now destruct (JS.indexOf s c i).
Qed.

(** A pair with its position moved by [n]. *)
Lemma explain_escape_suffix pre s i :
  explain_escape (pre ++ s) (String.length pre + i)
  = (fst (explain_escape s i), String.length pre + snd (explain_escape s i)).
Proof.
  unfold explain_escape.
  rewrite <- !Nat.add_assoc, charAt_suffix.
  now destruct (lookup _ escapes).
Qed.

Lemma explain_class_suffix pre s i :
  explain_class (pre ++ s) (String.length pre + i)
  = (fst (explain_class s i), String.length pre + snd (explain_class s i)).
Proof.
  unfold explain_class.
  rewrite indexOf_suffix, append_length.
  rewrite <- (Nat.add_assoc _ i 1), charAt_suffix.
  destruct (JS.indexOf s "]" i) as [e|]; cbn [option_map fst snd];
    rewrite <- !Nat.add_assoc, slice_suffix; reflexivity.
Qed.

Lemma explain_group_suffix pre s i :
  explain_group (pre ++ s) (String.length pre + i)
  = (fst (explain_group s i), String.length pre + snd (explain_group s i)).
Proof.
  unfold explain_group.
  rewrite <- !Nat.add_assoc, !slice_suffix, !charAt_suffix, indexOf_suffix.
  repeat (match goal with
          | |- context [if ?b then _ else _] => destruct b
          end; cbv iota; try reflexivity).
  destruct (JS.indexOf s ">" (i + 3)) as [e|]; cbn [option_map fst snd];
    [|reflexivity].
  rewrite <- !Nat.add_assoc, slice_suffix. reflexivity.
Qed.

Lemma explain_quant_suffix pre s i :
  explain_quant (pre ++ s) (String.length pre + i)
  = (fst (explain_quant s i), String.length pre + snd (explain_quant s i)).
Proof.
  unfold explain_quant.
  rewrite indexOf_suffix, charAt_suffix.
  destruct (JS.indexOf s "}" i) as [e|]; cbn [option_map fst snd].
  - rewrite <- !Nat.add_assoc, !slice_suffix. reflexivity.
  - now rewrite <- Nat.add_assoc.
Qed.

Lemma explain_body_suffix pre s i :
  explain_body (pre ++ s) (String.length pre + i)
  = (fst (explain_body s i), String.length pre + snd (explain_body s i)).
Proof.
  unfold explain_body. rewrite charAt_suffix. cbv zeta.
  repeat (match goal with
          | |- context [if ?b then _ else _] => destruct b
          end; cbv iota;
          first [ apply explain_escape_suffix
                | apply explain_class_suffix
                | apply explain_group_suffix
                | apply explain_quant_suffix
                | cbn [fst snd]; now rewrite <- Nat.add_assoc
                | idtac ]).
Qed.

(** The parts pushed before do not matter to the parts pushed after. *)
Lemma explain_loop_accumulator s fuel : forall i acc,
  iterate (explain_step s) fuel (i, acc)
  = option_map (app acc) (iterate (explain_step s) fuel (i, [])).
Proof.
  intros i acc.
  apply (@iterate_simulation _ _ _ _ (explain_step s) (explain_step s)
           (fun s1 s2 => fst s1 = fst s2 /\ snd s1 = (acc ++ snd s2)%list)
           (app acc)).
  - intros [j a1] [j' a2] [Hj Ha]; simpl in Hj, Ha. subst j' a1.
    unfold explain_step.
    destruct (j <? String.length s)%nat; [|reflexivity].
    destruct (explain_body s j) as [part j']. simpl.
    split; [reflexivity | now rewrite app_assoc].
  - simpl. now rewrite app_nil_r.
Qed.

(** The scan of [pre ++ s] from the end of [pre] is the scan of [s]. *)
Lemma explain_loop_suffix pre s fuel i acc :
  iterate (explain_step (pre ++ s)) fuel (String.length pre + i, acc)
  = option_map (app acc) (iterate (explain_step s) fuel (i, [])).
Proof.
  rewrite <- explain_loop_accumulator.
  rewrite (@iterate_simulation _ _ _ _
             (explain_step (pre ++ s)) (explain_step s)
             (fun s1 s2 => s1 = (String.length pre + fst s2, snd s2))
             (fun r => r)) with (s2 := (i, acc)).
  - now destruct (iterate (explain_step s) fuel (i, acc)).
  - intros s1 [j a] ->. cbn [fst snd]. unfold explain_step.
    rewrite append_length.
    destruct (Nat.ltb_spec j (String.length s)) as [Hj|Hj].
    + destruct (Nat.ltb_spec (String.length pre + j)
                  (String.length pre + String.length s)); [|lia].
      rewrite explain_body_suffix.
      destruct (explain_body s j) as [part j']. reflexivity.
    + destruct (Nat.ltb_spec (String.length pre + j)
                  (String.length pre + String.length s)); [lia|].
      reflexivity.
  - reflexivity.
Qed.

Lemma explain_loop_total s fuel i acc :
  String.length s - i <= fuel ->
  exists parts, iterate (explain_step s) fuel (i, acc) = Some parts.
Proof.
  intros Hf.
  apply iterate_terminates
    with (Inv := fun _ => True) (mu := fun st => String.length s - fst st);
    [|exact I|simpl; lia].
  intros [j a] s' _ H. unfold explain_step in H.
  destruct (Nat.ltb_spec j (String.length s)) as [Hj|Hj]; [|discriminate].
  destruct (@explain_body_spans s j Hj) as [Hlt _].
  destruct (explain_body s j) as [part j']. inversion H; subst.
  simpl in *. split; [exact I | lia].
Qed.

Lemma string_split_at s n :
  n <= String.length s ->
  s = substring 0 n s ++ JS.sliceFrom s n
  /\ String.length (substring 0 n s) = n.
Proof.
  revert n. induction s as [|ch s IH]; intros n Hn; simpl in Hn.
  - assert (n = 0) by lia. subst. now split.
  - destruct n as [|n].
    + split; [|reflexivity]. unfold JS.sliceFrom. simpl.
      f_equal. symmetry. now apply substring_all.
    + destruct (IH n) as [H1 H2]; [lia|].
      unfold JS.sliceFrom in *. simpl. split; [|now rewrite H2].
      f_equal. exact H1.
Qed.

(** X4. The explainer keeps no memory of what it has read: for a pattern
    that is not empty, [explainRegex] returns the part of its first turn
    followed by what [explainRegex] returns on the rest of the pattern
    after that part. *)
Theorem explainRegex_first_then_rest (pat : string) :
  pat <> EmptyString ->
  explainRegex pat
  = option_map (cons (fst (explain_body pat 0)))
      (explainRegex (JS.sliceFrom pat (snd (explain_body pat 0)))).
Proof.
  intros Hne.
  assert (Hlen : 0 < String.length pat) by (destruct pat; simpl; [easy | lia]).
  unfold explainRegex at 1.
  destruct (String.length pat) as [|n] eqn:En; [lia|].
  cbn [iterate]. unfold explain_step at 1. rewrite En.
  change (0 <? S n)%nat with true. cbv iota.
  destruct (@explain_body_spans pat 0) as [Hfwd _]; [lia|].
  destruct (explain_body pat 0) as [part k] eqn:Eb. cbn [fst snd] in *.
  cbn [app].
  destruct (Nat.le_gt_cases k (String.length pat)) as [Hk|Hk].
  - destruct (@string_split_at pat k Hk) as [Hsplit Hpre].
    set (pre := substring 0 k pat) in *. set (rest := JS.sliceFrom pat k) in *.
    assert (Hrest : String.length rest <= n).
    { assert (String.length pat = k + String.length rest).
      { rewrite Hsplit at 1. rewrite append_length. now rewrite Hpre. }
      lia. }
    rewrite Hsplit at 1.
    replace k with (String.length pre + 0) at 1 by lia.
    rewrite explain_loop_suffix.
    destruct (explainRegex_total rest) as [parts Hparts].
    rewrite Hparts.
    unfold explainRegex in Hparts.
    now rewrite (@iterate_more _ _ _ _ n _ _ Hparts Hrest).
  - assert (Hrest : JS.sliceFrom pat k = EmptyString).
    { unfold JS.sliceFrom. apply substring_beyond. lia. }
    rewrite Hrest. destruct n; cbn [iterate]; unfold explain_step; rewrite En.
    + destruct (Nat.ltb_spec k 1); [lia | reflexivity].
    + destruct (Nat.ltb_spec k (S (S n))); [lia | reflexivity].
Qed.

Lemma explainRegex_first_then_rest_witness :
  explainRegex "[a-z]+x"
  = option_map (cons (fst (explain_body "[a-z]+x" 0)))
      (explainRegex (JS.sliceFrom "[a-z]+x" (snd (explain_body "[a-z]+x" 0)))).
Proof. apply explainRegex_first_then_rest. discriminate. Defined.

(** The first turn and then the rest, for a pattern cut where the first
    turn ends. *)
Lemma explainRegex_split pre rest part :
  pre <> EmptyString ->
  explain_body (pre ++ rest) 0 = (part, String.length pre) ->
  explainRegex (pre ++ rest) = option_map (cons part) (explainRegex rest).
Proof.
  intros Hne Hb.
  assert (Hpre : 0 < String.length pre) by (destruct pre; simpl; [easy | lia]).
  unfold explainRegex at 1. rewrite append_length.
  destruct (String.length pre) as [|n] eqn:En; [lia|].
  cbn [Nat.add iterate]. unfold explain_step at 1.
  rewrite append_length, En.
  change (0 <? S n + String.length rest)%nat with true. cbv iota.
  rewrite Hb. cbn [app].
  replace (S n) with (String.length pre + 0) at 1 by lia.
  rewrite explain_loop_suffix.
  destruct (explainRegex_total rest) as [parts Hparts]. rewrite Hparts.
  unfold explainRegex in Hparts.
  rewrite (@iterate_more _ _ _ _ (n + String.length rest) _ _ Hparts);
    [reflexivity | lia].
Qed.

(** The turn at the end of [pre] in [pre ++ s] is the first turn on [s]. *)
Lemma explain_body_at pre s :
  explain_body (pre ++ s) (String.length pre)
  = (fst (explain_body s 0), String.length pre + snd (explain_body s 0)).
Proof.
  rewrite <- (explain_body_suffix pre s 0). now rewrite Nat.add_0_r.
Qed.

Lemma substring_length s : forall a n,
  String.length (substring a n s) = Nat.min n (String.length s - a).
Proof.
  induction s as [|ch s IH]; intros a n.
  - rewrite substring_empty. simpl. lia.
  - destruct a as [|a].
    + destruct n as [|n]; simpl; [reflexivity|]. rewrite IH. lia.
    + simpl. apply IH.
Qed.

(** X5. The explainer returns at most one part per character of the
    pattern, and no part has an empty token. *)
Theorem explainRegex_parts_bound (pat : string) :
  exists parts,
    explainRegex pat = Some parts
    /\ List.length parts <= String.length pat
    /\ Forall (fun p => token p <> EmptyString) parts.
Proof.
  destruct (explainRegex_total pat) as [parts H]. exists parts.
  split; [exact H|]. unfold explainRegex in H.
  apply iterate_invariant
    with (Inv := fun st =>
                   List.length (snd st) <= String.length pat
                   /\ List.length (snd st) <= fst st
                   /\ Forall (fun p => token p <> EmptyString) (snd st))
         (Post := fun parts =>
                    List.length parts <= String.length pat
                    /\ Forall (fun p => token p <> EmptyString) parts)
    in H; auto.
  - intros [i ps] s' (H1 & H2 & H3) Hs. unfold explain_step in Hs.
    destruct (Nat.ltb_spec i (String.length pat)) as [Hi|Hi]; [|discriminate].
    destruct (@explain_body_spans pat i Hi) as [Hfwd Htok].
    destruct (explain_body pat i) as [part i']. inversion Hs; subst.
    cbn [fst snd] in *. rewrite length_app. cbn [List.length].
    split; [lia|]. split; [lia|].
    apply Forall_app. split; [exact H3|]. constructor; [|constructor].
    intros Hz. apply (f_equal String.length) in Htok.
    rewrite Hz, substring_length in Htok. simpl in Htok. lia.
  - intros [i ps] r (H1 & H2 & H3) Hs. unfold explain_step in Hs.
    destruct (i <? String.length pat)%nat.
    + destruct (explain_body pat i); discriminate.
    + inversion Hs; subst. now split.
  - simpl. repeat split; try lia. constructor.
Qed.

(** ** Patterns of literal characters *)

Lemma explain_first_literal ch s :
  is_meta (String ch EmptyString) = false ->
  explain_body (String ch s) 0 = (literal (String ch EmptyString), 1).
Proof.
  intros H.
  assert (E : JS.charAt (String ch s) 0 = String ch EmptyString).
  { unfold JS.charAt. simpl. now rewrite substring_zero. }
  pose proof (@explain_body_literal (String ch s) 0) as L.
  rewrite E in L. exact (L H).
Qed.

(** X6. A pattern in which no character opens a branch of its own is
    explained character by character: one literal part for each, in
    order. *)
Theorem explainRegex_literals (pat : string) :
  no_meta pat = true -> explainRegex pat = Some (literal_parts pat).
Proof.
  induction pat as [|ch pat IH]; intros H; [reflexivity|].
  simpl in H. apply andb_true_iff in H. destruct H as [Hc Hp].
  apply negb_true_iff in Hc.
  change (String ch pat) with (String ch EmptyString ++ pat).
  rewrite explainRegex_split with (part := literal (String ch EmptyString)).
  - rewrite (IH Hp). reflexivity.
  - discriminate.
  - now apply explain_first_literal.
Qed.

Lemma explainRegex_literals_witness :
  explainRegex "ab}c]" = Some (literal_parts "ab}c]").
Proof. apply explainRegex_literals. reflexivity. Defined.

(** ** The branches of one turn, on patterns given by their pieces *)

Lemma indexOf_at_first c a b :
  JS.includes a c = false ->
  JS.indexOf (a ++ String c b) c 0 = Some (String.length a).
Proof.
  induction a as [|d a IH]; intros H; simpl.
  - now rewrite Ascii.eqb_refl.
  - rewrite includes_cons in H. apply orb_false_iff in H.
    destruct H as [Hd Ha]. rewrite Hd, (IH Ha). reflexivity.
Qed.

Lemma indexOf_absent c s : JS.includes s c = false -> JS.indexOf s c 0 = None.
Proof. unfold JS.includes. now destruct (JS.indexOf s c 0). Qed.

Lemma charAt_first ch s : JS.charAt (String ch s) 0 = String ch EmptyString.
Proof. unfold JS.charAt. simpl. now rewrite substring_zero. Qed.

Lemma charAt_head_startsWith s c :
  (JS.charAt s 0 =? String c EmptyString) = JS.startsWith s c.
Proof.
  destruct s as [|d s]; [reflexivity|].
  rewrite charAt_first. simpl. now destruct (d =? c)%char.
Qed.

Lemma explain_body_class pat :
  JS.charAt pat 0 = "[" -> explain_body pat 0 = explain_class pat 0.
Proof. intros E. unfold explain_body. now rewrite E. Qed.

Lemma explain_body_group pat :
  JS.charAt pat 0 = "(" -> explain_body pat 0 = explain_group pat 0.
Proof. intros E. unfold explain_body. now rewrite E. Qed.

Lemma explain_body_escape pat :
  JS.charAt pat 0 = bs -> explain_body pat 0 = explain_escape pat 0.
Proof. intros E. unfold explain_body. now rewrite E. Qed.

Lemma explain_class_closed body rest :
  JS.includes body "]" = false ->
  explain_body ("[" ++ body ++ "]" ++ rest) 0
  = (class_part (JS.startsWith body "^") ("[" ++ body ++ "]"),
     String.length ("[" ++ body ++ "]")).
Proof.
  intros H.
  assert (Ei : JS.indexOf ("[" ++ body ++ "]" ++ rest) "]" 0
               = Some (S (String.length body))).
  { simpl. now rewrite indexOf_at_first by exact H. }
  assert (Es : JS.slice ("[" ++ body ++ "]" ++ rest) 0
                 (S (String.length body) + 1) = "[" ++ body ++ "]").
  { unfold JS.slice.
    replace (S (String.length body) + 1 - 0)
      with (String.length ("[" ++ body ++ "]"))
      by (simpl; rewrite append_length; simpl; lia).
    replace ("[" ++ body ++ "]" ++ rest) with (("[" ++ body ++ "]") ++ rest)
      by (simpl; now rewrite append_assoc).
    apply substring_prefix. }
  assert (Ec : (JS.charAt ("[" ++ body ++ "]" ++ rest) (0 + 1) =? "^")
               = JS.startsWith body "^").
  { change (JS.charAt ("[" ++ body ++ "]" ++ rest) (0 + 1))
      with (JS.charAt (body ++ "]" ++ rest) 0).
    destruct body as [|d body]; [reflexivity|].
    simpl append. now rewrite charAt_head_startsWith. }
  assert (El : String.length ("[" ++ body ++ "]")
               = S (String.length body) + 1).
  { simpl. rewrite append_length. simpl. lia. }
  rewrite explain_body_class by apply charAt_first.
  unfold explain_class. rewrite Ei. cbv zeta. rewrite Es, Ec, El.
  reflexivity.
Qed.

Lemma explain_class_open body :
  JS.includes body "]" = false ->
  explain_body ("[" ++ body) 0
  = (class_part (JS.startsWith body "^") ("[" ++ body),
     String.length ("[" ++ body) + 1).
Proof.
  intros H.
  assert (Ei : JS.indexOf ("[" ++ body) "]" 0 = None).
  { simpl. now rewrite indexOf_absent by exact H. }
  assert (Es : JS.slice ("[" ++ body) 0 (String.length ("[" ++ body) + 1)
               = "[" ++ body).
  { unfold JS.slice. apply substring_all. lia. }
  assert (Ec : (JS.charAt ("[" ++ body) (0 + 1) =? "^")
               = JS.startsWith body "^").
  { change (JS.charAt ("[" ++ body) (0 + 1)) with (JS.charAt body 0).
    apply charAt_head_startsWith. }
  rewrite explain_body_class by apply charAt_first.
  unfold explain_class. rewrite Ei. cbv zeta. rewrite Es, Ec.
  reflexivity.
Qed.

(** A first turn that ends past the end of the pattern is the only one. *)
Lemma explainRegex_single pat part k :
  pat <> EmptyString ->
  explain_body pat 0 = (part, k) -> String.length pat <= k ->
  explainRegex pat = Some [part].
Proof.
  intros Hne Hb Hk. unfold explainRegex.
  assert (Hs0 : explain_step pat (0, []) = inl (k, [part])).
  { unfold explain_step.
    destruct (Nat.ltb_spec 0 (String.length pat)) as [_|H0];
      [now rewrite Hb|].
    destruct pat; [easy | simpl in H0; lia]. }
  assert (Hs1 : explain_step pat (k, [part]) = inr [part]).
  { unfold explain_step.
    destruct (Nat.ltb_spec k (String.length pat)); [lia | reflexivity]. }
  clear Hk. destruct (String.length pat) as [|n] eqn:En.
  { destruct pat; [easy | discriminate]. }
  cbn [iterate]. rewrite Hs0. destruct n; cbn [iterate]; now rewrite Hs1.
Qed.

(** X7. A character class is one part.  An opening bracket followed by
    [body] with no closing bracket in it and then a closing bracket gives
    the part whose token is the class with its brackets, a negated class
    when [body] starts with a caret, and the scan goes on after the closing
    bracket.  When the pattern ends before a closing bracket, the rest of
    the pattern is the class and the only part. *)
Theorem explainRegex_class (body rest : string) :
  JS.includes body "]" = false ->
  explainRegex ("[" ++ body ++ "]" ++ rest)
  = option_map (cons (class_part (JS.startsWith body "^") ("[" ++ body ++ "]")))
      (explainRegex rest)
  /\ explainRegex ("[" ++ body)
     = Some [class_part (JS.startsWith body "^") ("[" ++ body)].
Proof.
  intros H. split.
  - replace ("[" ++ body ++ "]" ++ rest) with (("[" ++ body ++ "]") ++ rest)
      by (simpl; now rewrite append_assoc).
    apply explainRegex_split; [discriminate|].
    replace (("[" ++ body ++ "]") ++ rest) with ("[" ++ body ++ "]" ++ rest)
      by (simpl; now rewrite append_assoc).
    now apply explain_class_closed.
  - apply explainRegex_single with (k := String.length ("[" ++ body) + 1).
    + discriminate.
    + now apply explain_class_open.
    + lia.
Qed.

Lemma explainRegex_class_witness :
  explainRegex "[^a-z]+"
  = Some [class_part true "[^a-z]";
          {| token := "+"; meaning := "One or more of the previous" |}]
  /\ explainRegex "[^a-z" = Some [class_part true "[^a-z"].
Proof.
  exact (@explainRegex_class "^a-z" "+" eq_refl).
Defined.

Lemma explain_body_optional pat :
  JS.charAt pat 0 = "?" -> explain_body pat 0 = (optional_part, 1).
Proof. intros E. unfold explain_body. now rewrite E. Qed.

(** The group branch on a pattern that starts with [(?<] and goes on with
    a character that is neither [=] nor [!]. *)
Lemma explain_group_name_head x y :
  (x =? "=")%char = false -> (x =? "!")%char = false ->
  explain_body ("(?<" ++ String x y) 0
  = match JS.indexOf (String x y) ">" 0 with
    | Some e => (named_part (substring 0 e (String x y)), e + 4)
    | None => (capture_start, 1)
    end.
Proof.
  intros H1 H2. rewrite explain_body_group by apply charAt_first.
  assert (Ei : JS.indexOf ("(?<" ++ String x y) ">" (0 + 3)
               = option_map (Nat.add 3) (JS.indexOf (String x y) ">" 0))
    by exact (indexOf_suffix "(?<" (String x y) ">" 0).
  unfold explain_group. rewrite Ei.
  destruct (JS.indexOf (String x y) ">" 0) as [e|]; cbn [option_map];
    unfold JS.slice, JS.charAt;
    cbn [Nat.add Nat.sub append substring];
    rewrite !substring_zero;
    cbn [String.eqb Ascii.eqb Bool.eqb andb]; rewrite H1, H2.
  - unfold named_part. cbn [append]. rewrite Nat.sub_0_r. f_equal. lia.
  - reflexivity.
Qed.

Lemma explain_group_named name rest :
  JS.includes name ">" = false ->
  JS.startsWith name "=" = false -> JS.startsWith name "!" = false ->
  explain_body ("(?<" ++ name ++ ">" ++ rest) 0
  = (named_part name, String.length ("(?<" ++ name ++ ">")).
Proof.
  intros Hn H1 H2.
  assert (Hx : exists x y, name ++ ">" ++ rest = String x y
                           /\ (x =? "=")%char = false
                           /\ (x =? "!")%char = false).
  { destruct name as [|d name]; simpl in *; eauto. }
  destruct Hx as (x & y & E & Hx1 & Hx2). rewrite E.
  rewrite (@explain_group_name_head x y Hx1 Hx2). rewrite <- E.
  change (name ++ ">" ++ rest) with (name ++ String ">" rest).
  rewrite indexOf_at_first by exact Hn. rewrite substring_prefix.
  f_equal. simpl. rewrite append_length. simpl. lia.
Qed.

Lemma explain_group_unnamed t :
  JS.includes t ">" = false ->
  JS.startsWith t "=" = false -> JS.startsWith t "!" = false ->
  explain_body ("(?<" ++ t) 0 = (capture_start, 1).
Proof.
  intros Hn H1 H2. destruct t as [|x y]; [reflexivity|].
  simpl in H1, H2. rewrite (@explain_group_name_head x y H1 H2).
  now rewrite indexOf_absent by exact Hn.
Qed.

(** X8. A named group is one part.  After [(?<], a name with no [>] in it
    that does not start with [=] or [!], followed by [>], gives the part
    for the named group with that name, and the scan goes on after the
    [>].  When no [>] follows at all, the parenthesis is read as the start
    of a plain capture group and the question mark and the less-than sign
    are explained on their own. *)
Theorem explainRegex_named_group (name rest : string) :
  JS.includes name ">" = false ->
  JS.startsWith name "=" = false -> JS.startsWith name "!" = false ->
  explainRegex ("(?<" ++ name ++ ">" ++ rest)
  = option_map (cons (named_part name)) (explainRegex rest)
  /\ explainRegex ("(?<" ++ name)
     = option_map
         (fun ps => capture_start :: optional_part :: literal "<" :: ps)
         (explainRegex name).
Proof.
  intros Hn H1 H2. split.
  - replace ("(?<" ++ name ++ ">" ++ rest)
      with (("(?<" ++ name ++ ">") ++ rest)
      by (simpl; now rewrite append_assoc).
    apply explainRegex_split; [discriminate|].
    replace (("(?<" ++ name ++ ">") ++ rest)
      with ("(?<" ++ name ++ ">" ++ rest)
      by (simpl; now rewrite append_assoc).
    now apply explain_group_named.
  - change ("(?<" ++ name) with ("(" ++ "?" ++ "<" ++ name).
    rewrite (@explainRegex_split "(" ("?" ++ "<" ++ name) capture_start);
      [|discriminate | now apply explain_group_unnamed].
    rewrite (@explainRegex_split "?" ("<" ++ name) optional_part);
      [|discriminate | apply explain_body_optional, charAt_first].
    rewrite (@explainRegex_split "<" name (literal "<"));
      [|discriminate | now apply explain_first_literal].
    now destruct (explainRegex name).
Qed.

Lemma explainRegex_named_group_witness :
  explainRegex "(?<year>a"
  = option_map (cons (named_part "year")) (explainRegex "a")
  /\ explainRegex "(?<year"
     = option_map
         (fun ps => capture_start :: optional_part :: literal "<" :: ps)
         (explainRegex "year").
Proof.
  exact (@explainRegex_named_group "year" "a" eq_refl eq_refl eq_refl).
Defined.

(** X9. A backslash and the character after it are one part: its token is
    the two characters, its meaning comes from the table of escapes or
    says that the character is taken literally, and the scan goes on after
    the character, whatever it is. *)
Theorem explainRegex_escape (ch : ascii) (rest : string) :
  explainRegex (bs ++ String ch rest)
  = option_map (cons (escape_part ch)) (explainRegex rest).
Proof.
  change (bs ++ String ch rest) with ((bs ++ String ch EmptyString) ++ rest).
  apply explainRegex_split; [discriminate|].
  change ((bs ++ String ch EmptyString) ++ rest) with (bs ++ String ch rest).
  rewrite explain_body_escape by apply charAt_first.
  unfold explain_escape, escape_part.
  assert (E : JS.charAt (bs ++ String ch rest) (0 + 1) = String ch EmptyString)
    by apply (charAt_first ch rest).
  rewrite E. now destruct (lookup (String ch EmptyString) escapes).
Qed.

Lemma explain_group_prefix lit m rest :
  In (lit, m)
     [("(?:", "Non-capturing group start");
      ("(?<=", "Positive lookbehind start");
      ("(?<!", "Negative lookbehind start");
      ("(?=", "Positive lookahead start");
      ("(?!", "Negative lookahead start")] ->
  explain_body (lit ++ rest) 0
  = ({| token := lit; meaning := m |}, String.length lit).
Proof.
  intros H. simpl in H.
  repeat (destruct H as [H|H]; [inversion H; subst; clear H|]);
    try contradiction;
    (rewrite explain_body_group by apply charAt_first);
    unfold explain_group, JS.slice;
    cbn [Nat.add Nat.sub append substring];
    rewrite !substring_zero; reflexivity.
Qed.

(** X10. The five group openers with a question mark are one part each,
    whatever follows them: the non-capturing group, the two lookbehinds
    and the two lookaheads.  The scan goes on after the opener. *)
Theorem explainRegex_group_openers (rest : string) :
  let opener lit m :=
    explainRegex (lit ++ rest)
    = option_map (cons {| token := lit; meaning := m |}) (explainRegex rest) in
  opener "(?:" "Non-capturing group start"
  /\ opener "(?<=" "Positive lookbehind start"
  /\ opener "(?<!" "Negative lookbehind start"
  /\ opener "(?=" "Positive lookahead start"
  /\ opener "(?!" "Negative lookahead start".
Proof.
  cbv zeta.
  repeat split;
    (apply explainRegex_split;
     [discriminate | apply explain_group_prefix; simpl; tauto]).
Qed.

(** ** The order of the matches *)

Lemma ascending_snoc ms : forall lo k m hi,
  ascending_from lo ms k -> k <= index m ->
  Nat.max (S (index m)) (index m + String.length (full m)) <= hi ->
  ascending_from lo (ms ++ [m]) hi.
Proof.
  induction ms as [|x ms IH]; intros lo k m hi H Hk Hhi; simpl in *.
  - split; [lia | exact Hhi].
  - destruct H as [H1 H2]. split; [exact H1|]. now apply IH with (k := k).
Qed.

Lemma ascending_lower ms : forall lo hi j b,
  ascending_from lo ms hi -> nth_error ms j = Some b -> lo <= index b.
Proof.
  induction ms as [|x ms IH]; intros lo hi j b H Hj.
  - destruct j; discriminate.
  - destruct H as [H1 H2]. destruct j as [|j]; simpl in Hj.
    + inversion Hj; subst. exact H1.
    + specialize (IH _ _ _ _ H2 Hj). lia.
Qed.

Lemma ascending_pairs ms : forall lo hi i j a b,
  ascending_from lo ms hi -> i < j ->
  nth_error ms i = Some a -> nth_error ms j = Some b ->
  index a < index b /\ index a + String.length (full a) <= index b.
Proof.
  induction ms as [|x ms IH]; intros lo hi i j a b H Hij Hi Hj.
  - destruct i; discriminate.
  - destruct H as [H1 H2]. destruct j as [|j]; [lia|].
    destruct i as [|i]; simpl in Hi, Hj.
    + inversion Hi; subst.
      pose proof (@ascending_lower _ _ _ _ _ H2 Hj). lia.
    + apply (IH _ _ i j a b H2); [lia | assumption | assumption].
Qed.

Lemma collect_step_ascending regex inp :
  cursor_contract regex inp ->
  forall k ms st',
    ascending_from 0 ms k ->
    collect_step regex inp (k, ms) = inl st' ->
    ascending_from 0 (snd st') (fst st').
Proof.
  intros [Hm _] k ms st' H Hs. unfold collect_step in Hs.
  destruct (regex k inp) as [[m|] k'] eqn:E; [|discriminate].
  destruct (Hm _ _ _ E) as (H1 & _ & _ & H4).
  inversion Hs; subst. cbn [fst snd].
  apply ascending_snoc with (k := k); [exact H | exact H1 |].
  unfold record_of. cbn [index full].
  destruct (Nat.eqb_spec (String.length (raw_full m)) 0); lia.
Qed.

Lemma collect_ascending regex fuel flgs inp ms :
  cursor_contract regex inp ->
  collect regex fuel flgs inp = Some ms ->
  exists hi, ascending_from 0 ms hi.
Proof.
  intros Hc H. unfold collect in H. destruct (JS.includes flgs "g").
  - apply iterate_invariant
      with (Inv := fun st => ascending_from 0 (snd st) (fst st))
           (Post := fun ms => exists hi, ascending_from 0 ms hi) in H; auto.
    + intros [k ms'] st' HI Hs.
      now apply (@collect_step_ascending _ _ Hc k ms').
    + intros [k ms'] r HI Hs. unfold collect_step in Hs.
      destruct (regex k inp) as [[m|] k']; [discriminate|].
      inversion Hs; subst. now exists k.
    + simpl. lia.
  - destruct (fst (regex 0 inp)) as [m|]; inversion H; subst.
    + eexists. simpl. split; [lia | reflexivity].
    + exists 0. simpl. lia.
Qed.

Lemma spans_from_inside inp ms : forall lo e a,
  spans_from inp lo ms e -> In a ms ->
  index a + String.length (full a) <= String.length inp.
Proof.
  induction ms as [|x ms IH]; intros lo e a H Ha; [contradiction|].
  destruct H as (_ & _ & H3 & H4). destruct Ha as [->|Ha]; [exact H3|].
  now apply (IH _ _ _ H4 Ha).
Qed.

Lemma collect_count regex fuel flgs inp ms :
  cursor_contract regex inp ->
  collect regex fuel flgs inp = Some ms ->
  List.length ms <= String.length inp + 1.
Proof.
  intros Hc H. unfold collect in H. destruct (JS.includes flgs "g").
  - destruct (@collect_global_bounded _ _ Hc
                (fuel + String.length inp + 1)) as (ms' & H1 & H2 & _);
      [lia|].
    apply iterate_more with (fuel' := fuel + String.length inp + 1) in H;
      [|lia].
    assert (ms = ms') by congruence. now subst ms'.
  - destruct (fst (regex 0 inp)); inversion H; subst; simpl; lia.
Qed.

(** X11. On a host that keeps the cursor contract, the matches of a
    result come in the order of the input: a later match starts past the
    start of an earlier one and at or after its end, so no place is
    reported twice, also when matches are empty; every match ends inside
    the input, and there are at most one more matches than the input has
    characters. *)
Theorem testString_matches_ascend (engine : Engine) (fuel : nat)
  (pat flgs inp : string) (t t' : list event) (r : MatchResult)
  (regex : RegExp) :
  engine pat flgs = inl regex ->
  cursor_contract regex inp ->
  testString engine fuel pat flgs inp t = Some (Running r, t') ->
  (forall i j a b,
      i < j ->
      nth_error (matches r) i = Some a -> nth_error (matches r) j = Some b ->
      index a < index b /\ index a + String.length (full a) <= index b)
  /\ (forall a, In a (matches r) ->
                index a + String.length (full a) <= String.length inp)
  /\ List.length (matches r) <= String.length inp + 1.
Proof.
  intros He Hc H.
  destruct (testString_inversion _ _ _ _ _ _ He H) as (_ & Hcol & _ & _).
  destruct (@collect_ascending _ _ _ _ _ Hc Hcol) as [hi Hasc].
  destruct (@collect_spans _ _ _ _ _ Hc Hcol) as [e Hsp].
  split; [|split].
  - intros i j a b Hij Hi Hj.
    now apply (@ascending_pairs _ _ _ _ _ _ _ Hasc Hij Hi Hj).
  - intros a Ha. now apply (@spans_from_inside _ _ _ _ _ Hsp Ha).
  - now apply (@collect_count _ _ _ _ _ Hc Hcol).
Qed.

Lemma testString_matches_ascend_witness :
  exists r,
    testString sample_engine 9 "a" "g" "banana" [] = Some (Running r, [])
    /\ map index (matches r) = [1; 3; 5]
    /\ (forall i j a b,
          i < j ->
          nth_error (matches r) i = Some a ->
          nth_error (matches r) j = Some b ->
          index a < index b /\ index a + String.length (full a) <= index b)
    /\ List.length (matches r) <= 7.
Proof.
  eexists. split; [reflexivity|]. split; [reflexivity|].
  destruct (@testString_matches_ascend sample_engine 9 "a" "g" "banana" [] []
              _ (char_regex "a") eq_refl (char_regex_contract "a" "banana")
              eq_refl) as (H1 & _ & H3).
  split; [exact H1 | exact H3].
Defined.

(** ** What goes to the error stream *)

Lemma quiet_app t u : quiet (t ++ u) = quiet t && quiet u.
Proof. apply forallb_app. Qed.

Lemma reports_bind A B (m : Proc A) (k : A -> Proc B) :
  reports m -> (forall a, reports (k a)) -> reports (bind m k).
Proof.
  intros Hm Hk t Hq. unfold bind. specialize (Hm t Hq).
  destruct (m t) as [[[a|code] t']|]; simpl in *.
  - now apply Hk.
  - exact Hm.
  - exact I.
Qed.

Lemma reports_ret A (a : A) : reports (ret a).
Proof. intros t Hq. exact Hq. Qed.

Lemma reports_log line : reports (console_log line).
Proof.
  intros t Hq. simpl. rewrite quiet_app, Hq. reflexivity.
Qed.

Lemma reports_bounded A (o : option A) : reports (bounded o).
Proof. intros t Hq. unfold bounded. now destruct o. Qed.

Lemma reports_exit_zero A : reports (@process_exit A 0).
Proof. intros t Hq. simpl. now left. Qed.

Lemma reports_fail A line :
  reports (console_error line ;; @process_exit A 1).
Proof.
  intros t Hq. simpl. right. split; [reflexivity|].
  exists t, [line]. now repeat split.
Qed.

Lemma reports_fail_twice A l1 l2 :
  reports (console_error l1 ;; console_error l2 ;; @process_exit A 1).
Proof.
  intros t Hq. simpl. right. split; [reflexivity|].
  exists t, [l1; l2]. rewrite <- app_assoc. now repeat split.
Qed.

Lemma reports_log_all lines : reports (log_all lines).
Proof.
  induction lines as [|l lines IH]; simpl.
  - apply reports_ret.
  - apply reports_bind; [apply reports_log | intros _; exact IH].
Qed.

Lemma reports_for_each A B (body : A -> Proc B) xs :
  (forall x, reports (body x)) -> reports (for_each xs body).
Proof.
  intros Hb. induction xs as [|x xs IH]; simpl.
  - apply reports_ret.
  - apply reports_bind; [apply Hb|]. intros b.
    apply reports_bind; [exact IH|]. intros bs. apply reports_ret.
Qed.

Lemma reports_testString engine fuel pat flgs inp :
  reports (testString engine fuel pat flgs inp).
Proof.
  unfold testString. destruct (engine pat flgs) as [regex|msg].
  - apply reports_bind; [apply reports_bounded|]. intros ms.
    apply reports_ret.
  - apply reports_fail.
Qed.

Lemma reports_test_one engine fuel opts str :
  reports (test_one engine fuel opts str).
Proof.
  unfold test_one. apply reports_bind; [apply reports_testString|].
  intros r. apply reports_bind.
  - destruct (json opts); [apply reports_ret | apply reports_log_all].
  - intros _. apply reports_ret.
Qed.

Lemma reports_test_all engine fuel opts strs :
  reports (test_all engine fuel opts strs).
Proof.
  unfold test_all.
  apply reports_bind; [apply reports_log | intros _].
  apply reports_bind; [apply reports_log | intros _].
  apply reports_bind;
    [apply reports_for_each; intros x; apply reports_test_one | intros rs].
  apply reports_bind;
    [destruct (json opts); [apply reports_log | apply reports_ret]
    | intros _].
  apply reports_bind; [|intros _; apply reports_log].
  destruct ((1 <? List.length strs)%nat && negb (json opts));
    [apply reports_log | apply reports_ret].
Qed.

Lemma reports_explain_mode opts : reports (explain_mode opts).
Proof.
  unfold explain_mode. destruct (explain opts); [|apply reports_ret].
  apply reports_bind; [apply reports_bounded | intros parts].
  apply reports_bind; [apply reports_log_all | intros _].
  destruct ((List.length (strings opts) =? 0)%nat
            && negb (bulk_given (bulk opts)));
    [apply reports_exit_zero | apply reports_ret].
Qed.

Lemma reports_bulk_mode fs opts : reports (bulk_mode fs opts).
Proof.
  unfold bulk_mode. destruct (bulk opts) as [file|]; [|apply reports_ret].
  destruct (JS.truthy file); [|apply reports_ret].
  destruct (fs file); [apply reports_ret | apply reports_fail].
Qed.

Lemma reports_run_options engine fs fuel opts :
  reports (run_options engine fs fuel opts).
Proof.
  unfold run_options. destruct (help opts).
  { apply reports_bind; [apply reports_log | intros _].
    apply reports_exit_zero. }
  destruct (negb (JS.truthy (pattern opts))); [apply reports_fail_twice|].
  apply reports_bind; [apply reports_explain_mode | intros _].
  apply reports_bind; [apply reports_bulk_mode | intros strs].
  destruct (List.length strs =? 0)%nat;
    [apply reports_fail | apply reports_test_all].
Qed.

(** X12. What a run writes with [console.error]: a run that returns or
    exits with 0 has written nothing there; a run that exits with another
    code exits with 1, and the lines it wrote there are its last lines, at
    least one, written right before the exit. *)
Theorem main_reports (engine : Engine) (fs : FileSystem) (fuel : nat)
  (argv : list string) :
  well_reported (main engine fs fuel argv []).
Proof.
  assert (H : reports (main engine fs fuel argv)).
  { unfold main. apply reports_bind; [apply reports_bounded|].
    intros opts. apply reports_run_options. }
  now apply H.
Qed.

(** ** The strings that a run tests *)

(** X13. With a bulk file given, the positional test strings play no part
    in the run: any other list in their place gives the same run, from
    every trace. *)
Theorem bulk_overrides_strings (engine : Engine) (fs : FileSystem)
  (fuel : nat) (opts : Options) (l : list string) (t : list event) :
  bulk_given (bulk opts) = true ->
  run_options engine fs fuel (with_strings l opts) t
  = run_options engine fs fuel opts t.
Proof.
  intros Hb. destruct opts as [h j p ss f b e].
  cbn [bulk] in Hb. destruct b as [file|]; [|discriminate].
  change (JS.truthy file = true) in Hb.
  unfold run_options, explain_mode, bulk_mode, with_strings, bulk_given,
    test_all, test_one.
  cbn [help json pattern strings flags bulk explain].
  rewrite Hb. rewrite !andb_false_r. reflexivity.
Qed.

Lemma bulk_overrides_strings_witness :
  run_options sample_engine sample_fs 9
    (with_strings ["zzz"] (with_bulk "lines.txt" (with_pattern "a" default_options))) []
  = run_options sample_engine sample_fs 9
      (with_bulk "lines.txt" (with_pattern "a" default_options)) [].
Proof.
  exact (@bulk_overrides_strings sample_engine sample_fs 9
           (with_bulk "lines.txt" (with_pattern "a" default_options))
           ["zzz"] [] eq_refl).
Defined.

Lemma split_pieces_clean ch s :
  Forall (fun p => JS.includes p ch = false) (JS.split ch s).
Proof.
  induction s as [|d s IH]; simpl.
  - now constructor.
  - destruct (d =? ch)%char eqn:E.
    + constructor; [reflexivity | exact IH].
    + destruct (JS.split ch s) as [|h tl]; inversion IH; subst.
      * constructor; [|constructor].
        rewrite includes_cons, E. reflexivity.
      * constructor; [|assumption].
        rewrite includes_cons, E. assumption.
Qed.

Lemma concat_empty_cons s l :
  String.concat EmptyString (s :: l) = s ++ String.concat EmptyString l.
Proof.
  destruct l as [|x l]; simpl; [now rewrite append_empty_r | reflexivity].
Qed.

Lemma concat_split ch s :
  String.concat EmptyString (JS.split ch s) = without ch s.
Proof.
  induction s as [|d s IH]; [reflexivity|].
  cbn [JS.split without]. destruct (d =? ch)%char.
  - rewrite concat_empty_cons. exact IH.
  - destruct (JS.split ch s) as [|h tl].
    + simpl in IH. rewrite <- IH. reflexivity.
    + rewrite concat_empty_cons in *. simpl. now rewrite IH.
Qed.

Lemma concat_filter_truthy l :
  String.concat EmptyString (filter JS.truthy l)
  = String.concat EmptyString l.
Proof.
  induction l as [|s l IH]; [reflexivity|].
  cbn [filter]. destruct s as [|d s].
  - cbn [JS.truthy]. rewrite concat_empty_cons. exact IH.
  - cbn [JS.truthy]. rewrite !concat_empty_cons. now rewrite IH.
Qed.

Lemma concat_empty_nil l :
  Forall (fun s => s <> EmptyString) l ->
  String.concat EmptyString l = EmptyString -> l = [].
Proof.
  intros H E. destruct H as [|s l Hs _]; [reflexivity|].
  rewrite concat_empty_cons in E. destruct s; [easy | discriminate].
Qed.

Lemma split_not_nil ch s : JS.split ch s <> [].
Proof.
  destruct s as [|d s]; simpl; [discriminate|].
  destruct (d =? ch)%char; [discriminate|].
  destruct (JS.split ch s); discriminate.
Qed.

(** Joining the pieces of a split with the separator gives the string
    back. *)
Lemma concat_split_join ch s :
  String.concat (String ch EmptyString) (JS.split ch s) = s.
Proof.
  induction s as [|d s IH]; [reflexivity|].
  cbn [JS.split]. pose proof (split_not_nil ch s) as Hn.
  destruct (Ascii.eqb_spec d ch) as [->|Hne];
    destruct (JS.split ch s) as [|h tl]; try easy.
  - change (String.concat (String ch EmptyString) (EmptyString :: h :: tl))
      with (String ch (String.concat (String ch EmptyString) (h :: tl))).
    now rewrite IH.
  - assert (E : String.concat (String ch EmptyString) (String d h :: tl)
                = String d (String.concat (String ch EmptyString) (h :: tl)))
      by (destruct tl; reflexivity).
    now rewrite E, IH.
Qed.

(** A string is cut at the separator in one way only. *)
Lemma split_unique ch pieces :
  pieces <> [] ->
  Forall (fun p => JS.includes p ch = false) pieces ->
  JS.split ch (String.concat (String ch EmptyString) pieces) = pieces.
Proof.
  intros Hne H. induction H as [|p ps Hp Hps IH]; [easy|].
  destruct ps as [|q ps].
  - simpl. now apply split_without.
  - change (String.concat (String ch EmptyString) (p :: q :: ps))
      with (p ++ String ch (String.concat (String ch EmptyString) (q :: ps))).
    rewrite split_at_first by exact Hp. rewrite IH; [reflexivity|discriminate].
Qed.

(** X14. The strings read from a bulk file are the lines of the file that
    are not empty, in order.  The content is the lines of the file joined
    by newlines, in one way only: however the content is written as
    pieces without a newline joined by newlines, the strings are the
    pieces that are not empty, in that order.  So no string is empty or
    holds a newline, put together they are the content of the file
    without its newlines, and there is none exactly when the file holds
    nothing but newlines.  Nothing is printed. *)
Theorem bulk_mode_lines (fs : FileSystem) (opts : Options)
  (file content : string) (t : list event) :
  bulk opts = Some file -> JS.truthy file = true ->
  fs file = inl content ->
  exists strs,
    bulk_mode fs opts t = Some (Running strs, t)
    /\ (exists pieces,
          String.concat nl pieces = content
          /\ Forall (fun p => JS.includes p (ascii_of_nat 10) = false) pieces
          /\ strs = filter JS.truthy pieces)
    /\ (forall pieces,
          String.concat nl pieces = content ->
          Forall (fun p => JS.includes p (ascii_of_nat 10) = false) pieces ->
          filter JS.truthy pieces = strs)
    /\ Forall (fun s => s <> EmptyString
                        /\ JS.includes s (ascii_of_nat 10) = false) strs
    /\ String.concat EmptyString strs = without (ascii_of_nat 10) content
    /\ (strs = [] <-> without (ascii_of_nat 10) content = EmptyString).
Proof.
  intros Hb Hf Hc.
  exists (filter JS.truthy (JS.split (ascii_of_nat 10) content)).
  assert (Hall : Forall (fun s => s <> EmptyString
                                 /\ JS.includes s (ascii_of_nat 10) = false)
                   (filter JS.truthy (JS.split (ascii_of_nat 10) content))).
  { apply Forall_forall. intros s Hs. apply filter_In in Hs.
    destruct Hs as [Hin Ht]. split.
    - intros ->. discriminate.
    - pose proof (split_pieces_clean (ascii_of_nat 10) content) as Hp.
      rewrite Forall_forall in Hp. now apply Hp. }
  assert (Hcat : String.concat EmptyString
                   (filter JS.truthy (JS.split (ascii_of_nat 10) content))
                 = without (ascii_of_nat 10) content).
  { now rewrite concat_filter_truthy, concat_split. }
  split; [|split; [|split; [|split; [exact Hall | split; [exact Hcat|]]]]].
  - unfold bulk_mode. now rewrite Hb, Hf, Hc.
  - exists (JS.split (ascii_of_nat 10) content).
    split; [apply concat_split_join|].
    split; [apply split_pieces_clean | reflexivity].
  - intros pieces Hjoin Hclean. rewrite <- Hjoin.
    destruct pieces as [|p ps]; [reflexivity|].
    unfold nl. rewrite split_unique; [reflexivity | discriminate | exact Hclean].
  - split.
    + intros E. rewrite <- Hcat, E. reflexivity.
    + intros E. apply concat_empty_nil.
      * eapply Forall_impl; [|exact Hall]. now intros s [Hs _].
      * now rewrite Hcat.
Qed.

Lemma bulk_mode_lines_witness :
  exists strs,
    bulk_mode sample_fs
      (with_bulk "lines.txt" (with_pattern "a" default_options)) []
    = Some (Running strs, [])
    /\ strs = ["axa"; "bbb"].
Proof.
  destruct (@bulk_mode_lines sample_fs
              (with_bulk "lines.txt" (with_pattern "a" default_options))
              "lines.txt" ("axa" ++ nl ++ nl ++ "bbb" ++ nl) []
              eq_refl eq_refl eq_refl) as (strs & H1 & _ & H3 & _).
  exists strs. split; [exact H1|]. symmetry.
  apply (H3 ["axa"; EmptyString; "bbb"; EmptyString]); [reflexivity|].
  repeat constructor.
Defined.

(** ** Explaining and testing in one run *)

(** X15. With strings to test, [--explain] only puts the breakdown of the
    pattern in front: the run is the run without [--explain] from the
    trace with the lines of the breakdown added. *)
Theorem explain_then_test (engine : Engine) (fs : FileSystem) (fuel : nat)
  (opts : Options) :
  help opts = false -> JS.truthy (pattern opts) = true ->
  explain opts = true -> explain_only opts = false ->
  exists parts,
    explainRegex (pattern opts) = Some parts
    /\ forall t,
         run_options engine fs fuel opts t
         = run_options engine fs fuel (without_explain opts)
             (t ++ map Out (explain_lines (pattern opts) parts))%list.
Proof.
  intros H Hp He Ho.
  destruct (explainRegex_total (pattern opts)) as [parts Hparts].
  exists parts. split; [exact Hparts|]. intros t.
  destruct (explain_mode_run opts t) as (parts' & Hparts' & Hm).
  assert (parts' = parts) by congruence. subst parts'.
  rewrite He, Ho in Hm.
  destruct opts as [h j p ss f b e]. simpl in *. subst h e.
  unfold run_options, without_explain.
  cbn [help json pattern strings flags bulk explain].
  rewrite Hp. cbn [negb].
  rewrite (@bind_running _ _ _ _ _ _ _ Hm).
  unfold explain_mode at 1. cbn [explain].
  unfold bind at 2. unfold ret at 1.
  reflexivity.
Qed.

Lemma explain_then_test_witness :
  exists parts,
    explainRegex "a" = Some parts
    /\ forall t,
         run_options sample_engine sample_fs 9
           (with_explain (push_string "banana" (with_pattern "a" default_options))) t
         = run_options sample_engine sample_fs 9
             (without_explain
                (with_explain
                   (push_string "banana" (with_pattern "a" default_options))))
             (t ++ map Out (explain_lines "a" parts))%list.
Proof.
  exact (@explain_then_test sample_engine sample_fs 9
           (with_explain (push_string "banana" (with_pattern "a" default_options)))
           eq_refl eq_refl eq_refl eq_refl).
Defined.

(** ** What a plain run prints *)

Lemma for_each_plain engine fuel opts regex :
  json opts = false ->
  engine (pattern opts) (flags opts) = inl regex ->
  forall strs u rs tr,
    for_each strs (test_one engine fuel opts) u = Some (Running rs, tr) ->
    Forall2 (result_for regex fuel (flags opts)) strs rs
    /\ tr = (u ++ rendered rs)%list.
Proof.
  intros Hj He strs.
  induction strs as [|x strs IH]; intros u rs tr H; simpl in H.
  - inversion H; subst. split; [constructor|].
    unfold rendered. simpl. now rewrite app_nil_r.
  - unfold bind at 1 in H.
    rewrite (@test_one_accept engine fuel opts x u regex He) in H.
    rewrite Hj in H.
    destruct (collect regex fuel (flags opts) x) as [ms|] eqn:Ec;
      [|discriminate].
    cbv zeta in H. unfold bind at 1 in H.
    match type of H with
    | context [for_each strs ?b ?v] =>
        destruct (for_each strs b v) as [[[bs|code] tb]|] eqn:E;
          try discriminate
    end.
    destruct (IH _ _ _ E) as [Hall Ht].
    inversion H; subst. split.
    + constructor; [|exact Hall]. exists ms. now split.
    + unfold rendered. cbn [flat_map]. now rewrite <- app_assoc.
Qed.

Lemma matched_count_bound rs : matched_count rs <= List.length rs.
Proof. apply filter_length_le. Qed.

(** X16. What a run that tests strings prints without [--json], when the
    host accepts the pattern: the two banner lines; then, for each string
    in order, the lines of [renderResult] for the result of that string;
    then the summary line when more than one string was tested, which
    never counts more matched strings than were tested; then an empty
    line.  The run returns; it does not exit. *)
Theorem plain_output (engine : Engine) (fuel : nat) (opts : Options)
  (strs : list string) (t t' : list event) (st : status unit)
  (regex : RegExp) :
  json opts = false ->
  engine (pattern opts) (flags opts) = inl regex ->
  test_all engine fuel opts strs t = Some (st, t') ->
  exists rs,
    Forall2 (result_for regex fuel (flags opts)) strs rs
    /\ st = Running tt
    /\ t' = (t ++ banner opts ++ rendered rs
             ++ (if (1 <? List.length strs)%nat
                 then [Out (summary_line rs (List.length strs))]
                 else [])
             ++ [Out EmptyString])%list
    /\ summary_line rs (List.length strs)
       = nl ++ "  " ++ c.bold ++ "Summary:" ++ c.reset ++ " " ++ c.green
         ++ dec (matched_count rs) ++ c.reset ++ "/"
         ++ dec (List.length strs) ++ " strings matched"
    /\ matched_count rs <= List.length strs.
Proof.
  intros Hj He H. unfold test_all in H.
  unfold bind at 1 in H. unfold console_log at 1 in H.
  unfold bind at 1 in H. unfold console_log at 1 in H.
  unfold bind at 1 in H.
  match type of H with
  | context [for_each strs ?b ?u] =>
      destruct (for_each strs b u) as [[[rs|code] tr]|] eqn:E
  end.
  - destruct (@for_each_plain engine fuel opts regex Hj He _ _ _ _ E)
      as [Hall Htr].
    exists rs. split; [exact Hall|].
    rewrite Hj in H. rewrite andb_true_r in H.
    assert (Hlen : List.length rs = List.length strs).
    { symmetry. eapply Forall2_length. exact Hall. }
    destruct (1 <? List.length strs)%nat;
      unfold bind, console_log, ret in H; inversion H; subst;
      (split; [reflexivity|]);
      (split; [unfold banner; rewrite <- !app_assoc; reflexivity|]);
      (split; [reflexivity|]);
      rewrite <- Hlen; apply matched_count_bound.
  - exfalso. revert E. apply for_each_never_exits.
    intros x v code' v'. rewrite (@test_one_accept _ fuel _ x v _ He).
    destruct (collect regex fuel (flags opts) x); discriminate.
  - discriminate.
Qed.

Lemma plain_output_witness :
  exists rs,
    Forall2 (result_for (char_regex "a") 9 "g") ["banana"; "xyz"] rs
    /\ trace_of (test_all sample_engine 9
                   (with_pattern "a" default_options) ["banana"; "xyz"] [])
       = (banner (with_pattern "a" default_options) ++ rendered rs
          ++ [Out (summary_line rs 2)] ++ [Out EmptyString])%list
    /\ matched_count rs <= 2.
Proof.
  destruct (@plain_output sample_engine 9 (with_pattern "a" default_options)
              ["banana"; "xyz"] [] _ _ (char_regex "a")
              eq_refl eq_refl eq_refl) as (rs & H1 & _ & H3 & _ & H5).
  exists rs. split; [exact H1|]. split; [|exact H5].
  exact H3.
Defined.

(** ** From the arguments to the tests *)

Lemma no_dash_not_option a :
  JS.startsWith a "-" = false ->
  a <> "--flags" /\ a <> "--bulk"
  /\ (a =? "--help") || (a =? "-h") = false
  /\ (a =? "--json") = false /\ (a =? "--explain") = false.
Proof.
  intros H. repeat split;
    try (intros ->; discriminate);
    try (apply orb_false_iff; split);
    apply String.eqb_neq; intros ->; discriminate.
Qed.

Lemma parse_list_positional strs : forall o,
  no_dash strs -> JS.truthy (pattern o) = true ->
  parse_list strs o = with_strings (strings o ++ strs) o.
Proof.
  induction strs as [|a strs IH]; intros o Hd Hp.
  - simpl. rewrite app_nil_r. now destruct o.
  - inversion Hd as [|? ? Ha Hrest]; subst.
    destruct (no_dash_not_option _ Ha) as (H1 & H2 & H3 & H4 & H5).
    rewrite (@parse_list_no_value a strs o H1 H2 H3 H4 H5).
    assert (E : positional a o = push_string a o).
    { unfold positional. now rewrite Hp, Ha. }
    rewrite E, IH; [|exact Hrest | exact Hp].
    unfold with_strings, push_string. simpl. now rewrite <- app_assoc.
Qed.

(** X17. A pattern and test strings given as plain arguments, none
    starting with a dash, the pattern not empty and at least one string:
    the run is the tests of these strings, in order, with the default
    flags; nothing is explained, no file is read, and no message about
    missing arguments is written. *)
Theorem main_positional (engine : Engine) (fs : FileSystem) (fuel : nat)
  (pat : string) (strs : list string) (t : list event) :
  pat <> EmptyString -> no_dash (pat :: strs) -> strs <> [] ->
  main engine fs fuel (pat :: strs) t
  = test_all engine fuel
      {| help := false; json := false; pattern := pat; strings := strs;
         flags := "g"; bulk := None; explain := false |} strs t.
Proof.
  intros Hp Hd Hs.
  inversion Hd as [|? ? Ha Hrest]; subst.
  destruct (no_dash_not_option _ Ha) as (H1 & H2 & H3 & H4 & H5).
  assert (Ht : JS.truthy pat = true) by (destruct pat; [easy | reflexivity]).
  assert (E : parseArgs (pat :: strs)
              = Some {| help := false; json := false; pattern := pat;
                        strings := strs; flags := "g"; bulk := None;
                        explain := false |}).
  { unfold parseArgs.
    rewrite parse_loop_list with (n := List.length (pat :: strs)) by lia.
    f_equal.
    rewrite (@parse_list_no_value pat strs default_options H1 H2 H3 H4 H5).
    assert (P : positional pat default_options
                = with_pattern pat default_options).
    { unfold positional. simpl. now rewrite Ha. }
    rewrite P, parse_list_positional; [reflexivity | exact Hrest | exact Ht]. }
  rewrite (@main_run_options engine fs fuel _ _ t E).
  unfold run_options, explain_mode, bulk_mode.
  cbn [help json pattern strings flags bulk explain]. rewrite Ht.
  cbn [negb]. destruct strs as [|s strs]; [easy | reflexivity].
Qed.

Lemma main_positional_witness :
  main sample_engine sample_fs 9 ["a"; "banana"; "xyz"] []
  = test_all sample_engine 9
      {| help := false; json := false; pattern := "a";
         strings := ["banana"; "xyz"];
         flags := "g"; bulk := None; explain := false |}
      ["banana"; "xyz"] [].
Proof.
  apply (@main_positional sample_engine sample_fs 9 "a" ["banana"; "xyz"] []).
  - discriminate.
  - repeat constructor.
  - discriminate.
Defined.

Lemma for_each_structured engine fuel opts regex :
  json opts = true ->
  engine (pattern opts) (flags opts) = inl regex ->
  forall strs u rs tr,
    for_each strs (test_one engine fuel opts) u = Some (Running rs, tr) ->
    Forall2 (result_for regex fuel (flags opts)) strs rs /\ tr = u.
Proof.
  intros Hj He strs.
  induction strs as [|x strs IH]; intros u rs tr H; simpl in H.
  - inversion H; subst. split; [constructor | reflexivity].
  - unfold bind at 1 in H.
    rewrite (@test_one_accept engine fuel opts x u regex He) in H.
    rewrite Hj in H.
    destruct (collect regex fuel (flags opts) x) as [ms|] eqn:Ec;
      [|discriminate].
    cbv zeta in H. unfold bind at 1 in H.
    destruct (for_each strs (test_one engine fuel opts) u)
      as [[[bs|code] tb]|] eqn:E; try discriminate.
    destruct (IH _ _ _ E) as [Hall Ht].
    inversion H; subst. split; [|reflexivity].
    constructor; [|exact Hall]. exists ms. now split.
Qed.

(** X18. With [--json] the document holds the results themselves: what a
    run that tests strings prints, when the host accepts the pattern, is
    the two banner lines, the document of the results that [testString]
    builds for the strings, in order, and an empty line; nothing of
    [renderResult] and no summary line.  The run returns. *)
Theorem structured_results (engine : Engine) (fuel : nat) (opts : Options)
  (strs : list string) (t t' : list event) (st : status unit)
  (regex : RegExp) :
  json opts = true ->
  engine (pattern opts) (flags opts) = inl regex ->
  test_all engine fuel opts strs t = Some (st, t') ->
  exists rs,
    Forall2 (result_for regex fuel (flags opts)) strs rs
    /\ st = Running tt
    /\ t' = (t ++ banner opts
             ++ [Out (json_document rs); Out EmptyString])%list.
Proof.
  intros Hj He H. unfold test_all in H.
  unfold bind at 1 in H. unfold console_log at 1 in H.
  unfold bind at 1 in H. unfold console_log at 1 in H.
  unfold bind at 1 in H.
  match type of H with
  | context [for_each strs ?b ?u] =>
      destruct (for_each strs b u) as [[[rs|code] tr]|] eqn:E
  end.
  - destruct (@for_each_structured engine fuel opts regex Hj He _ _ _ _ E)
      as [Hall Htr].
    exists rs. split; [exact Hall|].
    rewrite Hj in H. rewrite andb_false_r in H.
    unfold bind, console_log, ret in H. inversion H; subst.
    split; [reflexivity|].
    unfold banner. rewrite <- !app_assoc. reflexivity.
  - exfalso. revert E. apply for_each_never_exits.
    intros x v code' v'. rewrite (@test_one_accept _ fuel _ x v _ He).
    destruct (collect regex fuel (flags opts) x); discriminate.
  - discriminate.
Qed.

Lemma structured_results_witness :
  exists rs,
    Forall2 (result_for (char_regex "a") 9 "g") ["banana"; "xyz"] rs
    /\ trace_of (test_all sample_engine 9
                   (with_json (with_pattern "a" default_options))
                   ["banana"; "xyz"] [])
       = (banner (with_json (with_pattern "a" default_options))
          ++ [Out (json_document rs); Out EmptyString])%list.
Proof.
  destruct (@structured_results sample_engine 9
              (with_json (with_pattern "a" default_options))
              ["banana"; "xyz"] [] _ _ (char_regex "a")
              eq_refl eq_refl eq_refl) as (rs & H1 & _ & H3).
  exists rs. split; [exact H1 | exact H3].
Defined.

(** ** The lines of one result *)

Lemma capture_lines_length gs : forall g,
  List.length (capture_lines gs g) = List.length gs.
Proof.
  induction gs as [|v gs IH]; intros g; simpl; [reflexivity|].
  now rewrite IH.
Qed.

Lemma match_lines_length ms : forall i,
  List.length (match_lines ms i)
  = fold_right (fun m n => lines_of_match m + n) 0 ms.
Proof.
  induction ms as [|m ms IH]; intros i; [reflexivity|].
  cbn [match_lines fold_right]. cbv zeta.
  cbn [List.length]. rewrite !length_app, IH. unfold lines_of_match.
  destruct (0 <? List.length (groups m))%nat;
    destruct (0 <? List.length (namedGroups m))%nat;
    cbn [List.length]; unfold named_lines;
    rewrite ?capture_lines_length, ?length_map; lia.
Qed.

Lemma capture_lines_nth gs : forall g k v,
  nth_error gs k = Some v ->
  nth_error (capture_lines gs g) k
  = Some ("      " ++ c.dim ++ "$" ++ dec (g + k + 1) ++ ":" ++ c.reset
          ++ " " ++ c.yellow
          ++ match v with Some s => s | None => "(undefined)" end
          ++ c.reset).
Proof.
  induction gs as [|x gs IH]; intros g k v H.
  - destruct k; discriminate.
  - destruct k as [|k]; simpl in H.
    + inversion H; subst. cbn [capture_lines nth_error].
      now rewrite Nat.add_0_r.
    + cbn [capture_lines nth_error]. rewrite (IH (g + 1) k v H).
      now replace (g + 1 + k + 1) with (g + S k + 1) by lia.
Qed.

Lemma match_lines_captures ms : forall i m l,
  In m ms -> In l (capture_lines (groups m) 0) -> In l (match_lines ms i).
Proof.
  induction ms as [|x ms IH]; intros i m l Hm Hl; [contradiction|].
  cbn [match_lines]. cbv zeta. right. apply in_or_app.
  destruct Hm as [->|Hm].
  - left. destruct (groups m) as [|g gs]; [contradiction|].
    cbn [List.length Nat.ltb Nat.leb]. now right.
  - right. apply in_or_app. right. now apply IH with (m := m).
Qed.

(** X19. [renderResult] only prints, and returns: three lines for the
    count, the input and the highlighted text, then for each match its
    head line and, when it has groups or named groups, a title line and
    one line for each of them.  Among the lines is, for the group at place
    [k] of a match, the line labelled with the number [k + 1] that shows
    the text of the group, or [(undefined)] for a group that took no part
    in the match. *)
Theorem renderResult_lines (result : MatchResult) (t : list event) :
  exists lines,
    renderResult result t = Some (Running tt, (t ++ map Out lines)%list)
    /\ List.length lines
       = 3 + fold_right (fun m n => lines_of_match m + n) 0 (matches result)
    /\ forall m k v,
         In m (matches result) -> nth_error (groups m) k = Some v ->
         In ("      " ++ c.dim ++ "$" ++ dec (k + 1) ++ ":" ++ c.reset
             ++ " " ++ c.yellow
             ++ match v with Some s => s | None => "(undefined)" end
             ++ c.reset) lines.
Proof.
  exists (render_lines result). split; [apply log_all_run|]. split.
  - unfold render_lines. cbv zeta. rewrite length_app, match_lines_length.
    reflexivity.
  - intros m k v Hm H. unfold render_lines. cbv zeta.
    apply in_or_app. right.
    apply match_lines_captures with (m := m); [exact Hm|].
    apply nth_error_In with (n := k).
    exact (@capture_lines_nth _ 0 k v H).
Qed.

Lemma renderResult_lines_witness :
  exists lines,
    renderResult
      {| input := "xy";
         matches := [{| full := "x"; index := 0; groups := [Some "x"; None];
                        namedGroups := [] |}];
         highlighted := "xy" |} []
    = Some (Running tt, map Out lines)
    /\ List.length lines = 7
    /\ In ("      " ++ c.dim ++ "$2:" ++ c.reset ++ " " ++ c.yellow
           ++ "(undefined)" ++ c.reset) lines.
Proof.
  destruct (renderResult_lines
              {| input := "xy";
                 matches := [{| full := "x"; index := 0;
                                groups := [Some "x"; None];
                                namedGroups := [] |}];
                 highlighted := "xy" |} []) as (lines & H1 & H2 & H3).
  exists lines. split; [exact H1|]. split; [exact H2|].
  exact (H3 _ 1 None (or_introl eq_refl) eq_refl).
Defined.

(** ** The one-character branches *)

Lemma explain_body_simple pat lit m :
  JS.charAt pat 0 = lit ->
  In (lit, m)
     [("^", "Start of string/line");
      ("$", "End of string/line");
      (".", "Any character (except newline)");
      ("*", "Zero or more of the previous");
      ("+", "One or more of the previous");
      ("?", "Zero or one of the previous (optional)");
      ("|", "OR (alternative)");
      (")", "Group end")] ->
  explain_body pat 0 = ({| token := lit; meaning := m |}, 1).
Proof.
  intros E H. unfold explain_body. rewrite E. simpl in H.
  repeat (destruct H as [H|H]; [inversion H; subst; reflexivity|]).
  contradiction.
Qed.

Lemma explain_group_plain rest :
  JS.startsWith rest "?" = false ->
  explain_body ("(" ++ rest) 0 = (capture_start, 1).
Proof.
  intros H. rewrite explain_body_group by apply charAt_first.
  unfold explain_group, JS.slice, JS.charAt.
  cbn [Nat.add Nat.sub append substring].
  destruct rest as [|x rest]; [reflexivity|].
  simpl in H. cbn [substring]. rewrite !substring_zero.
  cbn [String.eqb Ascii.eqb Bool.eqb andb].
  assert (E : (String x EmptyString =? "?") = false).
  { simpl. now rewrite H. }
  destruct x as [[] [] [] [] [] [] [] []]; try discriminate;
    destruct rest as [|y rest]; try reflexivity;
    cbn [substring]; rewrite ?substring_zero; reflexivity.
Qed.

(** X20. The characters with a meaning of their own are one part each,
    whatever follows them: the two anchors, the dot, the star, the plus,
    the question mark, the bar and the closing parenthesis; so is an
    opening parenthesis that is not followed by a question mark, as the
    start of a capture group.  The scan goes on after the character. *)
Theorem explainRegex_single_characters (rest : string) :
  let single lit m :=
    explainRegex (lit ++ rest)
    = option_map (cons {| token := lit; meaning := m |}) (explainRegex rest) in
  single "^" "Start of string/line"
  /\ single "$" "End of string/line"
  /\ single "." "Any character (except newline)"
  /\ single "*" "Zero or more of the previous"
  /\ single "+" "One or more of the previous"
  /\ single "?" "Zero or one of the previous (optional)"
  /\ single "|" "OR (alternative)"
  /\ single ")" "Group end"
  /\ (JS.startsWith rest "?" = false -> single "(" "Capture group start").
Proof.
  cbv zeta.
  repeat split;
    try (apply explainRegex_split;
         [discriminate
         | apply explain_body_simple; [apply charAt_first | simpl; tauto]]).
  intros H. apply explainRegex_split; [discriminate|].
  now apply explain_group_plain.
Qed.

Lemma explainRegex_single_characters_witness :
  explainRegex "(a)"
  = option_map (cons {| token := "("; meaning := "Capture group start" |})
      (explainRegex "a)")
  /\ explainRegex ")a)"
     = option_map (cons {| token := ")"; meaning := "Group end" |})
         (explainRegex "a)").
Proof.
  destruct (explainRegex_single_characters "a)")
    as (_ & _ & _ & _ & _ & _ & _ & H8 & H9).
  split; [exact (H9 eq_refl) | exact H8].
Defined.

(** ** The messages of a failing run *)

(** X21. A run without [--help] that fails exits with 1 after writing the
    lines of its failure, then nothing more: two lines for a missing
    pattern, before anything else; one line with the message of the host
    for a bulk file that cannot be read, one line for no string to test,
    both after the breakdown when [--explain] is given; one line with the
    message of the host for a pattern it rejects, after the banner and
    before any string is tested.  The bound on the turns of the loops
    plays no part. *)
Theorem failure_messages (engine : Engine) (fs : FileSystem) (fuel : nat)
  (opts : Options) (t : list event) (f : failure) :
  help opts = false ->
  failure_of engine fs opts = Some f ->
  exists parts,
    explainRegex (pattern opts) = Some parts
    /\ run_options engine fs fuel opts t
       = Some (Exited 1,
               (t ++ before_failure opts parts f
                ++ map Err (failure_lines engine fs opts f))%list)
    /\ failure_lines engine fs opts f <> [].
Proof.
  intros H Hf.
  destruct (explain_mode_run opts t) as (parts & Hparts & Hm).
  exists parts. split; [exact Hparts|].
  unfold failure_of in Hf. unfold run_options. rewrite H.
  destruct (JS.truthy (pattern opts)) eqn:Hp; cbn [negb] in *.
  2:{ inversion Hf; subst. split; [|discriminate].
      unfold bind, console_error, process_exit. cbn [before_failure].
      cbn [failure_lines map app]. now rewrite <- app_assoc. }
  destruct (explain_only opts) eqn:He; [discriminate|].
  set (explained := if explain opts
                    then map Out (explain_lines (pattern opts) parts)
                    else []) in *.
  assert (Hm' : explain_mode opts t = Some (Running tt, (t ++ explained)%list)).
  { rewrite Hm. unfold explained. destruct (explain opts); [reflexivity|].
    now rewrite app_nil_r. }
  rewrite (@bind_running _ _ _ _ _ _ _ Hm').
  pose proof (bulk_mode_run fs opts (t ++ explained)%list) as Hb.
  unfold failure_lines, before_failure. fold explained.
  destruct (strings_to_test fs opts) as [[|s rest]|msg].
  - inversion Hf; subst. rewrite (@bind_running _ _ _ _ _ _ _ Hb).
    split; [|discriminate].
    cbn [List.length Nat.eqb]. unfold bind, console_error, process_exit.
    cbn [map]. now rewrite <- app_assoc.
  - rewrite (@bind_running _ _ _ _ _ _ _ Hb).
    cbn [List.length Nat.eqb].
    destruct (engine (pattern opts) (flags opts)) as [regex|msg] eqn:E;
      [discriminate|].
    inversion Hf; subst. split; [|discriminate].
    unfold test_all. unfold bind at 1. unfold console_log at 1.
    unfold bind at 1. unfold console_log at 1.
    unfold bind at 1. cbn [for_each]. unfold bind at 1.
    unfold test_one. unfold bind at 1. unfold testString. rewrite E.
    unfold bind at 1. unfold console_error, process_exit.
    unfold banner. cbn [map]. now rewrite <- !app_assoc.
  - inversion Hf; subst. rewrite (@bind_exited _ _ _ _ _ _ _ Hb).
    split; [|discriminate]. cbn [map]. now rewrite <- app_assoc.
Qed.

Lemma failure_messages_witness :
  run_options sample_engine sample_fs 0
    (push_string "x" (with_pattern "(" default_options)) []
  = Some (Exited 1,
          (banner (push_string "x" (with_pattern "(" default_options))
           ++ [Err (c.red ++ "Invalid regex:" ++ c.reset ++ " "
                    ++ "Invalid regular expression: /(/: Unterminated group")])%list).
Proof.
  destruct (@failure_messages sample_engine sample_fs 0
              (push_string "x" (with_pattern "(" default_options)) []
              InvalidPattern eq_refl eq_refl) as (parts & _ & H & _).
  exact H.
Defined.

(** ** The lines of the breakdown *)

Lemma spaces_length n : String.length (spaces n) = n.
Proof. induction n as [|n IH]; simpl; congruence. Qed.

Lemma padEnd_length s n :
  String.length (padEnd s n) = Nat.max n (String.length s).
Proof. unfold padEnd. rewrite append_length, spaces_length. lia. Qed.

(** X22. With [--explain] the run prints the breakdown first: a title
    line, the line of the pattern, one line for each part of the
    explanation, in order, and an empty line.  In the line of a part the
    token is filled up with spaces to 15 characters, so that the meanings
    stand in one column; a longer token is printed whole. *)
Theorem explain_mode_layout (opts : Options) (t : list event) :
  explain opts = true ->
  exists parts st,
    explainRegex (pattern opts) = Some parts
    /\ explain_mode opts t
       = Some (st, (t ++ map Out (explain_lines (pattern opts) parts))%list)
    /\ List.length (explain_lines (pattern opts) parts)
       = List.length parts + 3
    /\ forall k part,
         nth_error parts k = Some part ->
         exists cell,
           nth_error (explain_lines (pattern opts) parts) (k + 2)
           = Some ("  " ++ c.bold ++ c.green ++ cell ++ c.reset ++ " "
                   ++ c.dim ++ meaning part ++ c.reset)
           /\ cell = token part ++ spaces (15 - String.length (token part))
           /\ String.length cell = Nat.max 15 (String.length (token part)).
Proof.
  intros He. destruct (explain_mode_run opts t) as (parts & Hparts & Hm).
  rewrite He in Hm. exists parts.
  exists (if explain_only opts then Exited 0 else Running tt).
  split; [exact Hparts|]. split; [now destruct (explain_only opts)|].
  split.
  - unfold explain_lines. cbn [app List.length].
    rewrite length_app, length_map. simpl. lia.
  - intros k part Hk. exists (padEnd (token part) 15).
    split; [|split; [reflexivity | apply padEnd_length]].
    unfold explain_lines. replace (k + 2) with (S (S k)) by lia.
    cbn [app nth_error]. rewrite nth_error_app1.
    + rewrite nth_error_map, Hk. reflexivity.
    + rewrite length_map. apply nth_error_Some. congruence.
Qed.

Lemma explain_mode_layout_witness :
  exists parts st,
    explainRegex "a+" = Some parts
    /\ explain_mode (with_explain (with_pattern "a+" default_options)) []
       = Some (st, map Out (explain_lines "a+" parts))
    /\ List.length (explain_lines "a+" parts) = List.length parts + 3.
Proof.
  destruct (@explain_mode_layout
              (with_explain (with_pattern "a+" default_options)) [] eq_refl)
    as (parts & st & H1 & H2 & H3 & _).
  exists parts, st. split; [exact H1 | split; [exact H2 | exact H3]].
Defined.

(** ** Options with a value, and dash-prefixed arguments *)

(** A turn at [--flags] or [--bulk] with a value after it takes the value
    and steps over it. *)
Lemma parse_body_value argv i o :
  JS.truthy (argAt argv (i + 1)) = true ->
  (argAt argv i = "--flags" ->
   parse_body argv i o = (i + 2, with_flags (argAt argv (i + 1)) o))
  /\ (argAt argv i = "--bulk" ->
      parse_body argv i o = (i + 2, with_bulk (argAt argv (i + 1)) o)).
Proof.
  intros Hv. replace (i + 2) with (i + 1 + 1) by lia.
  split; intros Ha; unfold parse_body; rewrite Ha, Hv; reflexivity.
Qed.

(** A turn at [--flags] or [--bulk] with an empty argument, or none, after
    it changes nothing. *)
Lemma parse_body_no_value argv i o :
  argAt argv i = "--flags" \/ argAt argv i = "--bulk" ->
  JS.truthy (argAt argv (i + 1)) = false ->
  parse_body argv i o = (i + 1, o).
Proof.
  intros Ha Hv. unfold parse_body. rewrite Hv.
  destruct Ha as [-> | ->]; simpl; now rewrite !andb_false_r.
Qed.

(** The scan of a list that starts with arguments free of [--flags] and
    [--bulk] is the scan of these arguments, then the scan of the rest. *)
Lemma parse_list_app pre : forall l o,
  ~ In "--flags" pre -> ~ In "--bulk" pre ->
  parse_list (pre ++ l) o = parse_list l (parse_list pre o).
Proof.
  induction pre as [|a pre IH]; intros l o Hf Hb; [reflexivity|].
  assert (Hf' : ~ In "--flags" pre) by (intros H; apply Hf; now right).
  assert (Hb' : ~ In "--bulk" pre) by (intros H; apply Hb; now right).
  assert (Haf : a <> "--flags") by (intros ->; apply Hf; now left).
  assert (Hab : a <> "--bulk") by (intros ->; apply Hb; now left).
  cbn [app].
  destruct ((a =? "--help") || (a =? "-h")) eqn:E1.
  { cbn [parse_list]. rewrite E1. now apply IH. }
  destruct (a =? "--json") eqn:E2.
  { cbn [parse_list]. rewrite E1, E2. now apply IH. }
  destruct (a =? "--explain") eqn:E3.
  { cbn [parse_list]. rewrite E1, E2, E3. now apply IH. }
  rewrite (@parse_list_no_value a (pre ++ l) o Haf Hab E1 E2 E3).
  rewrite (@parse_list_no_value a pre o Haf Hab E1 E2 E3).
  now apply IH.
Qed.

Lemma parse_list_value v rest o :
  JS.truthy v = true ->
  parse_list ("--flags" :: v :: rest) o = parse_list rest (with_flags v o)
  /\ parse_list ("--bulk" :: v :: rest) o = parse_list rest (with_bulk v o).
Proof.
  intros Hv. split; cbn [parse_list];
    cbn [String.eqb Ascii.eqb Bool.eqb orb andb]; now rewrite Hv.
Qed.

Lemma parse_list_empty_value rest o :
  parse_list ("--flags" :: EmptyString :: rest) o
  = parse_list (EmptyString :: rest) o
  /\ parse_list ("--bulk" :: EmptyString :: rest) o
     = parse_list (EmptyString :: rest) o.
Proof.
  assert (P : forall a, JS.startsWith a "-" = true -> positional a o = o).
  { intros a Ha. unfold positional. rewrite Ha. cbn [negb].
    now rewrite !andb_false_r. }
  split.
  - change (parse_list ("--flags" :: EmptyString :: rest) o)
      with (parse_list (EmptyString :: rest) (positional "--flags" o)).
    now rewrite P.
  - change (parse_list ("--bulk" :: EmptyString :: rest) o)
      with (parse_list (EmptyString :: rest) (positional "--bulk" o)).
    now rewrite P.
Qed.

(** A change of the options that the turns of the scan do not look at and
    do not undo can be made before the scan or after it. *)
Section ScanCommutes.
Variable f : Options -> Options.
Variable skip : string.
Hypothesis f_help : forall o, f (with_help o) = with_help (f o).
Hypothesis f_json : forall o, f (with_json o) = with_json (f o).
Hypothesis f_explain : forall o, f (with_explain o) = with_explain (f o).
Hypothesis f_positional :
  forall a o, f (positional a o) = positional a (f o).
Hypothesis f_flags :
  skip <> "--flags" -> forall v o, f (with_flags v o) = with_flags v (f o).
Hypothesis f_bulk :
  skip <> "--bulk" -> forall v o, f (with_bulk v o) = with_bulk v (f o).

Lemma parse_list_commutes n : forall post o,
  List.length post <= n -> ~ In skip post ->
  parse_list post (f o) = f (parse_list post o).
Proof.
  induction n as [|n IH]; intros post o Hn Hin;
    (destruct post as [|a rest]; [reflexivity|]); simpl in Hn; [lia|].
  assert (Hrest : ~ In skip rest) by (intros H; apply Hin; now right).
  assert (Ha : a <> skip) by (intros ->; apply Hin; now left).
  cbn [parse_list].
  destruct ((a =? "--help") || (a =? "-h"));
    [rewrite <- f_help; apply IH; [lia | exact Hrest]|].
  destruct (a =? "--json");
    [rewrite <- f_json; apply IH; [lia | exact Hrest]|].
  destruct (a =? "--explain");
    [rewrite <- f_explain; apply IH; [lia | exact Hrest]|].
  destruct rest as [|v rest'].
  { cbn [parse_list]. symmetry. apply f_positional. }
  assert (Hrest' : ~ In skip rest')
    by (intros H; apply Hrest; now right).
  simpl in Hn.
  destruct (String.eqb_spec a "--flags") as [->|_]; cbn [andb].
  { destruct (JS.truthy v).
    - rewrite <- (f_flags (not_eq_sym Ha)). apply IH; [lia | exact Hrest'].
    - cbn [String.eqb Ascii.eqb Bool.eqb andb].
      rewrite <- f_positional. apply IH; [simpl; lia | exact Hrest]. }
  destruct (String.eqb_spec a "--bulk") as [->|_]; cbn [andb].
  { destruct (JS.truthy v).
    - rewrite <- (f_bulk (not_eq_sym Ha)). apply IH; [lia | exact Hrest'].
    - rewrite <- f_positional. apply IH; [simpl; lia | exact Hrest]. }
  rewrite <- f_positional. apply IH; [simpl; lia | exact Hrest].
Qed.
End ScanCommutes.

Lemma positional_with_flags v a o :
  with_flags v (positional a o) = positional a (with_flags v o).
Proof.
  unfold positional. cbn [pattern with_flags].
  destruct (JS.truthy (pattern o)); destruct (JS.startsWith a "-");
    reflexivity.
Qed.

Lemma positional_with_bulk v a o :
  with_bulk v (positional a o) = positional a (with_bulk v o).
Proof.
  unfold positional. cbn [pattern with_bulk].
  destruct (JS.truthy (pattern o)); destruct (JS.startsWith a "-");
    reflexivity.
Qed.

Lemma parse_list_with_flags v post o :
  ~ In "--flags" post ->
  parse_list post (with_flags v o) = with_flags v (parse_list post o).
Proof.
  intros H.
  apply (@parse_list_commutes (with_flags v) "--flags")
    with (n := List.length post); auto; try reflexivity.
  - intros a o'. apply positional_with_flags.
  - intros Hne. now destruct Hne.
Qed.

Lemma parse_list_with_bulk v post o :
  ~ In "--bulk" post ->
  parse_list post (with_bulk v o) = with_bulk v (parse_list post o).
Proof.
  intros H.
  apply (@parse_list_commutes (with_bulk v) "--bulk")
    with (n := List.length post); auto; try reflexivity.
  - intros a o'. apply positional_with_bulk.
  - intros Hne. now destruct Hne.
Qed.

(** After arguments free of [--flags] and [--bulk], an option with a
    value that is not empty gives what the arguments without the two give,
    with the value set; with an empty argument after it, the option is
    dropped and the empty argument is read in its turn. *)
Lemma parseArgs_option_value pre v post :
  ~ In "--flags" pre -> ~ In "--bulk" pre ->
  (v <> EmptyString ->
   (~ In "--flags" post ->
    parseArgs (pre ++ "--flags" :: v :: post)
    = option_map (with_flags v) (parseArgs (pre ++ post)))
   /\ (~ In "--bulk" post ->
       parseArgs (pre ++ "--bulk" :: v :: post)
       = option_map (with_bulk v) (parseArgs (pre ++ post))))
  /\ parseArgs (pre ++ "--flags" :: EmptyString :: post)
     = parseArgs (pre ++ EmptyString :: post)
  /\ parseArgs (pre ++ "--bulk" :: EmptyString :: post)
     = parseArgs (pre ++ EmptyString :: post).
Proof.
  intros Hf Hb.
  assert (PL : forall a, parseArgs a = Some (parse_list a default_options)).
  { intros a. unfold parseArgs.
    apply parse_loop_list with (n := List.length a). lia. }
  rewrite !PL. clear PL.
  rewrite !(@parse_list_app pre _ _ Hf Hb). cbn [option_map].
  split; [|split].
  - intros Hv.
    assert (Ht : JS.truthy v = true) by (destruct v; [easy | reflexivity]).
    destruct (@parse_list_value v post (parse_list pre default_options) Ht)
      as [E1 E2].
    rewrite E1, E2. split; intros Hp; f_equal.
    + now apply parse_list_with_flags.
    + now apply parse_list_with_bulk.
  - f_equal. apply parse_list_empty_value.
  - f_equal. apply parse_list_empty_value.
Qed.

(** C9, as the code has it. [parseArgs] returns for every argument vector.
    The pattern and the test strings it returns never start with a dash. A
    dash-prefixed argument that is no known option leaves the options as
    they are when a turn of the loop reads it, and so does [--flags] or
    [--bulk] read in last place, where no value follows, or read before an
    empty argument. So a last argument of one of these kinds that does not
    follow [--flags] or [--bulk] changes nothing in what [parseArgs]
    returns. When no [--flags] (no [--bulk]) stands before the last place,
    the flags are the default [g] (no bulk path is set).

    When a turn reads [--flags] or [--bulk] and the next argument is not
    empty, that argument becomes the flags or the bulk path, whatever it
    looks like, and the loop steps over it: it is not read by a turn of
    its own.  After arguments free of the two options this gives the
    result for the vector without the option and its value, with the
    value set (a later [--flags] or [--bulk] apart).  An empty next
    argument is no value: the option is dropped and the empty argument is
    read as any other argument. *)
Theorem parseArgs_dash_arguments (argv : list string) :
  exists opts,
    parseArgs argv = Some opts
    /\ JS.startsWith (pattern opts) "-" = false
    /\ no_dash (strings opts)
    /\ (forall i o,
          JS.startsWith (argAt argv i) "-" = true ->
          is_known_option (argAt argv i) = false ->
          parse_body argv i o = (i + 1, o))
    /\ (forall i o,
          i + 1 = List.length argv ->
          argAt argv i = "--flags" \/ argAt argv i = "--bulk" ->
          parse_body argv i o = (i + 1, o))
    /\ (forall a,
          argAt argv (List.length argv - 1) <> "--flags" ->
          argAt argv (List.length argv - 1) <> "--bulk" ->
          a = "--flags" \/ a = "--bulk"
          \/ (JS.startsWith a "-" = true /\ is_known_option a = false) ->
          parseArgs (argv ++ [a]) = Some opts)
    /\ ((forall j, j + 1 < List.length argv -> argAt argv j <> "--flags") ->
        flags opts = "g")
    /\ ((forall j, j + 1 < List.length argv -> argAt argv j <> "--bulk") ->
        bulk opts = None)
    /\ (forall i o,
          JS.truthy (argAt argv (i + 1)) = true ->
          (argAt argv i = "--flags" ->
           parse_body argv i o = (i + 2, with_flags (argAt argv (i + 1)) o))
          /\ (argAt argv i = "--bulk" ->
              parse_body argv i o
              = (i + 2, with_bulk (argAt argv (i + 1)) o)))
    /\ (forall i o,
          argAt argv i = "--flags" \/ argAt argv i = "--bulk" ->
          JS.truthy (argAt argv (i + 1)) = false ->
          parse_body argv i o = (i + 1, o))
    /\ (~ In "--flags" argv -> ~ In "--bulk" argv ->
        forall v post,
          (v <> EmptyString ->
           (~ In "--flags" post ->
            parseArgs (argv ++ "--flags" :: v :: post)
            = option_map (with_flags v) (parseArgs (argv ++ post)))
           /\ (~ In "--bulk" post ->
               parseArgs (argv ++ "--bulk" :: v :: post)
               = option_map (with_bulk v) (parseArgs (argv ++ post))))
          /\ parseArgs (argv ++ "--flags" :: EmptyString :: post)
             = parseArgs (argv ++ EmptyString :: post)
          /\ parseArgs (argv ++ "--bulk" :: EmptyString :: post)
             = parseArgs (argv ++ EmptyString :: post)).
Proof.
  destruct (parseArgs_total argv) as [opts H]. exists opts.
  destruct (parseArgs_invariant _ H) as (Hp & Hs & Hf & Hb).
  split; [exact H|]. split; [exact Hp|]. split; [exact Hs|].
  split; [intros i o; apply parse_body_unknown|].
  split; [intros i o; apply parse_body_trailing|].
  split.
  { intros a H1 H2 Ha. rewrite <- H. now apply parseArgs_ignores_last. }
  split.
  { intros Hno. destruct Hf as [|[j [Hj Ha]]]; [assumption|].
    now destruct (Hno j Hj). }
  split.
  { intros Hno. destruct Hb as [|[j [Hj Ha]]]; [assumption|].
    now destruct (Hno j Hj). }
  split; [intros i o; apply parse_body_value|].
  split; [intros i o; apply parse_body_no_value|].
  intros Hnf Hnb v post. now apply parseArgs_option_value.
Qed.

Lemma parseArgs_dash_arguments_witness :
  (exists opts,
     parseArgs ["-p"; "a+"; "-v"; "-s"; "abc"; "--flags"] = Some opts
     /\ pattern opts = "a+"
     /\ strings opts = ["abc"]
     /\ parse_body ["-p"; "a+"; "-v"; "-s"; "abc"; "--flags"] 2 opts
        = (3, opts)
     /\ parse_body ["-p"; "a+"; "-v"; "-s"; "abc"; "--flags"] 5 opts
        = (6, opts)
     /\ flags opts = "g"
     /\ bulk opts = None)
  /\ parseArgs (["a+"; "--flags"; "i"; "abc"] ++ ["--bulk"])
     = parseArgs ["a+"; "--flags"; "i"; "abc"]
  /\ parseArgs (["p"] ++ "--flags" :: "--help" :: ["x"])
     = option_map (with_flags "--help") (parseArgs (["p"] ++ ["x"]))
  /\ parseArgs (["p"] ++ "--bulk" :: "-" :: ["x"])
     = option_map (with_bulk "-") (parseArgs (["p"] ++ ["x"]))
  /\ parseArgs (["p"] ++ "--flags" :: EmptyString :: ["x"])
     = parseArgs (["p"] ++ EmptyString :: ["x"])
  /\ parse_body ["p"; "--flags"; "--json"; "x"] 1 default_options
     = (3, with_flags "--json" default_options)
  /\ parse_body ["p"; "--bulk"; EmptyString; "x"] 1 default_options
     = (2, default_options).
Proof.
  assert (Hnf : ~ In "--flags" ["p"])
    by (intros [H|[]]; discriminate).
  assert (Hnb : ~ In "--bulk" ["p"])
    by (intros [H|[]]; discriminate).
  assert (Hxf : ~ In "--flags" ["x"])
    by (intros [H|[]]; discriminate).
  assert (Hxb : ~ In "--bulk" ["x"])
    by (intros [H|[]]; discriminate).
  split; [|split; [|split; [|split; [|split; [|split]]]]].
  - destruct (parseArgs_dash_arguments
                ["-p"; "a+"; "-v"; "-s"; "abc"; "--flags"])
      as (opts & H & _ & _ & Hu & Ht & _ & Hf & Hb & _).
    exists opts. split; [exact H|].
    split; [vm_compute in H; now inversion H|].
    split; [vm_compute in H; now inversion H|].
    split; [apply (Hu 2); reflexivity|].
    split; [apply (Ht 5); [reflexivity | left; reflexivity]|].
    split.
    + apply Hf. intros j Hj. simpl in Hj.
      do 5 (destruct j as [|j]; [discriminate|]). lia.
    + apply Hb. intros j Hj. simpl in Hj.
      do 5 (destruct j as [|j]; [discriminate|]). lia.
  - destruct (parseArgs_dash_arguments ["a+"; "--flags"; "i"; "abc"])
      as (opts & H & _ & _ & _ & _ & Hi & _).
    rewrite H. apply Hi; [discriminate | discriminate|].
    right; left; reflexivity.
  - destruct (parseArgs_dash_arguments ["p"])
      as (opts & _ & _ & _ & _ & _ & _ & _ & _ & _ & _ & Hv).
    destruct (Hv Hnf Hnb "--help" ["x"]) as [Hval _].
    destruct Hval as [Hfl _]; [discriminate|]. exact (Hfl Hxf).
  - destruct (parseArgs_dash_arguments ["p"])
      as (opts & _ & _ & _ & _ & _ & _ & _ & _ & _ & _ & Hv).
    destruct (Hv Hnf Hnb "-" ["x"]) as [Hval _].
    destruct Hval as [_ Hbl]; [discriminate|]. exact (Hbl Hxb).
  - destruct (parseArgs_dash_arguments ["p"])
      as (opts & _ & _ & _ & _ & _ & _ & _ & _ & _ & _ & Hv).
    destruct (Hv Hnf Hnb EmptyString ["x"]) as (_ & He & _). exact He.
  - destruct (parseArgs_dash_arguments ["p"; "--flags"; "--json"; "x"])
      as (opts & _ & _ & _ & _ & _ & _ & _ & _ & Hval & _).
    destruct (Hval 1 default_options eq_refl) as [Hfl _].
    exact (Hfl eq_refl).
  - destruct (parseArgs_dash_arguments ["p"; "--bulk"; EmptyString; "x"])
      as (opts & _ & _ & _ & _ & _ & _ & _ & _ & _ & Hno & _).
    apply Hno; [right; reflexivity | reflexivity].
Defined.

(** C9 as stated fails where the last argument directly follows [--flags]
    or [--bulk]: it is taken as the value, whatever it looks like. *)
Lemma trailing_option_taken_as_value :
  option_map flags (parseArgs ["--flags"; "--flags"]) = Some "--flags"
  /\ option_map bulk (parseArgs ["p"; "--bulk"; "--bulk"])
     = Some (Some "--bulk")
  /\ option_map flags (parseArgs ["p"; "--flags"; "--verbose"])
     = Some "--verbose".
Proof. repeat split. Qed.
